(** * sonic-js: swap and liquidity arithmetic

    A shallow embedding of [src/math/swap.ts] and [src/math/liquidity.ts].
    Both files compute with [bignumber.js] values: sums, differences and
    products are exact, quotients and square roots are rounded to twenty
    decimal places ([DECIMAL_PLACES = 20]), and [dp] rounds to a requested
    number of places.  Neither file sets the library's [ROUNDING_MODE] or
    passes a mode to [dividedBy], [sqrt] or [dp(0)]: the mode in force is the
    one the package root configures, so every function below takes it as its
    first argument [rm] ([getAmountOut] also takes [am], the mode that the
    helper [applyDecimals] rounds with).  Two modes are covered: the
    library's default [ROUND_HALF_UP], and [ROUND_FLOOR], the rounding down
    that the spec describes.  The first module models the arithmetic
    (without the library's bound of 1e9 on exponents); [Swap] and
    [Liquidity] follow the two source files line by line, and the helpers
    they import from the package root are modelled from the spec. *)

From Stdlib Require Import ZArith NArith QArith Qround Qpower Qabs.
From Stdlib Require Import Bool List Lia Lra Psatz.
Import ListNotations.

Close Scope Q_scope.

(** ** Decimal values of bignumber.js *)

Module BigNumber.

(** A value is not-a-number, a signed infinity, or a signed finite decimal
    [(-1)^neg * c * 10^e].  Zero carries a sign, as in the library. *)
Inductive t : Type :=
| NaN
| Infinity (neg : bool)
| Finite (neg : bool) (c : N) (e : Z).

Inductive RoundingMode : Type :=
| ROUND_FLOOR
| ROUND_HALF_UP.

Definition DECIMAL_PLACES : Z := 20.

(** The mode of a library that has not been configured. *)
Definition DEFAULT_ROUNDING_MODE : RoundingMode := ROUND_HALF_UP.

Definition pow10 (k : Z) : N := (10 ^ Z.to_N k)%N.

(** The library keeps coefficients without trailing zeros. *)
Fixpoint strip (fuel : nat) (c : N) (e : Z) : N * Z :=
  match fuel with
  | O => (c, e)
  | S fuel' =>
      if (c mod 10 =? 0)%N then strip fuel' (c / 10)%N (e + 1)%Z else (c, e)
  end.

Definition make (neg : bool) (c : N) (e : Z) : t :=
  if (c =? 0)%N then Finite neg 0 0
  else let '(c', e') := strip (N.size_nat c) c e in Finite neg c' e'.

Definition ofZ (z : Z) : t := make (z <? 0)%Z (Z.to_N (Z.abs z)) 0.
Definition ofNat (n : nat) : t := ofZ (Z.of_nat n).

Definition zero : t := Finite false 0 0.
Definition one : t := Finite false 1 0.

Definition isNaN (x : t) : bool :=
  match x with NaN => true | _ => false end.

Definition isZero (x : t) : bool :=
  match x with Finite _ c _ => (c =? 0)%N | _ => false end.

Definition isFinite (x : t) : bool :=
  match x with Finite _ _ _ => true | _ => false end.

Definition negated (x : t) : t :=
  match x with
  | NaN => NaN
  | Infinity neg => Infinity (negb neg)
  | Finite neg c e => Finite (negb neg) c e
  end.

(** The signed integer [x * 10^(-e0)], for [e0] at most the exponent. *)
Definition aligned (e0 : Z) (neg : bool) (c : N) (e : Z) : Z :=
  let m := Z.of_N (c * pow10 (e - e0)) in if neg then (- m)%Z else m.

Definition plus (x y : t) : t :=
  match x, y with
  | NaN, _ | _, NaN => NaN
  | Infinity a, Infinity b => if Bool.eqb a b then Infinity a else NaN
  | Infinity a, Finite _ _ _ => Infinity a
  | Finite _ _ _, Infinity b => Infinity b
  | Finite a cx ex, Finite b cy ey =>
      let e0 := Z.min ex ey in
      let m := (aligned e0 a cx ex + aligned e0 b cy ey)%Z in
      if (m =? 0)%Z then Finite (a && b) 0 0
      else make (m <? 0)%Z (Z.to_N (Z.abs m)) e0
  end.

Definition minus (x y : t) : t := plus x (negated y).

Definition multipliedBy (x y : t) : t :=
  match x, y with
  | NaN, _ | _, NaN => NaN
  | Infinity a, Infinity b => Infinity (xorb a b)
  | Infinity a, Finite b c _ | Finite a c _, Infinity b =>
      if (c =? 0)%N then NaN else Infinity (xorb a b)
  | Finite a cx ex, Finite b cy ey => make (xorb a b) (cx * cy) (ex + ey)
  end.

(** The integer magnitude nearest to [n / d] in the given mode, for a value
    of sign [neg]. *)
Definition roundMagnitude (rm : RoundingMode) (neg : bool) (n d : N) : N :=
  match rm with
  | ROUND_HALF_UP => ((2 * n + d) / (2 * d))%N
  | ROUND_FLOOR => if neg then ((n + d - 1) / d)%N else (n / d)%N
  end.

Definition div (x y : t) (places : Z) (rm : RoundingMode) : t :=
  match x, y with
  | NaN, _ | _, NaN => NaN
  | Infinity _, Infinity _ => NaN
  | Infinity a, Finite b _ _ => Infinity (xorb a b)
  | Finite a _ _, Infinity b => Finite (xorb a b) 0 0
  | Finite a cx ex, Finite b cy ey =>
      if (cy =? 0)%N then
        if (cx =? 0)%N then NaN else Infinity (xorb a b)
      else
        let k := (ex - ey + places)%Z in
        let n := (cx * pow10 k)%N in
        let d := (cy * pow10 (- k))%N in
        make (xorb a b) (roundMagnitude rm (xorb a b) n d) (- places)
  end.

(** [x.dividedBy(y)] under the configured mode [rm]. *)
Definition dividedBy (rm : RoundingMode) (x y : t) : t :=
  div x y DECIMAL_PLACES rm.

Definition round (x : t) (places : Z) (rm : RoundingMode) : t :=
  match x with
  | Finite neg c e =>
      if (- places <=? e)%Z then x
      else make neg (roundMagnitude rm neg c (pow10 (- places - e))) (- places)
  | _ => x
  end.

(** [x.dp(places)] under the configured mode [rm], and [x.dp(places, m)]
    with a mode of its own. *)
Definition dp (rm : RoundingMode) (places : Z) (x : t) : t :=
  round x places rm.
Definition dpWith (places : Z) (m : RoundingMode) (x : t) : t :=
  round x places m.

(** [x.sqrt()]: the square root correctly rounded to [DECIMAL_PLACES] in
    the configured mode [rm]. *)
Definition sqrt (rm : RoundingMode) (x : t) : t :=
  match x with
  | NaN => NaN
  | Infinity neg => if neg then NaN else x
  | Finite neg c e =>
      if (c =? 0)%N then x
      else if neg then NaN
      else
        let k := (e + 2 * DECIMAL_PLACES)%Z in
        let root :=
          match rm with
          | ROUND_HALF_UP =>
              ((N.sqrt ((4 * c * pow10 k) / pow10 (- k)) + 1) / 2)%N
          | ROUND_FLOOR => N.sqrt ((c * pow10 k) / pow10 (- k))
          end in
        make false root (- DECIMAL_PLACES)
  end.

Definition compare (x y : t) : option comparison :=
  match x, y with
  | NaN, _ | _, NaN => None
  | Infinity a, Infinity b =>
      Some (if Bool.eqb a b then Eq else if a then Lt else Gt)
  | Infinity a, Finite _ _ _ => Some (if a then Lt else Gt)
  | Finite _ _ _, Infinity b => Some (if b then Gt else Lt)
  | Finite a cx ex, Finite b cy ey =>
      let e0 := Z.min ex ey in
      Some (aligned e0 a cx ex ?= aligned e0 b cy ey)%Z
  end.

Definition isEqualTo (x y : t) : bool :=
  match compare x y with Some Eq => true | _ => false end.
Definition isLessThan (x y : t) : bool :=
  match compare x y with Some Lt => true | _ => false end.
Definition isGreaterThan (x y : t) : bool :=
  match compare x y with Some Gt => true | _ => false end.
Definition isLessThanOrEqualTo (x y : t) : bool :=
  match compare x y with Some Lt | Some Eq => true | _ => false end.
Definition isGreaterThanOrEqualTo (x y : t) : bool :=
  match compare x y with Some Gt | Some Eq => true | _ => false end.

(** [BigNumber.min(x, y)]: not-a-number if either argument is, otherwise
    [y] when [x] is strictly greater and [x] if not. *)
Definition min (x y : t) : t :=
  if isNaN y then y else if isGreaterThan x y then y else x.

(** [BigNumber.sum] over a list. *)
Definition sum (l : list t) : t := fold_left plus l zero.

(** [x.decimalPlaces()]: the number of digits after the decimal point. *)
Definition decimalPlaces (x : t) : option Z :=
  match x with
  | Finite neg c e =>
      match make neg c e with
      | Finite _ _ e' => Some (Z.max 0 (- e'))
      | _ => None
      end
  | _ => None
  end.

(** [x.toNumber()], tracked on the integers a double holds exactly; no other
    result is needed below. *)
Definition toNumber (x : t) : option Z :=
  match x with
  | Finite neg c e =>
      if (0 <=? e)%Z then
        let m := aligned 0 neg c e in
        if (Z.abs m <=? 2 ^ 53)%Z then Some m else None
      else None
  | _ => None
  end.

End BigNumber.

(** ** Argument types and helpers of the package root *)

Module Types.

(** Modelled from the spec: the declaration of [Types.Number] is not part of
    the two source files; the spec calls it a numeric-like value.  The
    sources pass number literals, strings ([amountOut.toString()]) and
    [BigNumber] instances where it is expected, and [params.fee || ...]
    depends on which of these the caller gave, so the alternatives are kept
    apart.  A number primitive is given by the decimal it prints as, a
    non-empty string by the value it reads as. *)
Inductive Number : Type :=
| NumberValue (v : BigNumber.t)
| BigIntValue (n : Z)
| StringValue (v : BigNumber.t)
| BigNumberValue (v : BigNumber.t).

(** Modelled from the spec: [Types.Amount] is a numeric-like amount, and
    [Types.Decimals] a small non-negative integer. *)
Definition Amount : Type := Number.
Definition Decimals : Type := nat.

Definition ofDecimals (d : Decimals) : Number :=
  NumberValue (BigNumber.ofNat d).

(** JavaScript truthiness: [0], [-0], [NaN] and [0n] are falsy; a non-empty
    string and an object are truthy. *)
Definition truthy (x : Number) : bool :=
  match x with
  | NumberValue v => negb (BigNumber.isZero v || BigNumber.isNaN v)
  | BigIntValue n => negb (n =? 0)%Z
  | StringValue _ => true
  | BigNumberValue _ => true
  end.

(** [a || b] for an optional property [a]. *)
Definition orElse (a : option Number) (b : Number) : Number :=
  match a with
  | Some v => if truthy v then v else b
  | None => b
  end.

End Types.

Module Utils.

Import BigNumber.

(** Modelled from the spec: the library's rounding mode is configured by the
    package root, which is not part of the two files.  The spec has the
    redeemable balances "rounded down" (sections 4.3 and 8), that is
    [ROUND_FLOOR]; where a statement below depends on the mode, this is the
    configuration it is made for. *)
Definition SPEC_ROUNDING_MODE : RoundingMode := ROUND_FLOOR.

(** Modelled from the spec: [toBigNumber] ("toDecimal") reads a numeric-like
    value as the decimal it denotes; its source is not part of the two
    files.  The spec lets the conversion fail on a value that denotes no real
    number.  The embedding has no failure: such a value is handed on as it
    is, which is what the [isNaN] tests of [getPriceImpact] look for.
    Statements below constrain the converted values, and none is about what
    the conversion itself makes of an unreadable value. *)
Definition toBigNumber (x : Types.Number) : BigNumber.t :=
  match x with
  | Types.NumberValue v => v
  | Types.BigIntValue n => ofZ n
  | Types.StringValue v => v
  | Types.BigNumberValue v => v
  end.

(** [x.toString()] as an argument: zero prints without its sign. *)
Definition toString (x : BigNumber.t) : Types.Number :=
  Types.StringValue (if isZero x then zero else x).

(** Modelled from the spec: [exponential(n) = 10^n]. *)
Definition exponential (n : Types.Decimals) : BigNumber.t :=
  Finite false 1 (Z.of_nat n).

(** Modelled from the spec: [removeDecimals(amount, decimals) =
    amount / 10^decimals], an exact division by a power of ten. *)
Definition removeDecimals (amount : Types.Amount) (decimals : Types.Decimals)
  : BigNumber.t :=
  match toBigNumber amount with
  | Finite neg c e => make neg c (e - Z.of_nat decimals)
  | v => v
  end.

(** Modelled from the spec: [applyDecimals(amount, decimals) =
    round(amount * 10^decimals)], rounded to an integer.  The spec has the
    rounding as "nearest", and as "the default decimal-library rounding"
    that the source leaves it at; the helper is not part of the two files,
    so the mode [am] it rounds with is a parameter of its own: the
    configured mode if it calls [dp(0)] as the two files do, the nearest
    integer ([ROUND_HALF_UP]) on the other reading. *)
Definition applyDecimals (am : RoundingMode) (amount : BigNumber.t)
                         (decimals : Types.Decimals) : BigNumber.t :=
  dp am 0 (multipliedBy amount (exponential decimals)).

End Utils.

Module Price.

(** Modelled from the spec: [Price.getByAmount] ("valueOf") is
    [amount * price]; its source is not part of the two files. *)
Definition getByAmount (amount : Types.Amount) (price : Types.Number)
  : BigNumber.t :=
  BigNumber.multipliedBy (Utils.toBigNumber amount) (Utils.toBigNumber price).

End Price.

(** ** src/math/swap.ts *)

Module Swap.

Import BigNumber Utils.

Definition DEFAULT_FEE : Types.Number :=
  Types.NumberValue (Finite false 3 (-3)).

Record GetAmountOutParams : Type := {
  amountIn : Types.Amount;
  decimalsIn : Types.Decimals;
  decimalsOut : Types.Decimals;
  reserveIn : Types.Number;
  reserveOut : Types.Number;
  fee : option Types.Number
}.

Definition getAmountOut (rm am : RoundingMode) (params : GetAmountOutParams)
  : BigNumber.t :=
  let amountIn := removeDecimals params.(amountIn) params.(decimalsIn) in
  let reserveIn := toBigNumber params.(reserveIn) in
  let reserveOut := toBigNumber params.(reserveOut) in
  let fee := toBigNumber (Types.orElse params.(fee) DEFAULT_FEE) in
  if isZero amountIn then toBigNumber (Types.NumberValue zero)
  else
    let amountInWithFee :=
      multipliedBy amountIn
        (minus (toBigNumber (Types.NumberValue one)) fee) in
    let numerator := multipliedBy amountInWithFee reserveOut in
    let denominator := plus reserveIn amountInWithFee in
    applyDecimals am (dividedBy rm numerator denominator)
      params.(decimalsOut).

Record GetPriceImpactParams : Type := {
  pi_amountIn : Types.Amount;
  pi_amountOut : Types.Amount;
  priceIn : Types.Number;
  priceOut : Types.Number
}.

Definition getPriceImpact (rm : RoundingMode) (params : GetPriceImpactParams)
  : BigNumber.t :=
  let amountIn := toBigNumber params.(pi_amountIn) in
  let amountOut := toBigNumber params.(pi_amountOut) in
  let priceIn := toBigNumber params.(priceIn) in
  let priceOut := toBigNumber params.(priceOut) in
  if isZero amountIn || isNaN amountIn
     || isZero amountOut || isNaN amountOut
     || isZero priceIn || isNaN priceIn
     || isZero priceOut || isNaN priceOut
  then toBigNumber (Types.NumberValue zero)
  else
    let _amountOut :=
      Price.getByAmount (toString amountOut) (Types.BigNumberValue priceOut) in
    let _amountIn :=
      Price.getByAmount (toString amountIn) (Types.BigNumberValue priceIn) in
    negated
      (multipliedBy (minus one (dividedBy rm _amountOut _amountIn))
         (ofZ 100)).

End Swap.

(** ** src/math/liquidity.ts *)

Module Pair.

(** Modelled from the spec: the pair declaration is not part of the two
    files; a pair state carries the two reserves and the total supply of its
    liquidity token, and a balance is a numeric-like value. *)
Record Model : Type := {
  reserve0 : Types.Number;
  reserve1 : Types.Number;
  totalSupply : Types.Number
}.

Definition Balance : Type := Types.Number.

End Pair.

Module Liquidity.

Import BigNumber Utils.

Definition MINIMUM_LIQUIDITY : BigNumber.t := exponential 3.

Definition getPairDecimals (rm : RoundingMode)
                           (token0Decimals token1Decimals : Types.Decimals)
  : option Z :=
  toNumber
    (dpWith 0 ROUND_FLOOR
       (dividedBy rm
          (plus (toBigNumber (Types.ofDecimals token0Decimals))
                (ofNat token1Decimals))
          (ofNat 2))).

Record GetAddPositionParams : Type := {
  token0Amount : Types.Amount;
  token1Amount : Types.Amount;
  token0Decimals : Types.Decimals;
  token1Decimals : Types.Decimals;
  reserve0 : Types.Number;
  reserve1 : Types.Number;
  totalSupply : Types.Number
}.

Definition GetPercentageParams : Type := GetAddPositionParams.

(** Lines 44-61 of [getAddPosition]: the pair [(amount0, amount1)] that the
    deposit is credited with. *)
Definition creditedAmounts (rm : RoundingMode)
                           (amount0Desired amount1Desired reserve0 reserve1
                            : BigNumber.t) : BigNumber.t * BigNumber.t :=
  if isZero reserve0 && isZero reserve1 then (amount0Desired, amount1Desired)
  else
    let amount1Optimal :=
      dividedBy rm (multipliedBy amount0Desired reserve1) reserve0 in
    if isGreaterThanOrEqualTo amount1Desired amount1Optimal then
      (amount0Desired, amount1Optimal)
    else
      let amount0Optimal :=
        dividedBy rm (multipliedBy amount1Desired reserve0) reserve1 in
      (amount0Optimal, amount1Desired).

(** Lines 63-74 of [getAddPosition]: the amount minted for the credited
    pair. *)
Definition mintedPosition (rm : RoundingMode)
                          (amount0 amount1 reserve0 reserve1 totalSupply
                           : BigNumber.t) : BigNumber.t :=
  let lp :=
    if isZero totalSupply then
      minus (sqrt rm (multipliedBy amount0 amount1)) MINIMUM_LIQUIDITY
    else
      let one := dividedBy rm (multipliedBy amount0 totalSupply) reserve0 in
      let two := dividedBy rm (multipliedBy amount1 totalSupply) reserve1 in
      BigNumber.min one two in
  dp rm 0 lp.

Definition getAddPosition (rm : RoundingMode) (params : GetAddPositionParams)
  : BigNumber.t :=
  let amount0Desired :=
    removeDecimals params.(token0Amount) params.(token0Decimals) in
  let amount1Desired :=
    removeDecimals params.(token1Amount) params.(token1Decimals) in
  let reserve0 := toBigNumber params.(reserve0) in
  let reserve1 := toBigNumber params.(reserve1) in
  let totalSupply := toBigNumber params.(totalSupply) in
  let '(amount0, amount1) :=
    creditedAmounts rm amount0Desired amount1Desired reserve0 reserve1 in
  mintedPosition rm amount0 amount1 reserve0 reserve1 totalSupply.

Definition getAddPercentage (rm : RoundingMode) (params : GetPercentageParams)
  : BigNumber.t :=
  let totalSupply := toBigNumber params.(totalSupply) in
  if isZero totalSupply then one
  else
    let lp := getAddPosition rm params in
    let percentage := dividedBy rm lp (plus lp totalSupply) in
    percentage.

Record GetTokenBalancesParams : Type := {
  pair : Pair.Model;
  lpBalance : Pair.Balance
}.

Record GetTokenBalancesResult : Type := {
  token0 : BigNumber.t;
  token1 : BigNumber.t
}.

Definition getTokenBalances (rm : RoundingMode)
                            (params : GetTokenBalancesParams)
  : GetTokenBalancesResult :=
  let balancePercentage :=
    dividedBy rm (toBigNumber params.(lpBalance))
              (toBigNumber params.(pair).(Pair.totalSupply)) in
  let token0Balance :=
    dp rm 0 (multipliedBy (toBigNumber params.(pair).(Pair.reserve0))
                          balancePercentage) in
  let token1Balance :=
    dp rm 0 (multipliedBy (toBigNumber params.(pair).(Pair.reserve1))
                          balancePercentage) in
  {| token0 := token0Balance; token1 := token1Balance |}.

End Liquidity.

(** ** The rational value of a decimal *)

Module Semantics.

Import BigNumber.

Definition magnitude (c : N) (e : Z) : Q := (inject_Z (Z.of_N c) * 10 ^ e)%Q.

(** The rational a finite value denotes ([0] for the other values, which the
    statements below exclude by [isFinite]). *)
Definition toQ (x : BigNumber.t) : Q :=
  match x with
  | Finite neg c e => if neg then (- magnitude c e)%Q else magnitude c e
  | _ => 0%Q
  end.

(** Rounding of a non-negative rational to [places] decimal places, nearest
    with ties upwards. *)
Definition nearest (places : Z) (q : Q) : Q :=
  (inject_Z (Qfloor (q * 10 ^ places + (1 # 2))) / 10 ^ places)%Q.

(** [ROUND_HALF_UP] on the rationals: nearest, ties away from zero. *)
Definition Qhalf_up (places : Z) (q : Q) : Q :=
  if Qlt_le_dec q 0 then (- nearest places (- q))%Q else nearest places q.

(** [ROUND_FLOOR] on the rationals: the largest multiple of [10^-places]
    that is not above [q]. *)
Definition Qdown (places : Z) (q : Q) : Q :=
  (inject_Z (Qfloor (q * 10 ^ places)) / 10 ^ places)%Q.

(** Rounding to [places] decimal places in the mode [rm]. *)
Definition Qround (rm : RoundingMode) (places : Z) (q : Q) : Q :=
  match rm with
  | ROUND_HALF_UP => Qhalf_up places q
  | ROUND_FLOOR => Qdown places q
  end.

(** A unit in the last of the twenty places kept by a division. *)
Definition ulp : Q := (1 / 10 ^ 20)%Q.

Definition Qsum (l : list Q) : Q := fold_right Qplus 0%Q l.

(** Finite and at least zero, finite and above zero, and finite with at most
    [p] decimal places. *)
Definition nonnegative (x : BigNumber.t) : bool :=
  isFinite x && isGreaterThanOrEqualTo x zero.

Definition positive (x : BigNumber.t) : bool :=
  isFinite x && isGreaterThan x zero.

Definition fitsPlaces (p : Z) (x : BigNumber.t) : bool :=
  match decimalPlaces x with
  | Some k => (k <=? p)%Z
  | None => false
  end.

(** What [Swap.getAmountOut] computes on the rationals for a rescaled input
    [x], fee [f] and reserves [rIn], [rOut]: the constant-product quotient
    rounded to twenty places, brought to raw units of the output token and
    rounded to an integer. *)
Definition amountOutQ (rm am : RoundingMode) (x f rIn rOut : Q)
                      (decimalsOut : nat) : Q :=
  Qround am 0
    (Qround rm 20 (x * (1 - f) * rOut / (rIn + x * (1 - f)))
     * 10 ^ Z.of_nat decimalsOut)%Q.

(** The holders' total of token0: the sum of the [token0] balances that
    [Liquidity.getTokenBalances] returns for each balance of [lps]. *)
Definition token0Redeemed (rm : RoundingMode) (pair : Pair.Model)
                          (lps : list Pair.Balance) : BigNumber.t :=
  BigNumber.sum
    (map (fun lp =>
            Liquidity.token0
              (Liquidity.getTokenBalances rm
                 {| Liquidity.pair := pair; Liquidity.lpBalance := lp |}))
         lps).

End Semantics.

(** ** Facts about the decimal arithmetic *)

Module BigNumberFacts.

Import BigNumber Semantics.

Local Open Scope Q_scope.

Lemma ten_neq_0 : ~ 10 == 0.
Proof. intro H; discriminate H. Qed.

Lemma pow10_pos (k : Z) : 0 < 10 ^ k.
Proof. apply Qpower_0_lt; reflexivity. Qed.

Lemma pow10_add (a b : Z) : 10 ^ (a + b) == 10 ^ a * 10 ^ b.
Proof. apply Qpower_plus, ten_neq_0. Qed.

Lemma pow10_succ (e : Z) : 10 ^ (e + 1) == 10 * 10 ^ e.
Proof. rewrite pow10_add. change (10 ^ 1) with 10. ring. Qed.

Lemma pow10_opp (a : Z) : 10 ^ (- a) == / 10 ^ a.
Proof. apply Qpower_opp. Qed.

Lemma pow10_inject (k : Z) :
  inject_Z (Z.of_N (pow10 k)) == 10 ^ Z.max 0 k.
Proof.
  unfold pow10. rewrite N2Z.inj_pow.
  rewrite Zpower_Qpower by lia.
  replace (Z.of_N (Z.to_N k)) with (Z.max 0 k) by lia.
  reflexivity.
Qed.

Lemma magnitude_nonneg (c : N) (e : Z) : 0 <= magnitude c e.
Proof.
  unfold magnitude. apply Qmult_le_0_compat.
  - change 0 with (inject_Z 0). rewrite <- Zle_Qle. lia.
  - apply Qlt_le_weak, pow10_pos.
Qed.

Lemma magnitude_0 (e : Z) : magnitude 0 e == 0.
Proof. unfold magnitude. simpl. ring. Qed.

Lemma magnitude_pos (c : N) (e : Z) : c <> 0%N -> 0 < magnitude c e.
Proof.
  intro H. unfold magnitude. apply Qmult_lt_0_compat.
  - change 0 with (inject_Z 0). rewrite <- Zlt_Qlt. lia.
  - apply pow10_pos.
Qed.

Lemma strip_magnitude (fuel : nat) :
  forall c e, magnitude (fst (strip fuel c e)) (snd (strip fuel c e))
              == magnitude c e.
Proof.
  induction fuel as [|fuel IH]; intros c e; simpl; [reflexivity|].
  destruct (N.eqb_spec (c mod 10) 0) as [Hm|Hm]; [|reflexivity].
  rewrite IH. unfold magnitude.
  rewrite pow10_succ.
  assert (Hc : c = (10 * (c / 10))%N).
  { pose proof (N.div_mod c 10). lia. }
  rewrite Hc at 2. rewrite N2Z.inj_mul, inject_Z_mult.
  change (inject_Z (Z.of_N 10)) with 10. ring.
Qed.

Lemma make_spec (neg : bool) (c : N) (e : Z) :
  exists c' e', make neg c e = Finite neg c' e'
                /\ magnitude c' e' == magnitude c e.
Proof.
  unfold make. destruct (N.eqb_spec c 0) as [->|Hc].
  - exists 0%N, 0%Z. split; [reflexivity|]. now rewrite !magnitude_0.
  - pose proof (strip_magnitude (N.size_nat c) c e) as H.
    destruct (strip (N.size_nat c) c e) as [c' e']. simpl in H.
    exists c', e'. split; [reflexivity|exact H].
Qed.

Lemma make_finite (neg : bool) (c : N) (e : Z) :
  isFinite (make neg c e) = true.
Proof. destruct (make_spec neg c e) as (c' & e' & -> & _). reflexivity. Qed.

Lemma toQ_make (neg : bool) (c : N) (e : Z) :
  toQ (make neg c e) == toQ (Finite neg c e).
Proof.
  destruct (make_spec neg c e) as (c' & e' & -> & H). simpl.
  destruct neg; rewrite H; reflexivity.
Qed.

Lemma aligned_toQ (e0 : Z) (neg : bool) (c : N) (e : Z) :
  (e0 <= e)%Z -> inject_Z (aligned e0 neg c e) * 10 ^ e0 == toQ (Finite neg c e).
Proof.
  intro He. unfold aligned, toQ, magnitude.
  assert (H : inject_Z (Z.of_N (c * pow10 (e - e0))) * 10 ^ e0
              == inject_Z (Z.of_N c) * 10 ^ e).
  { rewrite N2Z.inj_mul, inject_Z_mult, pow10_inject.
    replace (Z.max 0 (e - e0)) with (e - e0)%Z by lia.
    replace e with ((e - e0) + e0)%Z at 2 by lia.
    rewrite (pow10_add (e - e0) e0). ring. }
  destruct neg; [rewrite inject_Z_opp|]; rewrite <- H; ring.
Qed.

Lemma toQ_signed (m e : Z) :
  toQ (Finite (m <? 0)%Z (Z.to_N (Z.abs m)) e) == inject_Z m * 10 ^ e.
Proof.
  unfold toQ, magnitude. rewrite Z2N.id by lia.
  destruct (Z.ltb_spec m 0).
  - rewrite Z.abs_neq by lia. rewrite inject_Z_opp. ring.
  - rewrite Z.abs_eq by lia. reflexivity.
Qed.

Lemma toQ_ofZ (z : Z) : toQ (ofZ z) == inject_Z z.
Proof.
  unfold ofZ. rewrite toQ_make, toQ_signed. change (10 ^ 0) with 1. ring.
Qed.

Lemma ofZ_finite (z : Z) : isFinite (ofZ z) = true.
Proof. apply make_finite. Qed.

Lemma toQ_negated (x : BigNumber.t) : toQ (negated x) == - toQ x.
Proof. destruct x as [| |[] c e]; simpl; ring. Qed.

Lemma negated_finite (x : BigNumber.t) : isFinite (negated x) = isFinite x.
Proof. destruct x; reflexivity. Qed.

Lemma plus_finite (x y : BigNumber.t) :
  isFinite x = true -> isFinite y = true -> isFinite (plus x y) = true.
Proof.
  destruct x as [| |a cx ex], y as [| |b cy ey]; try discriminate.
  intros _ _. simpl.
  destruct (_ =? 0)%Z; [reflexivity|apply make_finite].
Qed.

Lemma toQ_plus (x y : BigNumber.t) :
  isFinite x = true -> isFinite y = true ->
  toQ (plus x y) == toQ x + toQ y.
Proof.
  destruct x as [| |a cx ex], y as [| |b cy ey]; try discriminate.
  intros _ _.
  rewrite <- (aligned_toQ (Z.min ex ey) a cx ex) by lia.
  rewrite <- (aligned_toQ (Z.min ex ey) b cy ey) by lia.
  unfold plus.
  set (m := (aligned (Z.min ex ey) a cx ex + aligned (Z.min ex ey) b cy ey)%Z).
  assert (Hm : inject_Z (aligned (Z.min ex ey) a cx ex) * 10 ^ Z.min ex ey
               + inject_Z (aligned (Z.min ex ey) b cy ey) * 10 ^ Z.min ex ey
               == inject_Z m * 10 ^ Z.min ex ey).
  { unfold m. rewrite inject_Z_plus. ring. }
  rewrite Hm. cbv zeta.
  destruct (Z.eqb_spec m 0) as [->|Hne].
  - simpl. destruct (a && b); rewrite magnitude_0; ring.
  - rewrite toQ_make. apply toQ_signed.
Qed.

Lemma minus_finite (x y : BigNumber.t) :
  isFinite x = true -> isFinite y = true -> isFinite (minus x y) = true.
Proof.
  intros Hx Hy. apply plus_finite; [exact Hx|now rewrite negated_finite].
Qed.

Lemma toQ_minus (x y : BigNumber.t) :
  isFinite x = true -> isFinite y = true ->
  toQ (minus x y) == toQ x - toQ y.
Proof.
  intros Hx Hy. unfold minus.
  rewrite toQ_plus, toQ_negated by (now rewrite ?negated_finite). ring.
Qed.

Lemma multipliedBy_finite (x y : BigNumber.t) :
  isFinite x = true -> isFinite y = true ->
  isFinite (multipliedBy x y) = true.
Proof.
  destruct x as [| |a cx ex], y as [| |b cy ey]; try discriminate.
  intros _ _. apply make_finite.
Qed.

Lemma toQ_multipliedBy (x y : BigNumber.t) :
  isFinite x = true -> isFinite y = true ->
  toQ (multipliedBy x y) == toQ x * toQ y.
Proof.
  destruct x as [| |a cx ex], y as [| |b cy ey]; try discriminate.
  intros _ _. unfold multipliedBy. rewrite toQ_make.
  assert (H : magnitude (cx * cy) (ex + ey)
              == magnitude cx ex * magnitude cy ey).
  { unfold magnitude. rewrite N2Z.inj_mul, inject_Z_mult, pow10_add. ring. }
  unfold toQ. destruct a, b; cbn [xorb]; rewrite H; ring.
Qed.

Lemma compare_toQ (x y : BigNumber.t) :
  isFinite x = true -> isFinite y = true ->
  compare x y = Some (toQ x ?= toQ y).
Proof.
  destruct x as [| |a cx ex], y as [| |b cy ey]; try discriminate.
  intros _ _. unfold compare. f_equal.
  pose proof (aligned_toQ (Z.min ex ey) a cx ex ltac:(lia)) as Hx.
  pose proof (aligned_toQ (Z.min ex ey) b cy ey ltac:(lia)) as Hy.
  pose proof (pow10_pos (Z.min ex ey)) as Hp.
  set (u := aligned (Z.min ex ey) a cx ex) in *.
  set (v := aligned (Z.min ex ey) b cy ey) in *.
  symmetry.
  destruct (Z.compare_spec u v) as [H|H|H].
  - apply Qeq_alt. rewrite <- Hx, <- Hy, H. reflexivity.
  - apply Qlt_alt. rewrite <- Hx, <- Hy.
    apply Qmult_lt_compat_r; [exact Hp|]. now rewrite <- Zlt_Qlt.
  - apply Qgt_alt. rewrite <- Hx, <- Hy.
    apply Qmult_lt_compat_r; [exact Hp|]. now rewrite <- Zlt_Qlt.
Qed.

Lemma isLessThan_spec (x y : BigNumber.t) :
  isFinite x = true -> isFinite y = true ->
  (isLessThan x y = true <-> toQ x < toQ y).
Proof.
  intros Hx Hy. unfold isLessThan. rewrite (compare_toQ x y Hx Hy).
  rewrite Qlt_alt. destruct (toQ x ?= toQ y); split; congruence.
Qed.

Lemma isLessThanOrEqualTo_spec (x y : BigNumber.t) :
  isFinite x = true -> isFinite y = true ->
  (isLessThanOrEqualTo x y = true <-> toQ x <= toQ y).
Proof.
  intros Hx Hy. unfold isLessThanOrEqualTo. rewrite (compare_toQ x y Hx Hy).
  rewrite Qle_alt. destruct (toQ x ?= toQ y); split; congruence.
Qed.

Lemma isGreaterThan_spec (x y : BigNumber.t) :
  isFinite x = true -> isFinite y = true ->
  (isGreaterThan x y = true <-> toQ y < toQ x).
Proof.
  intros Hx Hy. unfold isGreaterThan. rewrite (compare_toQ x y Hx Hy).
  rewrite Qgt_alt. destruct (toQ x ?= toQ y); split; congruence.
Qed.

(** *** Rounding on the rationals *)

Lemma Qfloor_add_half (z : Z) : Qfloor (inject_Z z + (1 # 2)) = z.
Proof.
  pose proof (Qfloor_le (inject_Z z + (1 # 2))) as Hle.
  pose proof (Qfloor_resp_le (inject_Z z) (inject_Z z + (1 # 2))) as Hge.
  rewrite Qfloor_Z in Hge.
  assert (Hlt : (Qfloor (inject_Z z + (1 # 2)) < z + 1)%Z).
  { rewrite Zlt_Qlt, inject_Z_plus. change (inject_Z 1) with 1. lra. }
  assert (z <= Qfloor (inject_Z z + (1 # 2)))%Z by (apply Hge; lra).
  lia.
Qed.

Lemma nearest_comp (p : Z) (q q' : Q) :
  q == q' -> nearest p q == nearest p q'.
Proof. intro H. unfold nearest. now rewrite H. Qed.

Lemma nearest_exact (p z : Z) :
  nearest p (inject_Z z / 10 ^ p) == inject_Z z / 10 ^ p.
Proof.
  unfold nearest.
  assert (H : inject_Z z / 10 ^ p * 10 ^ p + (1 # 2) == inject_Z z + (1 # 2)).
  { pose proof (pow10_pos p). field. lra. }
  rewrite H, Qfloor_add_half. reflexivity.
Qed.

Lemma nearest_0 (p : Z) : nearest p 0 == 0.
Proof.
  pose proof (nearest_exact p 0) as H.
  assert (E : inject_Z 0 / 10 ^ p == 0) by (unfold Qdiv; simpl; ring).
  rewrite <- E at 2. rewrite <- H. apply nearest_comp. now rewrite E.
Qed.

Lemma nearest_mono (p : Z) (q q' : Q) :
  q <= q' -> nearest p q <= nearest p q'.
Proof.
  intro H. unfold nearest, Qdiv.
  pose proof (pow10_pos p) as Hp.
  apply Qmult_le_compat_r.
  - rewrite <- Zle_Qle. apply Qfloor_resp_le.
    apply Qplus_le_l. apply Qmult_le_compat_r; lra.
  - apply Qlt_le_weak, Qinv_lt_0_compat, Hp.
Qed.

Lemma nearest_nonneg (p : Z) (q : Q) : 0 <= q -> 0 <= nearest p q.
Proof. intro H. rewrite <- (nearest_0 p). now apply nearest_mono. Qed.

Lemma nearest_upper (p : Z) (q : Q) :
  nearest p q <= q + (1 # 2) / 10 ^ p.
Proof.
  unfold nearest. pose proof (pow10_pos p) as Hp.
  pose proof (Qfloor_le (q * 10 ^ p + (1 # 2))) as H.
  apply Qle_shift_div_r; [exact Hp|].
  assert (E : (q + (1 # 2) / 10 ^ p) * 10 ^ p == q * 10 ^ p + (1 # 2))
    by (field; lra).
  rewrite E. exact H.
Qed.

Lemma nearest_lower (p : Z) (q : Q) :
  q - (1 # 2) / 10 ^ p < nearest p q.
Proof.
  unfold nearest. pose proof (pow10_pos p) as Hp.
  pose proof (Qlt_floor (q * 10 ^ p + (1 # 2))) as H.
  rewrite inject_Z_plus in H. change (inject_Z 1) with 1 in H.
  apply Qlt_shift_div_l; [exact Hp|].
  assert (E : (q - (1 # 2) / 10 ^ p) * 10 ^ p == q * 10 ^ p - (1 # 2))
    by (field; lra).
  rewrite E. lra.
Qed.

Lemma Qhalf_up_nonneg (p : Z) (q : Q) :
  0 <= q -> Qhalf_up p q == nearest p q.
Proof.
  intro H. unfold Qhalf_up. destruct (Qlt_le_dec q 0); [lra|reflexivity].
Qed.

Lemma Qhalf_up_neg (p : Z) (q : Q) :
  q <= 0 -> Qhalf_up p q == - nearest p (- q).
Proof.
  intro H. unfold Qhalf_up. destruct (Qlt_le_dec q 0); [reflexivity|].
  assert (E : q == 0) by lra.
  rewrite (nearest_comp p q 0 E), (nearest_comp p (- q) 0) by lra.
  rewrite nearest_0. ring.
Qed.

Lemma Qhalf_up_comp (p : Z) (q q' : Q) :
  q == q' -> Qhalf_up p q == Qhalf_up p q'.
Proof.
  intro H. destruct (Qlt_le_dec q 0).
  - rewrite !Qhalf_up_neg by lra. apply Qopp_comp, nearest_comp. lra.
  - rewrite !Qhalf_up_nonneg by lra. now apply nearest_comp.
Qed.

Lemma Qhalf_up_mono (p : Z) (q q' : Q) :
  q <= q' -> Qhalf_up p q <= Qhalf_up p q'.
Proof.
  intro H. destruct (Qlt_le_dec q 0), (Qlt_le_dec q' 0).
  - rewrite !Qhalf_up_neg by lra.
    apply Qopp_le_compat, nearest_mono. lra.
  - rewrite (Qhalf_up_neg p q), (Qhalf_up_nonneg p q') by lra.
    pose proof (nearest_nonneg p (- q)). pose proof (nearest_nonneg p q').
    lra.
  - lra.
  - rewrite !Qhalf_up_nonneg by lra. now apply nearest_mono.
Qed.

Lemma Qdiv_nonneg (a b : Q) : 0 <= a -> 0 < b -> 0 <= a / b.
Proof. intros Ha Hb. apply Qle_shift_div_l; lra. Qed.

Lemma pow10_ratio (k : Z) : 10 ^ Z.max 0 k / 10 ^ Z.max 0 (- k) == 10 ^ k.
Proof.
  destruct (Z.le_ge_cases 0 k) as [H|H].
  - rewrite Z.max_r, Z.max_l by lia. change (10 ^ 0) with 1. field.
  - rewrite Z.max_l, Z.max_r by lia. rewrite pow10_opp.
    change (10 ^ 0) with 1. pose proof (pow10_pos k). field. lra.
Qed.

Lemma inject_N_pos (n : N) : n <> 0%N -> 0 < inject_Z (Z.of_N n).
Proof. intro H. change 0 with (inject_Z 0). rewrite <- Zlt_Qlt. lia. Qed.

Lemma pow10_neq_0 (k : Z) : pow10 k <> 0%N.
Proof. unfold pow10. apply N.pow_nonzero. discriminate. Qed.

Lemma Zdiv_opp_ceil (c d : Z) :
  (0 <= c)%Z -> (0 < d)%Z -> (- c / d = - ((c + d - 1) / d))%Z.
Proof.
  intros Hc Hd. symmetry.
  pose proof (Z.div_mod (c + d - 1) d ltac:(lia)) as E.
  pose proof (Z.mod_pos_bound (c + d - 1) d Hd) as B.
  apply (Z.div_unique _ _ _ (d * ((c + d - 1) / d) - c)); lia.
Qed.

Lemma Qfloor_lt_iff (y : Q) (n : Z) : (Qfloor y < n)%Z <-> y < inject_Z n.
Proof.
  split; intro H.
  - pose proof (Qlt_floor y) as Hy.
    assert (Hn : inject_Z (Qfloor y + 1) <= inject_Z n)
      by (rewrite <- Zle_Qle; lia).
    lra.
  - pose proof (Qfloor_le y) as Hy. rewrite Zlt_Qlt. lra.
Qed.

Lemma Qhalf_up_0 (p : Z) : Qhalf_up p 0 == 0.
Proof. rewrite Qhalf_up_nonneg by lra. apply nearest_0. Qed.

Lemma Qhalf_up_exact (p z : Z) :
  Qhalf_up p (inject_Z z / 10 ^ p) == inject_Z z / 10 ^ p.
Proof.
  pose proof (pow10_pos p) as Hp.
  destruct (Z.le_gt_cases 0 z) as [Hz|Hz].
  - rewrite Qhalf_up_nonneg; [apply nearest_exact|].
    apply Qdiv_nonneg; [|exact Hp].
    change 0 with (inject_Z 0). now rewrite <- Zle_Qle.
  - assert (Hn : inject_Z z < 0)
      by (change 0 with (inject_Z 0); now rewrite <- Zlt_Qlt).
    assert (Hq : inject_Z z / 10 ^ p <= 0).
    { apply Qle_shift_div_r; [exact Hp|]. lra. }
    rewrite Qhalf_up_neg by exact Hq.
    assert (E : - (inject_Z z / 10 ^ p) == inject_Z (- z) / 10 ^ p)
      by (rewrite inject_Z_opp; field; lra).
    rewrite (nearest_comp p _ _ E), nearest_exact, inject_Z_opp.
    field. lra.
Qed.

Lemma Qhalf_up_upper (p : Z) (q : Q) :
  Qhalf_up p q <= q + (1 # 2) / 10 ^ p.
Proof.
  destruct (Qlt_le_dec q 0) as [H|H].
  - rewrite Qhalf_up_neg by lra.
    pose proof (nearest_lower p (- q)). lra.
  - rewrite Qhalf_up_nonneg by exact H. apply nearest_upper.
Qed.

Lemma Qhalf_up_lower (p : Z) (q : Q) :
  q - (1 # 2) / 10 ^ p <= Qhalf_up p q.
Proof.
  destruct (Qlt_le_dec q 0) as [H|H].
  - rewrite Qhalf_up_neg by lra.
    pose proof (nearest_upper p (- q)). lra.
  - rewrite Qhalf_up_nonneg by exact H.
    pose proof (nearest_lower p q). lra.
Qed.

(** *** Rounding down, and rounding in either mode *)

Lemma Qdown_comp (p : Z) (q q' : Q) :
  q == q' -> Qdown p q == Qdown p q'.
Proof. intro H. unfold Qdown. now rewrite H. Qed.

Lemma Qdown_exact (p z : Z) :
  Qdown p (inject_Z z / 10 ^ p) == inject_Z z / 10 ^ p.
Proof.
  unfold Qdown.
  assert (H : inject_Z z / 10 ^ p * 10 ^ p == inject_Z z)
    by (pose proof (pow10_pos p); field; lra).
  rewrite H, Qfloor_Z. reflexivity.
Qed.

Lemma Qdown_mono (p : Z) (q q' : Q) :
  q <= q' -> Qdown p q <= Qdown p q'.
Proof.
  intro H. unfold Qdown, Qdiv.
  pose proof (pow10_pos p) as Hp.
  apply Qmult_le_compat_r.
  - rewrite <- Zle_Qle. apply Qfloor_resp_le.
    apply Qmult_le_compat_r; lra.
  - apply Qlt_le_weak, Qinv_lt_0_compat, Hp.
Qed.

(** Rounding down never ends above the value, and less than one unit of
    the last place under it. *)
Lemma Qdown_le (p : Z) (q : Q) : Qdown p q <= q.
Proof.
  unfold Qdown. apply Qle_shift_div_r; [apply pow10_pos|]. apply Qfloor_le.
Qed.

Lemma Qdown_gt (p : Z) (q : Q) : q - 1 / 10 ^ p < Qdown p q.
Proof.
  unfold Qdown. pose proof (pow10_pos p) as Hp.
  pose proof (Qlt_floor (q * 10 ^ p)) as H.
  rewrite inject_Z_plus in H. change (inject_Z 1) with 1 in H.
  apply Qlt_shift_div_l; [exact Hp|].
  assert (E : (q - 1 / 10 ^ p) * 10 ^ p == q * 10 ^ p - 1) by (field; lra).
  rewrite E. lra.
Qed.

Lemma Qround_comp (rm : RoundingMode) (p : Z) (q q' : Q) :
  q == q' -> Qround rm p q == Qround rm p q'.
Proof.
  intro H. destruct rm; [now apply Qdown_comp|now apply Qhalf_up_comp].
Qed.

#[global] Instance Qround_Proper : Proper (eq ==> eq ==> Qeq ==> Qeq) Qround.
Proof. intros rm rm' <- p p' <- q q' H. now apply Qround_comp. Qed.

Lemma Qround_mono (rm : RoundingMode) (p : Z) (q q' : Q) :
  q <= q' -> Qround rm p q <= Qround rm p q'.
Proof.
  intro H. destruct rm; [now apply Qdown_mono|now apply Qhalf_up_mono].
Qed.

(** A multiple of the last place is left as it is. *)
Lemma Qround_exact (rm : RoundingMode) (p z : Z) :
  Qround rm p (inject_Z z / 10 ^ p) == inject_Z z / 10 ^ p.
Proof. destruct rm; [apply Qdown_exact|apply Qhalf_up_exact]. Qed.

Lemma Qround_0 (rm : RoundingMode) (p : Z) : Qround rm p 0 == 0.
Proof.
  assert (E : 0 == inject_Z 0 / 10 ^ p) by (unfold Qdiv; simpl; ring).
  rewrite E at 2. rewrite <- (Qround_exact rm p 0).
  now apply Qround_comp.
Qed.

Lemma Qround_nonneg_le (rm : RoundingMode) (p : Z) (q : Q) :
  0 <= q -> 0 <= Qround rm p q.
Proof. intro H. rewrite <- (Qround_0 rm p). now apply Qround_mono. Qed.

(** In either mode the rounded value lies less than one unit of the last
    place under the value and at most half a unit above it. *)
Lemma Qround_upper (rm : RoundingMode) (p : Z) (q : Q) :
  Qround rm p q <= q + (1 # 2) / 10 ^ p.
Proof.
  destruct rm; [|apply Qhalf_up_upper].
  pose proof (Qdown_le p q) as H. pose proof (pow10_pos p) as Hp.
  assert (0 < (1 # 2) / 10 ^ p) by (apply Qlt_shift_div_l; lra).
  cbn [Qround]. lra.
Qed.

Lemma Qround_lower (rm : RoundingMode) (p : Z) (q : Q) :
  q - 1 / 10 ^ p < Qround rm p q.
Proof.
  destruct rm; [apply Qdown_gt|].
  pose proof (Qhalf_up_lower p q) as H. pose proof (pow10_pos p) as Hp.
  assert (E : 1 / 10 ^ p == (1 # 2) / 10 ^ p + (1 # 2) / 10 ^ p)
    by (field; lra).
  assert (0 < (1 # 2) / 10 ^ p) by (apply Qlt_shift_div_l; lra).
  cbn [Qround]. lra.
Qed.

(** *** Quotients and [dp] *)

Lemma magnitude_round (neg : bool) (n d : N) (p : Z) :
  d <> 0%N ->
  magnitude (roundMagnitude ROUND_HALF_UP neg n d) (- p)
  == nearest p (inject_Z (Z.of_N n) / inject_Z (Z.of_N d) / 10 ^ p).
Proof.
  intro Hd. pose proof (inject_N_pos d Hd) as Hd'.
  pose proof (pow10_pos p) as Hp.
  unfold magnitude, nearest, roundMagnitude.
  rewrite N2Z.inj_div, Zdiv_Qdiv.
  rewrite pow10_opp.
  assert (E : inject_Z (Z.of_N (2 * n + d)) / inject_Z (Z.of_N (2 * d))
              == inject_Z (Z.of_N n) / inject_Z (Z.of_N d) / 10 ^ p * 10 ^ p
                 + (1 # 2)).
  { rewrite N2Z.inj_add, !N2Z.inj_mul, inject_Z_plus, !inject_Z_mult.
    change (inject_Z (Z.of_N 2)) with 2. field. lra. }
  rewrite E. reflexivity.
Qed.

Lemma Qhalf_up_signed (p : Z) (s : bool) (m : Q) :
  0 <= m ->
  (if s then - nearest p m else nearest p m)
  == Qhalf_up p (if s then - m else m).
Proof.
  intro H. destruct s.
  - rewrite Qhalf_up_neg by lra. apply Qopp_comp, nearest_comp. ring.
  - now rewrite Qhalf_up_nonneg.
Qed.

Lemma magnitude_round_floor (neg : bool) (n d : N) (p : Z) :
  d <> 0%N ->
  toQ (Finite neg (roundMagnitude ROUND_FLOOR neg n d) (- p))
  == Qdown p (if neg
              then - (inject_Z (Z.of_N n) / inject_Z (Z.of_N d) / 10 ^ p)
              else inject_Z (Z.of_N n) / inject_Z (Z.of_N d) / 10 ^ p).
Proof.
  intro Hd. pose proof (inject_N_pos d Hd) as Hd'.
  pose proof (pow10_pos p) as Hp.
  destruct neg; unfold toQ, magnitude, Qdown, roundMagnitude;
    rewrite pow10_opp.
  - assert (E : - (inject_Z (Z.of_N n) / inject_Z (Z.of_N d) / 10 ^ p)
                * 10 ^ p
                == inject_Z (- Z.of_N n) / inject_Z (Z.of_N d)).
    { rewrite inject_Z_opp. field. lra. }
    rewrite E, <- Zdiv_Qdiv.
    rewrite Zdiv_opp_ceil by lia.
    rewrite N2Z.inj_div, N2Z.inj_sub, N2Z.inj_add by lia.
    change (Z.of_N 1) with 1%Z. rewrite inject_Z_opp. field. lra.
  - assert (E : inject_Z (Z.of_N n) / inject_Z (Z.of_N d) / 10 ^ p * 10 ^ p
                == inject_Z (Z.of_N n) / inject_Z (Z.of_N d)).
    { field. lra. }
    rewrite E, <- Zdiv_Qdiv, N2Z.inj_div. field. lra.
Qed.

(** The magnitude that [div] and [round] compute denotes the rounding of
    the signed quotient in the mode asked for. *)
Lemma toQ_rounded (rm : RoundingMode) (neg : bool) (n d : N) (p : Z) :
  d <> 0%N ->
  toQ (Finite neg (roundMagnitude rm neg n d) (- p))
  == Qround rm p
       (if neg
        then - (inject_Z (Z.of_N n) / inject_Z (Z.of_N d) / 10 ^ p)
        else inject_Z (Z.of_N n) / inject_Z (Z.of_N d) / 10 ^ p).
Proof.
  intro Hd. destruct rm; [now apply magnitude_round_floor|].
  cbn [Qround].
  assert (Hm : 0 <= inject_Z (Z.of_N n) / inject_Z (Z.of_N d) / 10 ^ p).
  { apply Qdiv_nonneg; [|apply pow10_pos].
    apply Qdiv_nonneg; [|now apply inject_N_pos].
    change 0 with (inject_Z 0). rewrite <- Zle_Qle. lia. }
  rewrite <- (Qhalf_up_signed p neg _ Hm).
  unfold toQ. destruct neg; now rewrite magnitude_round.
Qed.

Lemma div_finite (x y : BigNumber.t) (p : Z) (rm : RoundingMode) :
  isFinite x = true -> isFinite y = true -> isZero y = false ->
  isFinite (div x y p rm) = true.
Proof.
  destruct x as [| |a cx ex], y as [| |b cy ey]; try discriminate.
  simpl. intros _ _ ->. apply make_finite.
Qed.

Lemma toQ_div (rm : RoundingMode) (x y : BigNumber.t) (p : Z) :
  isFinite x = true -> isFinite y = true -> isZero y = false ->
  toQ (div x y p rm) == Qround rm p (toQ x / toQ y).
Proof.
  destruct x as [| |a cx ex], y as [| |b cy ey]; try discriminate.
  simpl isZero. intros _ _ Hy. unfold div. rewrite Hy.
  apply N.eqb_neq in Hy.
  rewrite toQ_make. cbv zeta.
  pose proof (magnitude_nonneg cx ex) as Hmx.
  pose proof (magnitude_pos cy ey Hy) as Hmy.
  set (k := (ex - ey + p)%Z).
  assert (Hd : (cy * pow10 (- k))%N <> 0%N).
  { pose proof (pow10_neq_0 (- k)). lia. }
  assert (E : inject_Z (Z.of_N (cx * pow10 k))
              / inject_Z (Z.of_N (cy * pow10 (- k))) / 10 ^ p
              == magnitude cx ex / magnitude cy ey).
  { unfold magnitude. rewrite !N2Z.inj_mul, !inject_Z_mult, !pow10_inject.
    pose proof (pow10_ratio k) as Hr.
    pose proof (pow10_pos (Z.max 0 (- k))) as H1.
    pose proof (pow10_pos p) as H2. pose proof (pow10_pos ey) as H3.
    pose proof (inject_N_pos cy Hy) as H4.
    assert (Hk : 10 ^ k == 10 ^ ex * / 10 ^ ey * 10 ^ p).
    { unfold k. replace (ex - ey + p)%Z with (ex + (- ey) + p)%Z by lia.
      now rewrite !pow10_add, pow10_opp. }
    rewrite Hk in Hr.
    assert (Hr' : 10 ^ Z.max 0 k
                  == 10 ^ ex * / 10 ^ ey * 10 ^ p * 10 ^ Z.max 0 (- k)).
    { rewrite <- Hr. field. lra. }
    rewrite Hr'. field. repeat split; lra. }
  rewrite (toQ_rounded rm _ _ _ p Hd).
  apply Qround_comp. unfold toQ.
  destruct a, b; cbn [xorb]; rewrite E; field; lra.
Qed.

Lemma dividedBy_finite (rm : RoundingMode) (x y : BigNumber.t) :
  isFinite x = true -> isFinite y = true -> isZero y = false ->
  isFinite (dividedBy rm x y) = true.
Proof. apply div_finite. Qed.

Lemma toQ_dividedBy (rm : RoundingMode) (x y : BigNumber.t) :
  isFinite x = true -> isFinite y = true -> isZero y = false ->
  toQ (dividedBy rm x y) == Qround rm 20 (toQ x / toQ y).
Proof. apply toQ_div. Qed.

Lemma round_finite (p : Z) (m : RoundingMode) (x : BigNumber.t) :
  isFinite x = true -> isFinite (round x p m) = true.
Proof.
  destruct x as [| |a c e]; try discriminate. intros _.
  unfold round. destruct (_ <=? _)%Z; [reflexivity|apply make_finite].
Qed.

Lemma toQ_round (m : RoundingMode) (p : Z) (x : BigNumber.t) :
  isFinite x = true -> toQ (round x p m) == Qround m p (toQ x).
Proof.
  destruct x as [| |a c e]; try discriminate. intros _.
  pose proof (pow10_pos p) as Hp.
  unfold round.
  destruct (Z.leb_spec (- p) e) as [He|He].
  - assert (E : toQ (Finite a c e)
                == inject_Z (if a then - Z.of_N (c * pow10 (e + p))
                             else Z.of_N (c * pow10 (e + p))) / 10 ^ p).
    { unfold toQ, magnitude.
      destruct a; rewrite ?inject_Z_opp, N2Z.inj_mul, inject_Z_mult,
                    pow10_inject, Z.max_r, pow10_add by lia; field; lra. }
    rewrite (Qround_comp m p _ _ E), Qround_exact. exact E.
  - rewrite toQ_make.
    rewrite (toQ_rounded m a c _ p (pow10_neq_0 _)).
    apply Qround_comp.
    assert (E : inject_Z (Z.of_N c) / inject_Z (Z.of_N (pow10 (- p - e)))
                / 10 ^ p == magnitude c e).
    { unfold magnitude. rewrite pow10_inject. rewrite Z.max_r by lia.
      replace (- p - e)%Z with (- p + - e)%Z by lia.
      rewrite pow10_add, !pow10_opp.
      pose proof (pow10_pos e). field. lra. }
    unfold toQ. destruct a; now rewrite E.
Qed.

Lemma dp_finite (rm : RoundingMode) (p : Z) (x : BigNumber.t) :
  isFinite x = true -> isFinite (dp rm p x) = true.
Proof. apply round_finite. Qed.

Lemma toQ_dp (rm : RoundingMode) (p : Z) (x : BigNumber.t) :
  isFinite x = true -> toQ (dp rm p x) == Qround rm p (toQ x).
Proof. apply toQ_round. Qed.

(** *** Tests, sums and the helpers of the package root *)

Lemma toQ_zero : toQ zero == 0.
Proof. reflexivity. Qed.

Lemma toQ_one : toQ one == 1.
Proof. reflexivity. Qed.

Lemma isZero_toQ (x : BigNumber.t) :
  isFinite x = true -> (isZero x = true <-> toQ x == 0).
Proof.
  destruct x as [| |a c e]; try discriminate. intros _. simpl isZero.
  destruct (N.eqb_spec c 0) as [->|Hc].
  - split; [intros _|reflexivity]. simpl. destruct a; rewrite magnitude_0; ring.
  - pose proof (magnitude_pos c e Hc). split; [discriminate|].
    unfold toQ. destruct a; intro; lra.
Qed.

Lemma isZero_false_toQ (x : BigNumber.t) :
  isFinite x = true -> ~ toQ x == 0 -> isZero x = false.
Proof.
  intros Hx Hne. destruct (isZero x) eqn:E; [|reflexivity].
  apply (isZero_toQ x Hx) in E. contradiction.
Qed.

Lemma nonnegative_spec (x : BigNumber.t) :
  nonnegative x = true <-> isFinite x = true /\ 0 <= toQ x.
Proof.
  unfold nonnegative, isGreaterThanOrEqualTo. rewrite andb_true_iff.
  split; intros [Hx H]; (split; [exact Hx|]);
    rewrite (compare_toQ x zero Hx eq_refl), toQ_zero in *;
    destruct (Qcompare_spec (toQ x) 0);
    try discriminate; try reflexivity; lra.
Qed.

Lemma positive_spec (x : BigNumber.t) :
  positive x = true <-> isFinite x = true /\ 0 < toQ x.
Proof.
  unfold positive. rewrite andb_true_iff.
  split; intros [Hx H]; (split; [exact Hx|]).
  - now apply (isGreaterThan_spec x zero Hx eq_refl) in H.
  - now apply (isGreaterThan_spec x zero Hx eq_refl).
Qed.

Lemma sum_acc_finite (l : list BigNumber.t) :
  forall acc, isFinite acc = true ->
              Forall (fun x => isFinite x = true) l ->
              isFinite (fold_left plus l acc) = true.
Proof.
  induction l as [|x l IH]; intros acc Hacc Hl; simpl; [exact Hacc|].
  inversion Hl; subst. apply IH; [now apply plus_finite|assumption].
Qed.

Lemma toQ_sum_acc (l : list BigNumber.t) :
  forall acc, isFinite acc = true ->
              Forall (fun x => isFinite x = true) l ->
              toQ (fold_left plus l acc) == toQ acc + Qsum (map toQ l).
Proof.
  induction l as [|x l IH]; intros acc Hacc Hl; simpl; [ring|].
  inversion Hl; subst.
  rewrite IH by (try apply plus_finite; assumption).
  rewrite toQ_plus by assumption. ring.
Qed.

Lemma sum_finite (l : list BigNumber.t) :
  Forall (fun x => isFinite x = true) l -> isFinite (sum l) = true.
Proof. intro H. now apply sum_acc_finite. Qed.

Lemma toQ_sum (l : list BigNumber.t) :
  Forall (fun x => isFinite x = true) l -> toQ (sum l) == Qsum (map toQ l).
Proof.
  intro H. unfold sum. rewrite toQ_sum_acc by (try reflexivity; exact H).
  rewrite toQ_zero. ring.
Qed.

Lemma exponential_finite (d : nat) : isFinite (Utils.exponential d) = true.
Proof. reflexivity. Qed.

Lemma toQ_exponential (d : nat) :
  toQ (Utils.exponential d) == 10 ^ Z.of_nat d.
Proof.
  unfold Utils.exponential, toQ, magnitude.
  change (inject_Z (Z.of_N 1)) with 1. ring.
Qed.

Lemma removeDecimals_finite (amount : Types.Amount) (d : nat) :
  isFinite (Utils.toBigNumber amount) = true ->
  isFinite (Utils.removeDecimals amount d) = true.
Proof.
  unfold Utils.removeDecimals.
  destruct (Utils.toBigNumber amount); try discriminate.
  intros _. apply make_finite.
Qed.

Lemma toQ_removeDecimals (amount : Types.Amount) (d : nat) :
  isFinite (Utils.toBigNumber amount) = true ->
  toQ (Utils.removeDecimals amount d)
  == toQ (Utils.toBigNumber amount) / 10 ^ Z.of_nat d.
Proof.
  unfold Utils.removeDecimals.
  destruct (Utils.toBigNumber amount) as [| |a c e]; try discriminate.
  intros _. rewrite toQ_make.
  assert (H : magnitude c (e - Z.of_nat d)
              == magnitude c e / 10 ^ Z.of_nat d).
  { unfold magnitude. replace (e - Z.of_nat d)%Z with (e + - Z.of_nat d)%Z by lia.
    rewrite pow10_add, pow10_opp. pose proof (pow10_pos (Z.of_nat d)).
    field. lra. }
  unfold toQ. destruct a; rewrite H; [|reflexivity].
  pose proof (pow10_pos (Z.of_nat d)). field. lra.
Qed.

Lemma applyDecimals_finite (rm : RoundingMode) (x : BigNumber.t) (d : nat) :
  isFinite x = true -> isFinite (Utils.applyDecimals rm x d) = true.
Proof.
  intro H. unfold Utils.applyDecimals.
  apply dp_finite, multipliedBy_finite; [exact H|reflexivity].
Qed.

Lemma toQ_applyDecimals (rm : RoundingMode) (x : BigNumber.t) (d : nat) :
  isFinite x = true ->
  toQ (Utils.applyDecimals rm x d)
  == Qround rm 0 (toQ x * 10 ^ Z.of_nat d).
Proof.
  intro H. unfold Utils.applyDecimals.
  rewrite toQ_dp by (apply multipliedBy_finite; [exact H|reflexivity]).
  apply Qround_comp.
  rewrite toQ_multipliedBy by (try reflexivity; exact H).
  now rewrite toQ_exponential.
Qed.

(** A value with at most [p] decimal places is left as it is. *)
Lemma Qround_fits (rm : RoundingMode) (p : Z) (x : BigNumber.t) :
  fitsPlaces p x = true -> Qround rm p (toQ x) == toQ x.
Proof.
  unfold fitsPlaces, decimalPlaces.
  destruct x as [| |a c e]; try discriminate.
  pose proof (toQ_make a c e) as Hv.
  pose proof (toQ_dp rm p (make a c e) (make_finite a c e)) as Hd.
  destruct (make a c e) as [| |a' c' e']; try discriminate.
  intro Hk. apply Z.leb_le in Hk.
  unfold dp, round in Hd.
  destruct (Z.leb_spec (- p) e') as [_|Hlt]; [|lia].
  rewrite <- Hv at 2. rewrite Hd. now apply Qround_comp.
Qed.

Lemma Qround_1 (rm : RoundingMode) : Qround rm 20 1 == 1.
Proof. exact (Qround_fits rm 20 one eq_refl). Qed.

(** A quotient that rounds below 1 is below 1 in either mode; rounded down,
    every quotient below 1 stays below 1. *)
Lemma Qround_lt_1 (rm : RoundingMode) (q : Q) :
  Qround rm 20 q < 1 -> q < 1.
Proof.
  intro H. destruct (Qlt_le_dec q 1) as [Hq|Hq]; [exact Hq|].
  apply (Qround_mono rm 20) in Hq. rewrite Qround_1 in Hq. lra.
Qed.

Lemma Qround_le_1 (rm : RoundingMode) (q : Q) :
  q <= 1 -> Qround rm 20 q <= 1.
Proof.
  intro H. apply (Qround_mono rm 20) in H. now rewrite Qround_1 in H.
Qed.

Lemma Qdown_lt_1 (q : Q) : q < 1 -> Qdown 20 q < 1.
Proof.
  intro H. unfold Qdown. pose proof (pow10_pos 20) as Hp.
  assert (HT : 10 ^ 20 == inject_Z (10 ^ 20)).
  { rewrite Zpower_Qpower by lia. reflexivity. }
  apply Qlt_shift_div_r; [exact Hp|].
  assert (H' : q * 10 ^ 20 < inject_Z (10 ^ 20)).
  { rewrite <- HT. nra. }
  apply Qfloor_lt_iff in H'. rewrite Zlt_Qlt in H'.
  apply (Qlt_le_trans _ _ _ H'). rewrite <- HT. lra.
Qed.

#[global] Instance amountOutQ_Proper :
  Proper (eq ==> eq ==> Qeq ==> Qeq ==> Qeq ==> Qeq ==> eq ==> Qeq)
    amountOutQ.
Proof.
  intros rm rm' <- am am' <- x x' Hx f f' Hf a a' Ha b b' Hb d d' <-.
  unfold amountOutQ. now rewrite Hx, Hf, Ha, Hb.
Qed.

Lemma amountOutQ_0 (rm am : RoundingMode) (x f rIn rOut : Q) (d : nat) :
  x == 0 -> amountOutQ rm am x f rIn rOut d == 0.
Proof.
  intro Hx. unfold amountOutQ.
  assert (E : x * (1 - f) * rOut / (rIn + x * (1 - f)) == 0).
  { rewrite Hx. unfold Qdiv. ring. }
  rewrite E, Qround_0.
  assert (E' : 0 * 10 ^ Z.of_nat d == 0) by ring.
  rewrite E'. apply Qround_0.
Qed.

(** The constant-product quotient [w * rOut / (rIn + w)] for fixed positive
    reserves: it grows with the input and stays below the output reserve. *)
Section ConstantProduct.

Variables rIn rOut : Q.
Hypothesis rIn_pos : 0 < rIn.
Hypothesis rOut_pos : 0 < rOut.

Lemma quotient_mono (w w' : Q) :
  0 <= w -> w <= w' ->
  w * rOut / (rIn + w) <= w' * rOut / (rIn + w').
Proof.
  intros Hw Hle.
  apply Qle_shift_div_l; [lra|].
  assert (E : w * rOut / (rIn + w) * (rIn + w')
              == w * rOut * (rIn + w') / (rIn + w)) by (field; lra).
  rewrite E. apply Qle_shift_div_r; [lra|].
  assert (H : 0 <= (w' - w) * (rOut * rIn))
    by (apply Qmult_le_0_compat; [lra|apply Qmult_le_0_compat; lra]).
  nra.
Qed.

Lemma quotient_below_reserve (w : Q) :
  0 <= w -> w * rOut / (rIn + w) <= rOut.
Proof.
  intros Hw. apply Qle_shift_div_r; [lra|]. nra.
Qed.

Lemma amountOutQ_mono (rm am : RoundingMode) (x x' f : Q) (d : nat) :
  0 <= x -> x <= x' -> 0 <= f -> f < 1 ->
  amountOutQ rm am x f rIn rOut d <= amountOutQ rm am x' f rIn rOut d.
Proof.
  intros Hx Hle Hf Hf1. unfold amountOutQ.
  apply Qround_mono.
  apply Qmult_le_compat_r; [|apply Qlt_le_weak, pow10_pos].
  apply Qround_mono.
  apply quotient_mono; nra.
Qed.

End ConstantProduct.

Lemma ulp_pos : 0 < ulp.
Proof. unfold ulp. apply Qlt_shift_div_l; [apply pow10_pos|lra]. Qed.

Lemma positive_not_degenerate (x : BigNumber.t) :
  positive x = true -> isZero x = false /\ isNaN x = false.
Proof.
  intro H. apply positive_spec in H as [Hf H0]. split.
  - apply isZero_false_toQ; [exact Hf|lra].
  - destruct x; try discriminate; reflexivity.
Qed.

End BigNumberFacts.
(** ** Further facts about the decimal arithmetic: integers, floors, minima
    and the values that are not numbers *)

Module RoundingFacts.

Import BigNumber Semantics BigNumberFacts.

Local Open Scope Q_scope.

Lemma isEqualTo_spec (x y : BigNumber.t) :
  isFinite x = true -> isFinite y = true ->
  (isEqualTo x y = true <-> toQ x == toQ y).
Proof.
  intros Hx Hy. unfold isEqualTo. rewrite (compare_toQ x y Hx Hy).
  rewrite Qeq_alt. destruct (toQ x ?= toQ y); split; congruence.
Qed.

Lemma isGreaterThanOrEqualTo_spec (x y : BigNumber.t) :
  isFinite x = true -> isFinite y = true ->
  (isGreaterThanOrEqualTo x y = true <-> toQ y <= toQ x).
Proof.
  intros Hx Hy. unfold isGreaterThanOrEqualTo.
  rewrite (compare_toQ x y Hx Hy).
  destruct (Qcompare_spec (toQ x) (toQ y)); split; intro;
    try discriminate; try reflexivity; lra.
Qed.

(** *** Exponents after normalisation *)

Lemma strip_exponent (fuel : nat) :
  forall c e, (e <= snd (strip fuel c e))%Z.
Proof.
  induction fuel as [|fuel IH]; intros c e; simpl; [lia|].
  destruct (c mod 10 =? 0)%N; [|simpl; lia].
  specialize (IH (c / 10)%N (e + 1)%Z). lia.
Qed.

Lemma make_exponent (neg : bool) (c : N) (e : Z) :
  (0 <= e)%Z ->
  exists c' e', make neg c e = Finite neg c' e' /\ (0 <= e')%Z.
Proof.
  intro He. unfold make. destruct (c =? 0)%N.
  - exists 0%N, 0%Z. split; [reflexivity|lia].
  - pose proof (strip_exponent (N.size_nat c) c e) as H.
    destruct (strip (N.size_nat c) c e) as [c' e']. simpl in H.
    exists c', e'. split; [reflexivity|lia].
Qed.

Lemma decimalPlaces_whole (neg : bool) (c : N) (e : Z) :
  (0 <= e)%Z -> decimalPlaces (Finite neg c e) = Some 0%Z.
Proof.
  intro He. unfold decimalPlaces.
  destruct (make_exponent neg c e He) as (c' & e' & -> & He').
  f_equal. lia.
Qed.

(** [dp(0)] always yields a whole number. *)
Lemma decimalPlaces_dp0 (rm : RoundingMode) (x : BigNumber.t) :
  isFinite x = true -> decimalPlaces (dp rm 0 x) = Some 0%Z.
Proof.
  destruct x as [| |a c e]; try discriminate. intros _.
  unfold dp, round. change (- 0)%Z with 0%Z.
  destruct (Z.leb_spec 0 e) as [He|He].
  - now apply decimalPlaces_whole.
  - destruct (make_exponent a
                (roundMagnitude rm a c (pow10 (0 - e))) 0
                ltac:(lia)) as (c' & e' & -> & He').
    now apply decimalPlaces_whole.
Qed.

(** *** [ROUND_FLOOR] and [toNumber] *)

Lemma toQ_whole (neg : bool) (c : N) (e : Z) :
  (0 <= e)%Z -> toQ (Finite neg c e) == inject_Z (aligned 0 neg c e).
Proof.
  intro He. rewrite <- (aligned_toQ 0 neg c e He).
  change (10 ^ 0) with 1. ring.
Qed.

Lemma pow10_inject_neg (e : Z) :
  (e < 0)%Z -> 10 ^ e == / inject_Z (Z.of_N (pow10 (0 - e))).
Proof.
  intro He. rewrite pow10_inject. rewrite Z.max_r by lia.
  replace (0 - e)%Z with (- e)%Z by lia.
  rewrite pow10_opp. pose proof (pow10_pos e). field. lra.
Qed.

Lemma toQ_dpWith_floor (x : BigNumber.t) :
  isFinite x = true ->
  toQ (dpWith 0 ROUND_FLOOR x) == inject_Z (Qfloor (toQ x)).
Proof.
  destruct x as [| |a c e]; try discriminate. intros _.
  unfold dpWith, round. change (- 0)%Z with 0%Z.
  destruct (Z.leb_spec 0 e) as [He|He].
  - rewrite (toQ_whole a c e He) at 2. rewrite Qfloor_Z.
    now apply toQ_whole.
  - rewrite toQ_make.
    pose proof (pow10_neq_0 (0 - e)) as Hd.
    pose proof (inject_N_pos _ Hd) as Hd'.
    pose proof (pow10_inject_neg e He) as Hp.
    set (d := pow10 (0 - e)) in *.
    destruct a; unfold roundMagnitude, toQ, magnitude.
    + assert (E : - (inject_Z (Z.of_N c) * 10 ^ e)
                  == inject_Z (- Z.of_N c) / inject_Z (Z.of_N d)).
      { rewrite Hp, inject_Z_opp. field. lra. }
      rewrite E, <- Zdiv_Qdiv.
      rewrite Zdiv_opp_ceil by lia.
      rewrite N2Z.inj_div, N2Z.inj_sub, N2Z.inj_add by lia.
      change (Z.of_N 1) with 1%Z. rewrite inject_Z_opp.
      change (10 ^ 0) with 1. ring.
    + assert (E : inject_Z (Z.of_N c) * 10 ^ e
                  == inject_Z (Z.of_N c) / inject_Z (Z.of_N d)).
      { rewrite Hp. field. lra. }
      rewrite E, <- Zdiv_Qdiv, N2Z.inj_div.
      change (10 ^ 0) with 1. ring.
Qed.

Lemma dpWith_whole (rm : RoundingMode) (x : BigNumber.t) :
  isFinite x = true ->
  exists neg c e, dpWith 0 rm x = Finite neg c e /\ (0 <= e)%Z.
Proof.
  destruct x as [| |a c e]; try discriminate. intros _.
  unfold dpWith, round. change (- 0)%Z with 0%Z.
  destruct (Z.leb_spec 0 e) as [He|He].
  - now exists a, c, e.
  - destruct (make_exponent a
                (roundMagnitude rm a c (pow10 (0 - e))) 0
                ltac:(lia)) as (c' & e' & -> & He').
    now exists a, c', e'.
Qed.

(** Flooring to a whole number and reading it as a number gives the floor
    of the value, as long as a double holds it exactly. *)
Lemma toNumber_floor (x : BigNumber.t) :
  isFinite x = true ->
  (Z.abs (Qfloor (toQ x)) <= 2 ^ 53)%Z ->
  toNumber (dpWith 0 ROUND_FLOOR x) = Some (Qfloor (toQ x)).
Proof.
  intros Hx Hb.
  pose proof (toQ_dpWith_floor x Hx) as Hv.
  destruct (dpWith_whole ROUND_FLOOR x Hx) as (a & c & e & E & He).
  rewrite E in *. rewrite (toQ_whole a c e He) in Hv.
  apply (proj1 (inject_Z_injective _ _)) in Hv.
  unfold toNumber. destruct (Z.leb_spec 0 e); [|lia].
  rewrite Hv. destruct (Z.leb_spec (Z.abs (Qfloor (toQ x))) (2 ^ 53)); [|lia].
  reflexivity.
Qed.

(** *** Minima *)

Lemma min_finite (x y : BigNumber.t) :
  isFinite x = true -> isFinite y = true -> isFinite (BigNumber.min x y) = true.
Proof.
  intros Hx Hy. unfold BigNumber.min.
  destruct (isNaN y); [exact Hy|]. now destruct (isGreaterThan x y).
Qed.

Lemma toQ_min (x y : BigNumber.t) :
  isFinite x = true -> isFinite y = true ->
  (toQ (BigNumber.min x y) == toQ x /\ toQ x <= toQ y)
  \/ (toQ (BigNumber.min x y) == toQ y /\ toQ y <= toQ x).
Proof.
  intros Hx Hy. unfold BigNumber.min.
  assert (Hn : isNaN y = false) by (destruct y; try discriminate; reflexivity).
  rewrite Hn.
  destruct (isGreaterThan x y) eqn:E.
  - apply (isGreaterThan_spec x y Hx Hy) in E.
    right. split; [reflexivity|now apply Qlt_le_weak].
  - left. split; [reflexivity|].
    destruct (Qlt_le_dec (toQ y) (toQ x)) as [H|H]; [|exact H].
    apply (isGreaterThan_spec x y Hx Hy) in H. congruence.
Qed.

(** *** Values that are not numbers *)

Lemma multipliedBy_NaN_r (x : BigNumber.t) : multipliedBy x NaN = NaN.
Proof. now destruct x. Qed.

Lemma plus_NaN_r (x : BigNumber.t) : plus x NaN = NaN.
Proof. now destruct x. Qed.

Lemma dividedBy_NaN_r (rm : RoundingMode) (x : BigNumber.t) :
  dividedBy rm x NaN = NaN.
Proof. now destruct x. Qed.

Lemma min_NaN_l (y : BigNumber.t) : BigNumber.min NaN y = NaN.
Proof. unfold BigNumber.min. now destruct y. Qed.

Lemma min_NaN_r (x : BigNumber.t) : BigNumber.min x NaN = NaN.
Proof. reflexivity. Qed.

(** *** Square roots *)

Lemma half_succ_le (r m : N) : (r <= 2 * m -> (r + 1) / 2 <= m)%N.
Proof.
  intro H.
  assert (E : (m = (2 * m + 1) / 2)%N)
    by (apply (N.div_unique _ _ _ 1); lia).
  apply (N.le_trans _ ((2 * m + 1) / 2)); [|lia].
  apply N.Div0.div_le_mono. lia.
Qed.

Lemma half_succ_ge (r m : N) : (2 * m <= r -> m <= (r + 1) / 2)%N.
Proof. intro H. apply N.div_le_lower_bound; lia. Qed.


Lemma sqrt_finite (rm : RoundingMode) (x : BigNumber.t) :
  isFinite x = true -> 0 <= toQ x ->
  isFinite (sqrt rm x) = true /\ 0 <= toQ (sqrt rm x).
Proof.
  destruct x as [| |a c e]; try discriminate. intros _ H0.
  unfold sqrt. destruct (N.eqb_spec c 0) as [->|Hc].
  - split; [reflexivity|exact H0].
  - pose proof (magnitude_pos c e Hc) as Hm.
    destruct a; [simpl in H0; lra|].
    split; [apply make_finite|]. rewrite toQ_make. apply magnitude_nonneg.
Qed.

(** The rounded root lies on the same side of a whole number [b] as the
    argument lies of [b * b], in either mode. *)
Lemma sqrt_bounds (rm : RoundingMode) (x : BigNumber.t) (b : N) :
  isFinite x = true -> 0 <= toQ x ->
  (toQ x <= inject_Z (Z.of_N (b * b)) ->
   toQ (sqrt rm x) <= inject_Z (Z.of_N b))
  /\ (inject_Z (Z.of_N (b * b)) <= toQ x ->
      inject_Z (Z.of_N b) <= toQ (sqrt rm x)).
Proof.
  destruct x as [| |a c e]; try discriminate. intros _ H0.
  assert (Hsq : inject_Z (Z.of_N (b * b))
                == inject_Z (Z.of_N b) * inject_Z (Z.of_N b))
    by (now rewrite N2Z.inj_mul, inject_Z_mult).
  assert (Hb0 : 0 <= inject_Z (Z.of_N b))
    by (change 0 with (inject_Z 0); rewrite <- Zle_Qle; lia).
  unfold sqrt. destruct (N.eqb_spec c 0) as [->|Hc].
  - assert (E : toQ (Finite a 0 e) == 0)
      by (unfold toQ; destruct a; rewrite magnitude_0; ring).
    rewrite E. split; intro H; [exact Hb0|]. nra.
  - pose proof (magnitude_pos c e Hc) as Hm.
    destruct a; [simpl in H0; lra|].
    rewrite toQ_make. unfold DECIMAL_PLACES.
    change (2 * 20)%Z with 40%Z. change (- 20)%Z with (- (20))%Z.
    set (k := (e + 40)%Z).
    pose proof (pow10_neq_0 (- k)) as Hd.
    pose proof (inject_N_pos _ Hd) as Hd'.
    pose proof (pow10_pos 20) as H20.
    pose proof (pow10_inject 20) as P20. rewrite Z.max_r in P20 by lia.
    assert (Hk : 10 ^ k == 10 ^ e * (10 ^ 20 * 10 ^ 20)).
    { unfold k. replace (e + 40)%Z with (e + (20 + 20))%Z by lia.
      now rewrite !pow10_add. }
    (* the scaled argument [x * 10^40] as a quotient of naturals *)
    assert (HX : inject_Z (Z.of_N (c * pow10 k))
                 / inject_Z (Z.of_N (pow10 (- k)))
                 == magnitude c e * (10 ^ 20 * 10 ^ 20)).
    { unfold magnitude.
      rewrite !N2Z.inj_mul, !inject_Z_mult, !pow10_inject.
      pose proof (pow10_ratio k) as Hr. rewrite Hk in Hr.
      pose proof (pow10_pos (Z.max 0 (- k))) as H1.
      assert (Hr' : 10 ^ Z.max 0 k
                    == 10 ^ e * (10 ^ 20 * 10 ^ 20) * 10 ^ Z.max 0 (- k)).
      { rewrite <- Hr. field. lra. }
      rewrite Hr'. field. lra. }
    assert (Hres : forall r : N,
               magnitude r (- (20)) == inject_Z (Z.of_N r) / 10 ^ 20).
    { intro r. unfold magnitude. rewrite pow10_opp. field; lra. }
    assert (Hbt : inject_Z (Z.of_N b)
                  == inject_Z (Z.of_N (b * pow10 20)) / 10 ^ 20).
    { rewrite N2Z.inj_mul, inject_Z_mult, P20. field; lra. }
    unfold toQ. rewrite Hres, Hsq.
    assert (Hdiv : forall u v : N,
               (u <= v)%N ->
               inject_Z (Z.of_N u) / 10 ^ 20 <= inject_Z (Z.of_N v) / 10 ^ 20).
    { intros u v Huv. unfold Qdiv. apply Qmult_le_compat_r;
        [|now apply Qlt_le_weak, Qinv_lt_0_compat].
      rewrite <- Zle_Qle. lia. }
    destruct rm.
    + (* rounding down: the root of the floor of [x * 10^40] *)
      set (n := ((c * pow10 k) / pow10 (- k))%N).
      set (t := (b * pow10 20)%N).
      assert (Hn : Z.of_N n = Qfloor (magnitude c e * (10 ^ 20 * 10 ^ 20))).
      { unfold n. rewrite N2Z.inj_div, Zdiv_Qdiv. now rewrite HX. }
      assert (Ht : inject_Z (Z.of_N (t * t))
                   == inject_Z (Z.of_N b) * inject_Z (Z.of_N b)
                      * (10 ^ 20 * 10 ^ 20)).
      { unfold t. rewrite !N2Z.inj_mul, !inject_Z_mult, P20. ring. }
      split; intro H; rewrite Hbt; apply Hdiv.
      * assert (Hle : (n <= t * t)%N).
        { assert (Hz : (Z.of_N n <= Z.of_N (t * t))%Z).
          { rewrite Hn, <- (Qfloor_Z (Z.of_N (t * t))).
            apply Qfloor_resp_le. rewrite Ht. nra. }
          lia. }
        apply N.sqrt_le_mono in Hle. now rewrite N.sqrt_square in Hle.
      * assert (Hle : (t * t <= n)%N).
        { assert (Hz : (Z.of_N (t * t) <= Z.of_N n)%Z).
          { rewrite Hn, <- (Qfloor_Z (Z.of_N (t * t))).
            apply Qfloor_resp_le. rewrite Ht. nra. }
          lia. }
        apply N.sqrt_le_mono in Hle. now rewrite N.sqrt_square in Hle.
    + (* to the nearest: half the root of the floor of [4 * x * 10^40] *)
      set (n := ((4 * c * pow10 k) / pow10 (- k))%N).
      set (t := (2 * b * pow10 20)%N).
      assert (HY : inject_Z (Z.of_N (4 * c * pow10 k))
                   / inject_Z (Z.of_N (pow10 (- k)))
                   == 4 * magnitude c e * (10 ^ 20 * 10 ^ 20)).
      { assert (E : 4 * magnitude c e * (10 ^ 20 * 10 ^ 20)
                    == 4 * (magnitude c e * (10 ^ 20 * 10 ^ 20))) by ring.
        rewrite E, <- HX, <- N.mul_assoc.
        rewrite (N2Z.inj_mul 4), inject_Z_mult.
        change (inject_Z (Z.of_N 4)) with 4. field. lra. }
      assert (Hn : Z.of_N n
                   = Qfloor (4 * magnitude c e * (10 ^ 20 * 10 ^ 20))).
      { unfold n. rewrite N2Z.inj_div, Zdiv_Qdiv. now rewrite HY. }
      assert (Ht : inject_Z (Z.of_N (t * t))
                   == 4 * (inject_Z (Z.of_N b) * inject_Z (Z.of_N b))
                      * (10 ^ 20 * 10 ^ 20)).
      { unfold t. rewrite !N2Z.inj_mul, !inject_Z_mult, P20.
        change (inject_Z (Z.of_N 2)) with 2. ring. }
      split; intro H; rewrite Hbt; apply Hdiv.
      * assert (Hle : (n <= t * t)%N).
        { assert (Hz : (Z.of_N n <= Z.of_N (t * t))%Z).
          { rewrite Hn, <- (Qfloor_Z (Z.of_N (t * t))).
            apply Qfloor_resp_le. rewrite Ht. nra. }
          lia. }
        apply N.sqrt_le_mono in Hle. rewrite N.sqrt_square in Hle.
        unfold t in Hle. apply half_succ_le. lia.
      * assert (Hle : (t * t <= n)%N).
        { assert (Hz : (Z.of_N (t * t) <= Z.of_N n)%Z).
          { rewrite Hn, <- (Qfloor_Z (Z.of_N (t * t))).
            apply Qfloor_resp_le. rewrite Ht. nra. }
          lia. }
        apply N.sqrt_le_mono in Hle. rewrite N.sqrt_square in Hle.
        unfold t in Hle. apply half_succ_ge. lia.
Qed.

(** *** Zero, finite and positive values *)

Lemma isZero_make (neg : bool) (c : N) (e : Z) :
  isZero (make neg c e) = (c =? 0)%N.
Proof.
  pose proof (make_finite neg c e) as Hf.
  pose proof (toQ_make neg c e) as Hv.
  pose proof (isZero_toQ (make neg c e) Hf) as H1.
  pose proof (isZero_toQ (Finite neg c e) eq_refl) as H2.
  simpl isZero in H2. rewrite Hv in H1.
  destruct (isZero (make neg c e)), (c =? 0)%N; try reflexivity.
  - symmetry. apply H2, H1. reflexivity.
  - apply H1, H2. reflexivity.
Qed.

Lemma dp_finite_inv (rm : RoundingMode) (p : Z) (x : BigNumber.t) :
  isFinite (dp rm p x) = true -> isFinite x = true.
Proof. now destruct x. Qed.

Lemma finite_not_NaN (x : BigNumber.t) : isFinite x = true -> isNaN x = false.
Proof. now destruct x. Qed.

Lemma nonzero_toQ (x : BigNumber.t) :
  isFinite x = true -> isZero x = false -> ~ (toQ x == 0)%Q.
Proof.
  intros Hf Hz H. apply (isZero_toQ x Hf) in H. congruence.
Qed.

Lemma positive_finite_nonzero (x : BigNumber.t) :
  positive x = true -> isFinite x = true /\ isZero x = false.
Proof.
  intro H. split; [now apply positive_spec in H|].
  now apply positive_not_degenerate.
Qed.

(** *** Comparisons read from the other side *)

Lemma compare_antisym (x y : BigNumber.t) :
  compare y x = option_map CompOpp (compare x y).
Proof.
  destruct x as [|a|a cx ex], y as [|b|b cy ey]; try reflexivity.
  - now destruct a, b.
  - now destruct a.
  - now destruct b.
  - cbn [compare option_map]. rewrite (Z.min_comm ey ex).
    now rewrite <- Z.compare_antisym.
Qed.

Lemma isGreaterThanOrEqualTo_swap (x y : BigNumber.t) :
  isGreaterThanOrEqualTo x y = isLessThanOrEqualTo y x.
Proof.
  unfold isGreaterThanOrEqualTo, isLessThanOrEqualTo.
  rewrite (compare_antisym x y). now destruct (compare x y) as [[]|].
Qed.

Lemma isLessThanOrEqualTo_refl (x : BigNumber.t) :
  isFinite x = true -> isLessThanOrEqualTo x x = true.
Proof.
  intro Hx. apply (isLessThanOrEqualTo_spec x x Hx Hx). apply Qle_refl.
Qed.

(** *** Positive values and zero reserves *)

Lemma positive_shape (x : BigNumber.t) :
  positive x = true -> exists c e, x = Finite false c e /\ c <> 0%N.
Proof.
  intro H. apply positive_spec in H as [Hf H0].
  destruct x as [| |a c e]; try discriminate.
  destruct (N.eqb_spec c 0) as [->|Hc].
  - exfalso. simpl in H0. destruct a; rewrite magnitude_0 in H0; lra.
  - pose proof (magnitude_pos c e Hc). destruct a; [simpl in H0; lra|].
    now exists c, e.
Qed.

Lemma positive_multipliedBy (x y : BigNumber.t) :
  positive x = true -> positive y = true ->
  positive (multipliedBy x y) = true.
Proof.
  intros Hx Hy. apply positive_spec in Hx as [Fx Px].
  apply positive_spec in Hy as [Fy Py]. apply positive_spec.
  split; [now apply multipliedBy_finite|].
  rewrite toQ_multipliedBy by assumption. now apply Qmult_lt_0_compat.
Qed.

Lemma positive_removeDecimals (amount : Types.Amount) (d : Types.Decimals) :
  positive (Utils.toBigNumber amount) = true ->
  positive (Utils.removeDecimals amount d) = true.
Proof.
  intro H. apply positive_spec in H as [Hf H0]. apply positive_spec.
  split; [now apply removeDecimals_finite|].
  rewrite toQ_removeDecimals by exact Hf.
  apply Qlt_shift_div_l; [apply pow10_pos|lra].
Qed.

Lemma nonnegative_removeDecimals (amount : Types.Amount) (d : Types.Decimals) :
  nonnegative (Utils.toBigNumber amount) = true ->
  nonnegative (Utils.removeDecimals amount d) = true.
Proof.
  intro H. apply nonnegative_spec in H as [Hf H0]. apply nonnegative_spec.
  split; [now apply removeDecimals_finite|].
  rewrite toQ_removeDecimals by exact Hf.
  apply Qdiv_nonneg; [exact H0|apply pow10_pos].
Qed.

(** A non-negative value that is not zero is positive. *)
Lemma nonnegative_nonzero_positive (x : BigNumber.t) :
  nonnegative x = true -> isZero x = false -> positive x = true.
Proof.
  intros H Hz. apply nonnegative_spec in H as [Hf H0].
  apply positive_spec. split; [exact Hf|].
  pose proof (nonzero_toQ x Hf Hz) as Hne.
  destruct (Qlt_le_dec 0 (toQ x)) as [Hp|Hp]; [exact Hp|].
  exfalso. apply Hne. lra.
Qed.

(** A zero numerator over a zero reserve is not a number, whatever it was
    multiplied by. *)
Lemma zero_over_zero (rm : RoundingMode) (x z : BigNumber.t) :
  isFinite x = true -> isZero x = true ->
  isFinite z = true -> isZero z = true ->
  forall ts, dividedBy rm (multipliedBy x ts) z = NaN.
Proof.
  destruct x as [| |a c e]; try discriminate.
  destruct z as [| |b cz ez]; try discriminate.
  simpl isZero. intros _ Hc _ Hz ts.
  apply N.eqb_eq in Hc. apply N.eqb_eq in Hz. subst c cz.
  destruct ts as [| |s ct et]; reflexivity.
Qed.

(** The proportional amount of the other token against a zero reserve of
    that token is zero. *)
Lemma optimal_against_zero (rm : RoundingMode) (a z r : BigNumber.t) :
  isFinite a = true -> isFinite z = true -> isZero z = true ->
  positive r = true ->
  isFinite (dividedBy rm (multipliedBy a z) r) = true
  /\ isZero (dividedBy rm (multipliedBy a z) r) = true.
Proof.
  intros Fa Fz Zz Hr.
  destruct (positive_finite_nonzero r Hr) as [Fr Zr].
  assert (Fm : isFinite (multipliedBy a z) = true)
    by (now apply multipliedBy_finite).
  assert (Fq : isFinite (dividedBy rm (multipliedBy a z) r) = true)
    by (now apply dividedBy_finite).
  split; [exact Fq|].
  apply (isZero_toQ _ Fq).
  rewrite toQ_dividedBy, toQ_multipliedBy by assumption.
  apply (isZero_toQ z Fz) in Zz.
  assert (E : (toQ a * toQ z / toQ r == 0)%Q)
    by (rewrite Zz; unfold Qdiv; ring).
  rewrite E. apply Qround_0.
Qed.

End RoundingFacts.

(** ** Properties of [src/math/liquidity.ts] *)

Module LiquiditySpec.

Import BigNumber Semantics BigNumberFacts RoundingFacts Utils Liquidity.

(** C4: a first deposit of 2,000,000 and 8,000,000 raw units at 6 decimals
    into an empty pool (both reserves and the total supply zero) mints
    [sqrt (2 * 8) - 1000 = -996]; nothing clamps the result at zero. *)
Theorem getAddPosition_first_deposit
  (rm : RoundingMode) (a0 a1 : Types.Amount) (r0 r1 ts : Types.Number) :
  toBigNumber a0 = ofZ 2000000 ->
  toBigNumber a1 = ofZ 8000000 ->
  isZero (toBigNumber r0) = true ->
  isZero (toBigNumber r1) = true ->
  isZero (toBigNumber ts) = true ->
  getAddPosition rm
    {| token0Amount := a0; token1Amount := a1;
       token0Decimals := 6; token1Decimals := 6;
       reserve0 := r0; reserve1 := r1; totalSupply := ts |}
  = ofZ (-996).
Proof.
  intros H0 H1 Hr0 Hr1 Hts.
  unfold getAddPosition, creditedAmounts, mintedPosition, removeDecimals.
  cbn [token0Amount token1Amount token0Decimals token1Decimals
       Liquidity.reserve0 Liquidity.reserve1 Liquidity.totalSupply].
  rewrite H0, H1, Hr0, Hr1, Hts. destruct rm; vm_compute; reflexivity.
Qed.

Lemma getAddPosition_first_deposit_witness :
  getAddPosition DEFAULT_ROUNDING_MODE
    {| token0Amount := Types.StringValue (ofZ 2000000);
       token1Amount := Types.StringValue (ofZ 8000000);
       token0Decimals := 6; token1Decimals := 6;
       reserve0 := Types.BigIntValue 0; reserve1 := Types.BigIntValue 0;
       totalSupply := Types.BigIntValue 0 |}
  = Finite true 996 0
  /\ getAddPosition ROUND_FLOOR
       {| token0Amount := Types.StringValue (ofZ 2000000);
          token1Amount := Types.StringValue (ofZ 8000000);
          token0Decimals := 6; token1Decimals := 6;
          reserve0 := Types.BigIntValue 0; reserve1 := Types.BigIntValue 0;
          totalSupply := Types.BigIntValue 0 |}
     = Finite true 996 0.
Proof.
  split.
  - apply (getAddPosition_first_deposit DEFAULT_ROUNDING_MODE
             (Types.StringValue (ofZ 2000000))
             (Types.StringValue (ofZ 8000000))
             (Types.BigIntValue 0) (Types.BigIntValue 0)
             (Types.BigIntValue 0));
      reflexivity.
  - apply (getAddPosition_first_deposit ROUND_FLOOR
             (Types.StringValue (ofZ 2000000))
             (Types.StringValue (ofZ 8000000))
             (Types.BigIntValue 0) (Types.BigIntValue 0)
             (Types.BigIntValue 0));
      reflexivity.
Defined.

(** The credited [amount1] never exceeds the desired one, whatever the
    reserves and the mode: it is the optimal amount only when the desired
    amount is at least that. *)
Lemma credited_amount1_at_most_desired
  (rm : RoundingMode) (a0d a1d r0 r1 : BigNumber.t) :
  isFinite a1d = true ->
  isLessThanOrEqualTo (snd (creditedAmounts rm a0d a1d r0 r1)) a1d = true.
Proof.
  intro F1. unfold creditedAmounts.
  destruct (isZero r0 && isZero r1);
    [now apply isLessThanOrEqualTo_refl|].
  destruct (isGreaterThanOrEqualTo a1d _) eqn:G; cbn [snd].
  - now rewrite isGreaterThanOrEqualTo_swap in G.
  - now apply isLessThanOrEqualTo_refl.
Qed.

(** When quotients are rounded down, the credited [amount0] never exceeds
    the desired one either: for non-negative amounts and reserves, in the
    second branch [amount1Desired] is below the optimal amount, which is at
    most [amount0Desired * reserve1 / reserve0]. *)
Lemma credited_amount0_at_most_desired (a0d a1d r0 r1 : BigNumber.t) :
  nonnegative a0d = true -> nonnegative a1d = true ->
  nonnegative r0 = true -> nonnegative r1 = true ->
  isLessThanOrEqualTo
    (fst (creditedAmounts ROUND_FLOOR a0d a1d r0 r1)) a0d = true.
Proof.
  intros H0 H1 Hr0 Hr1.
  pose proof H0 as H0'. pose proof H1 as H1'.
  apply nonnegative_spec in H0' as [F0 P0].
  apply nonnegative_spec in H1' as [F1 P1].
  pose proof Hr0 as Hr0'. pose proof Hr1 as Hr1'.
  apply nonnegative_spec in Hr0' as [Fr0 Pr0].
  apply nonnegative_spec in Hr1' as [Fr1 Pr1].
  unfold creditedAmounts.
  destruct (isZero r0) eqn:Z0, (isZero r1) eqn:Z1; cbn [andb].
  - now apply isLessThanOrEqualTo_refl.
  - (* reserve0 is zero: the optimal amount0 is zero *)
    pose proof (nonnegative_nonzero_positive r1 Hr1 Z1) as Q1.
    destruct (isGreaterThanOrEqualTo a1d _); cbn [fst];
      [now apply isLessThanOrEqualTo_refl|].
    destruct (optimal_against_zero ROUND_FLOOR a1d r0 r1 F1 Fr0 Z0 Q1)
      as [Fo Zo].
    apply (isLessThanOrEqualTo_spec _ _ Fo F0).
    apply (isZero_toQ _ Fo) in Zo. now rewrite Zo.
  - (* reserve1 is zero: the optimal amount1 is zero, so the first branch *)
    pose proof (nonnegative_nonzero_positive r0 Hr0 Z0) as Q0.
    destruct (optimal_against_zero ROUND_FLOOR a0d r1 r0 F0 Fr1 Z1 Q0)
      as [Fo Zo].
    assert (G : isGreaterThanOrEqualTo a1d
                  (dividedBy ROUND_FLOOR (multipliedBy a0d r1) r0) = true).
    { apply (isGreaterThanOrEqualTo_spec _ _ F1 Fo).
      apply (isZero_toQ _ Fo) in Zo. now rewrite Zo. }
    rewrite G. cbn [fst]. now apply isLessThanOrEqualTo_refl.
  - (* both reserves positive *)
    pose proof (nonnegative_nonzero_positive r0 Hr0 Z0) as Q0.
    pose proof (nonnegative_nonzero_positive r1 Hr1 Z1) as Q1.
    apply positive_spec in Q0 as [_ Q0]. apply positive_spec in Q1 as [_ Q1].
    set (o1 := dividedBy ROUND_FLOOR (multipliedBy a0d r1) r0).
    set (o0 := dividedBy ROUND_FLOOR (multipliedBy a1d r0) r1).
    assert (Fo1 : isFinite o1 = true)
      by (apply dividedBy_finite; [now apply multipliedBy_finite|assumption..]).
    assert (Fo0 : isFinite o0 = true)
      by (apply dividedBy_finite; [now apply multipliedBy_finite|assumption..]).
    destruct (isGreaterThanOrEqualTo a1d o1) eqn:G; cbn [fst];
      [now apply isLessThanOrEqualTo_refl|].
    apply (isLessThanOrEqualTo_spec _ _ Fo0 F0).
    assert (V1 : (toQ o1 <= toQ a0d * toQ r1 / toQ r0)%Q).
    { unfold o1. rewrite toQ_dividedBy, toQ_multipliedBy
        by (try apply multipliedBy_finite; assumption).
      apply Qdown_le. }
    assert (V0 : (toQ o0 <= toQ a1d * toQ r0 / toQ r1)%Q).
    { unfold o0. rewrite toQ_dividedBy, toQ_multipliedBy
        by (try apply multipliedBy_finite; assumption).
      apply Qdown_le. }
    assert (L : (toQ a1d < toQ o1)%Q).
    { destruct (Qlt_le_dec (toQ a1d) (toQ o1)) as [L|L]; [exact L|].
      apply (isGreaterThanOrEqualTo_spec _ _ F1 Fo1) in L. congruence. }
    assert (L' : (toQ a1d * toQ r0 / toQ r1 <= toQ a0d)%Q).
    { apply Qle_shift_div_r; [exact Q1|].
      assert (L2 : (toQ a1d <= toQ a0d * toQ r1 / toQ r0)%Q) by lra.
      apply (Qmult_le_compat_r _ _ (toQ r0)) in L2; [|lra].
      assert (E : (toQ a0d * toQ r1 / toQ r0 * toQ r0
                   == toQ a0d * toQ r1)%Q) by (field; lra).
      rewrite E in L2. exact L2. }
    lra.
Qed.

(** C5: when at least one reserve is non-zero, [getAddPosition] credits
    [(amount0Desired, amount0Desired * reserve1 / reserve0)] if
    [amount1Desired] is at least that optimal amount, and
    [(amount1Desired * reserve0 / reserve1, amount1Desired)] otherwise, with
    the library's quotients, and mints the position for that pair.  No
    excess is credited: for non-negative amounts and reserves the credited
    [amount1] is at most [amount1Desired] in every mode, and the credited
    [amount0] is at most [amount0Desired] when quotients are rounded down,
    the mode the spec names. *)
Theorem getAddPosition_credited_amounts
  (rm : RoundingMode) (params : GetAddPositionParams) :
  let amount0Desired :=
    removeDecimals params.(token0Amount) params.(token0Decimals) in
  let amount1Desired :=
    removeDecimals params.(token1Amount) params.(token1Decimals) in
  let r0 := toBigNumber params.(reserve0) in
  let r1 := toBigNumber params.(reserve1) in
  let credited (m : RoundingMode) :=
    if isGreaterThanOrEqualTo amount1Desired
         (dividedBy m (multipliedBy amount0Desired r1) r0)
    then (amount0Desired, dividedBy m (multipliedBy amount0Desired r1) r0)
    else (dividedBy m (multipliedBy amount1Desired r0) r1, amount1Desired) in
  isZero r0 && isZero r1 = false ->
  (creditedAmounts rm amount0Desired amount1Desired r0 r1 = credited rm
   /\ getAddPosition rm params
      = mintedPosition rm (fst (credited rm)) (snd (credited rm)) r0 r1
          (toBigNumber params.(totalSupply)))
  /\ (nonnegative (toBigNumber params.(token0Amount)) = true ->
      nonnegative (toBigNumber params.(token1Amount)) = true ->
      nonnegative r0 = true -> nonnegative r1 = true ->
      isLessThanOrEqualTo (snd (credited rm)) amount1Desired = true
      /\ isLessThanOrEqualTo
           (fst (credited SPEC_ROUNDING_MODE)) amount0Desired = true).
Proof.
  intros a0d a1d r0 r1 credited Hres.
  assert (Hc : forall m, creditedAmounts m a0d a1d r0 r1 = credited m).
  { intro m. unfold creditedAmounts, credited. rewrite Hres. reflexivity. }
  split; [split; [apply Hc|]|].
  - unfold getAddPosition. fold a0d a1d r0 r1. rewrite Hc.
    destruct (credited rm); reflexivity.
  - intros H0 H1 Hr0 Hr1.
    pose proof (nonnegative_removeDecimals _ params.(token0Decimals) H0) as A0.
    pose proof (nonnegative_removeDecimals _ params.(token1Decimals) H1) as A1.
    fold a0d in A0. fold a1d in A1.
    rewrite <- !Hc. split.
    + apply credited_amount1_at_most_desired.
      now apply nonnegative_spec in A1.
    + now apply credited_amount0_at_most_desired.
Qed.

Lemma getAddPosition_credited_amounts_witness :
  (creditedAmounts ROUND_FLOOR (ofZ 10) (ofZ 30) (ofZ 100) (ofZ 200)
   = (ofZ 10, ofZ 20)
   /\ isLessThanOrEqualTo (ofZ 20) (ofZ 30) = true)
  /\ (creditedAmounts ROUND_FLOOR (ofZ 10) (ofZ 10) (ofZ 100) (ofZ 200)
      = (ofZ 5, ofZ 10)
      /\ isLessThanOrEqualTo (ofZ 5) (ofZ 10) = true).
Proof.
  split.
  - pose proof (getAddPosition_credited_amounts ROUND_FLOOR
                  {| token0Amount := Types.BigIntValue 10;
                     token1Amount := Types.BigIntValue 30;
                     token0Decimals := 0; token1Decimals := 0;
                     reserve0 := Types.BigIntValue 100;
                     reserve1 := Types.BigIntValue 200;
                     totalSupply := Types.BigIntValue 50 |} eq_refl)
      as [[H _] E].
    specialize (E eq_refl eq_refl eq_refl eq_refl) as [E _].
    vm_compute in H, E. vm_compute. split; [exact H|exact E].
  - pose proof (getAddPosition_credited_amounts ROUND_FLOOR
                  {| token0Amount := Types.BigIntValue 10;
                     token1Amount := Types.BigIntValue 10;
                     token0Decimals := 0; token1Decimals := 0;
                     reserve0 := Types.BigIntValue 100;
                     reserve1 := Types.BigIntValue 200;
                     totalSupply := Types.BigIntValue 50 |} eq_refl)
      as [[H _] E].
    specialize (E eq_refl eq_refl eq_refl eq_refl) as [_ E].
    vm_compute in H, E. vm_compute. split; [exact H|exact E].
Defined.

(** Under the library's default mode the optimal amounts are rounded to the
    nearest, and the second branch can then credit more of token0 than was
    desired: against reserves of 1e30 and 1, a desired 5e9 of token0 has the
    optimal amount 5e-21, rounded up to 1e-20; a desired 9e-21 of token1 is
    below that and is credited with 9e9 of token0. *)
Remark creditedAmounts_default_mode_excess :
  creditedAmounts DEFAULT_ROUNDING_MODE
    (Finite false 5 9) (Finite false 9 (-21)) (Finite false 1 30) (ofZ 1)
  = (Finite false 9 9, Finite false 9 (-21))
  /\ creditedAmounts ROUND_FLOOR
       (Finite false 5 9) (Finite false 9 (-21)) (Finite false 1 30) (ofZ 1)
     = (Finite false 5 9, zero).
Proof. vm_compute. split; reflexivity. Qed.

(** C8: [getAddPercentage] is exactly 1 when the total supply is zero,
    whatever the other parameters, and [lp / (lp + totalSupply)] for
    [lp = getAddPosition params] otherwise. *)
Theorem getAddPercentage_cases
  (rm : RoundingMode) (params : GetPercentageParams) :
  (isZero (toBigNumber params.(totalSupply)) = true ->
   getAddPercentage rm params = one)
  /\ (isZero (toBigNumber params.(totalSupply)) = false ->
      getAddPercentage rm params
      = dividedBy rm (getAddPosition rm params)
          (plus (getAddPosition rm params)
                (toBigNumber params.(totalSupply)))).
Proof.
  unfold getAddPercentage. split; intros ->; reflexivity.
Qed.

Lemma getAddPercentage_cases_witness :
  getAddPercentage DEFAULT_ROUNDING_MODE
    {| token0Amount := Types.BigIntValue 7; token1Amount := Types.BigIntValue 9;
       token0Decimals := 0; token1Decimals := 0;
       reserve0 := Types.BigIntValue 3; reserve1 := Types.BigIntValue 4;
       totalSupply := Types.BigIntValue 0 |} = Finite false 1 0
  /\ getAddPercentage DEFAULT_ROUNDING_MODE
       {| token0Amount := Types.BigIntValue 10;
          token1Amount := Types.BigIntValue 20;
          token0Decimals := 0; token1Decimals := 0;
          reserve0 := Types.BigIntValue 100;
          reserve1 := Types.BigIntValue 200;
          totalSupply := Types.BigIntValue 50 |}
     = Finite false 9090909090909090909 (-20).
Proof.
  split.
  - exact (proj1 (getAddPercentage_cases DEFAULT_ROUNDING_MODE
                    {| token0Amount := Types.BigIntValue 7;
                       token1Amount := Types.BigIntValue 9;
                       token0Decimals := 0; token1Decimals := 0;
                       reserve0 := Types.BigIntValue 3;
                       reserve1 := Types.BigIntValue 4;
                       totalSupply := Types.BigIntValue 0 |}) eq_refl).
  - pose proof (proj2 (getAddPercentage_cases DEFAULT_ROUNDING_MODE
                         {| token0Amount := Types.BigIntValue 10;
                            token1Amount := Types.BigIntValue 20;
                            token0Decimals := 0; token1Decimals := 0;
                            reserve0 := Types.BigIntValue 100;
                            reserve1 := Types.BigIntValue 200;
                            totalSupply := Types.BigIntValue 50 |}) eq_refl)
      as H.
    vm_compute in H. vm_compute. exact H.
Defined.

Lemma getPairDecimals_table :
  forallb
    (fun rm =>
       forallb
         (fun d0 =>
            forallb
              (fun d1 =>
                 match getPairDecimals rm d0 d1 with
                 | Some z => (z =? (Z.of_nat d0 + Z.of_nat d1) / 2)%Z
                 | None => false
                 end)
              (seq 0 19))
         (seq 0 19))
    [ROUND_FLOOR; ROUND_HALF_UP] = true.
Proof. vm_compute. reflexivity. Qed.

(** C9: for decimals [d0] and [d1] between 0 and 18, [getPairDecimals d0 d1]
    is [floor ((d0 + d1) / 2)]. *)
Theorem getPairDecimals_floor (rm : RoundingMode) (d0 d1 : Types.Decimals) :
  (d0 <= 18)%nat -> (d1 <= 18)%nat ->
  getPairDecimals rm d0 d1 = Some ((Z.of_nat d0 + Z.of_nat d1) / 2)%Z.
Proof.
  intros H0 H1. pose proof getPairDecimals_table as T.
  rewrite forallb_forall in T.
  specialize (T rm ltac:(destruct rm; simpl; auto)).
  rewrite forallb_forall in T.
  specialize (T d0 ltac:(apply in_seq; lia)).
  rewrite forallb_forall in T.
  specialize (T d1 ltac:(apply in_seq; lia)).
  destruct (getPairDecimals rm d0 d1) as [z|]; [|discriminate].
  apply Z.eqb_eq in T. now subst.
Qed.

Lemma getPairDecimals_floor_witness :
  getPairDecimals DEFAULT_ROUNDING_MODE 8 11 = Some 9%Z
  /\ getPairDecimals ROUND_FLOOR 8 11 = Some 9%Z.
Proof.
  split.
  - apply (getPairDecimals_floor DEFAULT_ROUNDING_MODE 8 11); lia.
  - apply (getPairDecimals_floor ROUND_FLOOR 8 11); lia.
Defined.

(** One balance when the library rounds down: for a non-negative reserve
    [r], it is finite, the floor of the reserve times the share, and at
    most the exact share of the reserve. *)
Lemma balance_rounded_down (r lp ts : BigNumber.t) :
  let share := dividedBy ROUND_FLOOR lp ts in
  let t := dp ROUND_FLOOR 0 (multipliedBy r share) in
  nonnegative r = true -> positive ts = true -> nonnegative lp = true ->
  isFinite t = true
  /\ (toQ t == inject_Z (Qfloor (toQ r * toQ share)))%Q
  /\ (toQ t <= toQ r * toQ lp / toQ ts)%Q.
Proof.
  intros share t Hr Hts Hlp.
  apply nonnegative_spec in Hr as [Fr Hr0].
  apply positive_spec in Hts as [Fts Hts0].
  apply nonnegative_spec in Hlp as [Flp Hlp0].
  assert (Zts : isZero ts = false)
    by (apply isZero_false_toQ; [exact Fts|lra]).
  assert (Fs : isFinite share = true) by (now apply dividedBy_finite).
  assert (Hs : (toQ share <= toQ lp / toQ ts)%Q).
  { unfold share. rewrite toQ_dividedBy by assumption. apply Qdown_le. }
  assert (Fm : isFinite (multipliedBy r share) = true)
    by (now apply multipliedBy_finite).
  assert (V : (toQ t == inject_Z (Qfloor (toQ r * toQ share)))%Q).
  { unfold t. rewrite toQ_dp by exact Fm.
    rewrite toQ_multipliedBy by assumption.
    cbn [Qround]. unfold Qdown. change (10 ^ 0)%Q with 1%Q.
    assert (E : (toQ r * toQ share * 1 == toQ r * toQ share)%Q) by ring.
    rewrite E. field. }
  split; [now apply dp_finite|]. split; [exact V|].
  rewrite V.
  pose proof (Qfloor_le (toQ r * toQ share)) as Hfl.
  assert (Hmul : (toQ r * toQ share <= toQ r * (toQ lp / toQ ts))%Q).
  { rewrite !(Qmult_comm (toQ r)). now apply Qmult_le_compat_r. }
  assert (E : (toQ r * (toQ lp / toQ ts) == toQ r * toQ lp / toQ ts)%Q)
    by (field; lra).
  lra.
Qed.

(** C1: with the library rounding down, as the spec has it,
    [getTokenBalances] returns for each balance, of either token, the floor
    of the reserve times the holder's share.  So for a pair with
    non-negative reserves and positive [totalSupply], and non-negative
    balances that sum to at most [totalSupply], the token0 balances of the
    holders sum to at most [reserve0]. *)
Theorem token0Redeemed_at_most_reserve
  (pair : Pair.Model) (lps : list Pair.Balance) :
  let r0 := toBigNumber pair.(Pair.reserve0) in
  let r1 := toBigNumber pair.(Pair.reserve1) in
  let ts := toBigNumber pair.(Pair.totalSupply) in
  let balances lp :=
    getTokenBalances SPEC_ROUNDING_MODE {| pair := pair; lpBalance := lp |} in
  let share lp := dividedBy SPEC_ROUNDING_MODE (toBigNumber lp) ts in
  nonnegative r0 = true -> nonnegative r1 = true -> positive ts = true ->
  Forall (fun lp => nonnegative (toBigNumber lp) = true) lps ->
  isLessThanOrEqualTo (sum (map toBigNumber lps)) ts = true ->
  Forall (fun lp =>
            toQ (token0 (balances lp))
            == inject_Z (Qfloor (toQ r0 * toQ (share lp)))
            /\ toQ (token1 (balances lp))
               == inject_Z (Qfloor (toQ r1 * toQ (share lp))))%Q lps
  /\ isLessThanOrEqualTo (token0Redeemed SPEC_ROUNDING_MODE pair lps) r0
     = true.
Proof.
  intros r0 r1 ts balances share Hr Hr1 Hts Hlps Hsum.
  unfold balances, share. change SPEC_ROUNDING_MODE with ROUND_FLOOR.
  set (tok := fun lp =>
                token0 (getTokenBalances ROUND_FLOOR
                          {| pair := pair; lpBalance := lp |})).
  assert (Htok : forall lp,
             nonnegative (toBigNumber lp) = true ->
             isFinite (tok lp) = true
             /\ (toQ (tok lp)
                 <= toQ r0 * toQ (toBigNumber lp) / toQ ts)%Q).
  { intros lp Hlp.
    destruct (balance_rounded_down r0 (toBigNumber lp) ts Hr Hts Hlp)
      as (F & _ & U).
    split; [exact F|exact U]. }
  split.
  { eapply Forall_impl; [|exact Hlps].
    intros lp Hlp. split.
    - exact (proj1 (proj2 (balance_rounded_down r0 _ ts Hr Hts Hlp))).
    - exact (proj1 (proj2 (balance_rounded_down r1 _ ts Hr1 Hts Hlp))). }
  assert (Ffin : Forall (fun x => isFinite x = true) (map tok lps)).
  { apply Forall_map. eapply Forall_impl; [|exact Hlps].
    intros lp Hlp. exact (proj1 (Htok lp Hlp)). }
  assert (Flps : Forall (fun x => isFinite x = true) (map toBigNumber lps)).
  { apply Forall_map. eapply Forall_impl; [|exact Hlps].
    intros lp Hlp. now apply nonnegative_spec in Hlp. }
  pose proof Hts as Hts'. apply positive_spec in Hts' as [Fts Hts0].
  pose proof Hr as Hr'. apply nonnegative_spec in Hr' as [Fr Hr0].
  apply (isLessThanOrEqualTo_spec _ _ (sum_finite _ Ffin) Fr).
  unfold token0Redeemed. fold tok. rewrite toQ_sum by exact Ffin.
  apply (isLessThanOrEqualTo_spec _ _ (sum_finite _ Flps) Fts) in Hsum.
  rewrite toQ_sum in Hsum by exact Flps.
  assert (Hind : (Qsum (map toQ (map tok lps))
                  <= toQ r0 * Qsum (map toQ (map toBigNumber lps)) / toQ ts)%Q).
  { clear Hsum Ffin Flps. induction Hlps as [|lp l Hlp Hl IH].
    - simpl. unfold Qdiv. ring_simplify. apply Qle_refl.
    - destruct (Htok lp Hlp) as [_ Hup].
      cbn [map Qsum fold_right]. fold (Qsum (map toQ (map tok l))).
      fold (Qsum (map toQ (map toBigNumber l))).
      assert (E : (toQ r0
                   * (toQ (toBigNumber lp)
                      + Qsum (map toQ (map toBigNumber l))) / toQ ts
                   == toQ r0 * toQ (toBigNumber lp) / toQ ts
                      + toQ r0 * Qsum (map toQ (map toBigNumber l)) / toQ ts)%Q)
        by (field; lra).
      rewrite E. lra. }
  assert (Hle : (toQ r0 * Qsum (map toQ (map toBigNumber lps)) / toQ ts
                 <= toQ r0)%Q).
  { apply Qle_shift_div_r; [exact Hts0|].
    rewrite !(Qmult_comm (toQ r0)). now apply Qmult_le_compat_r. }
  lra.
Qed.

Lemma token0Redeemed_at_most_reserve_witness :
  token0
    (getTokenBalances SPEC_ROUNDING_MODE
       {| pair := {| Pair.reserve0 := Types.BigIntValue 9;
                     Pair.reserve1 := Types.BigIntValue 5;
                     Pair.totalSupply := Types.BigIntValue 10 |};
          lpBalance := Types.BigIntValue 7 |}) = ofZ 6
  /\ isLessThanOrEqualTo
       (token0Redeemed SPEC_ROUNDING_MODE
          {| Pair.reserve0 := Types.BigIntValue 9;
             Pair.reserve1 := Types.BigIntValue 5;
             Pair.totalSupply := Types.BigIntValue 10 |}
          [Types.BigIntValue 7; Types.BigIntValue 3])
       (ofZ 9) = true.
Proof.
  split; [vm_compute; reflexivity|].
  apply (token0Redeemed_at_most_reserve
           {| Pair.reserve0 := Types.BigIntValue 9;
              Pair.reserve1 := Types.BigIntValue 5;
              Pair.totalSupply := Types.BigIntValue 10 |}
           [Types.BigIntValue 7; Types.BigIntValue 3]).
  - reflexivity.
  - reflexivity.
  - reflexivity.
  - repeat constructor.
  - reflexivity.
Defined.

(** The bound rests on the rounding down.  Left at the library's default
    mode, [dp(0)] rounds to the nearest integer: with a reserve of 1, a
    total supply of 2 and two holders of 1 each, every holder would get 1,
    2 in total. *)
Remark token0Redeemed_default_mode :
  isLessThanOrEqualTo
    (token0Redeemed DEFAULT_ROUNDING_MODE
       {| Pair.reserve0 := Types.BigIntValue 1;
          Pair.reserve1 := Types.BigIntValue 1;
          Pair.totalSupply := Types.BigIntValue 2 |}
       [Types.BigIntValue 1; Types.BigIntValue 1])
    (toBigNumber (Types.BigIntValue 1)) = false
  /\ token0Redeemed SPEC_ROUNDING_MODE
       {| Pair.reserve0 := Types.BigIntValue 1;
          Pair.reserve1 := Types.BigIntValue 1;
          Pair.totalSupply := Types.BigIntValue 2 |}
       [Types.BigIntValue 1; Types.BigIntValue 1] = zero.
Proof. vm_compute. split; reflexivity. Qed.

End LiquiditySpec.

(** ** Properties of [src/math/swap.ts] *)

Module SwapSpec.

Import BigNumber Semantics BigNumberFacts Utils Swap.

(** On non-negative amounts, positive reserves and a fee in [0, 1),
    [getAmountOut] is finite and denotes [amountOutQ] of the rescaled
    amount (also in the branch that returns 0 early). *)
Lemma getAmountOut_toQ (rm am : RoundingMode) (params : GetAmountOutParams) :
  let fee := toBigNumber (Types.orElse params.(fee) DEFAULT_FEE) in
  nonnegative (toBigNumber params.(amountIn)) = true ->
  positive (toBigNumber params.(reserveIn)) = true ->
  positive (toBigNumber params.(reserveOut)) = true ->
  nonnegative fee = true -> isLessThan fee one = true ->
  isFinite (getAmountOut rm am params) = true
  /\ (toQ (getAmountOut rm am params)
      == amountOutQ rm am
           (toQ (toBigNumber params.(amountIn))
            / 10 ^ Z.of_nat params.(decimalsIn))
           (toQ fee) (toQ (toBigNumber params.(reserveIn)))
           (toQ (toBigNumber params.(reserveOut))) params.(decimalsOut))%Q.
Proof.
  intros f HA HrI HrO Hf Hf1.
  apply nonnegative_spec in HA as [HAf HA0].
  apply positive_spec in HrI as [HrIf HrI0].
  apply positive_spec in HrO as [HrOf HrO0].
  apply nonnegative_spec in Hf as [Hff Hf0].
  apply (isLessThan_spec f one Hff eq_refl) in Hf1. rewrite toQ_one in Hf1.
  pose proof (removeDecimals_finite _ params.(decimalsIn) HAf) as Haf.
  pose proof (toQ_removeDecimals _ params.(decimalsIn) HAf) as Ha.
  pose proof (pow10_pos (Z.of_nat params.(decimalsIn))) as Hp.
  unfold getAmountOut. cbv zeta. fold f.
  set (a := removeDecimals params.(amountIn) params.(decimalsIn)) in *.
  set (x := (toQ (toBigNumber params.(amountIn))
             / 10 ^ Z.of_nat params.(decimalsIn))%Q) in *.
  assert (Hx0 : (0 <= x)%Q) by (now apply Qdiv_nonneg).
  destruct (isZero a) eqn:Hz.
  - split; [reflexivity|]. cbn [toBigNumber]. rewrite toQ_zero.
    symmetry. apply amountOutQ_0. rewrite <- Ha. now apply isZero_toQ.
  - cbn [toBigNumber].
    assert (Hxpos : (0 < x)%Q).
    { destruct (Qlt_le_dec 0 x) as [H|H]; [exact H|].
      assert (E : (toQ a == 0)%Q) by (rewrite Ha; lra).
      apply (isZero_toQ a Haf) in E. congruence. }
    set (k := minus one f).
    assert (Hkf : isFinite k = true) by (now apply minus_finite).
    assert (Hk : (toQ k == 1 - toQ f)%Q).
    { unfold k. rewrite toQ_minus by (try reflexivity; assumption).
      now rewrite toQ_one. }
    set (w := multipliedBy a k).
    assert (Hwf : isFinite w = true) by (now apply multipliedBy_finite).
    assert (Hw : (toQ w == x * (1 - toQ f))%Q).
    { unfold w. rewrite toQ_multipliedBy by assumption. now rewrite Ha, Hk. }
    assert (Hw0 : (0 < x * (1 - toQ f))%Q) by nra.
    set (num := multipliedBy w (toBigNumber params.(reserveOut))).
    assert (Hnf : isFinite num = true) by (now apply multipliedBy_finite).
    assert (Hn : (toQ num
                  == x * (1 - toQ f) * toQ (toBigNumber params.(reserveOut)))%Q).
    { unfold num. rewrite toQ_multipliedBy by assumption. now rewrite Hw. }
    set (den := plus (toBigNumber params.(reserveIn)) w).
    assert (Hdf : isFinite den = true) by (now apply plus_finite).
    assert (Hd : (toQ den
                  == toQ (toBigNumber params.(reserveIn))
                     + x * (1 - toQ f))%Q).
    { unfold den. rewrite toQ_plus by assumption. now rewrite Hw. }
    assert (Hdz : isZero den = false).
    { apply isZero_false_toQ; [exact Hdf|]. rewrite Hd. lra. }
    split.
    + apply applyDecimals_finite. now apply dividedBy_finite.
    + rewrite toQ_applyDecimals by (now apply dividedBy_finite).
      rewrite toQ_dividedBy by assumption.
      unfold amountOutQ. now rewrite Hn, Hd.
Qed.

(** C6: [getPriceImpact] is exactly 0 as soon as one of [amountIn],
    [amountOut], [priceIn], [priceOut] is zero or not-a-number, whatever the
    other three are. *)
Theorem getPriceImpact_degenerate
  (rm : RoundingMode) (params : GetPriceImpactParams) :
  (exists x,
      In x [toBigNumber params.(pi_amountIn); toBigNumber params.(pi_amountOut);
            toBigNumber params.(priceIn); toBigNumber params.(priceOut)]
      /\ (isZero x = true \/ isNaN x = true)) ->
  getPriceImpact rm params = zero.
Proof.
  intros (x & Hin & Hx). unfold getPriceImpact.
  assert (Hg : isZero x || isNaN x = true) by (apply orb_true_iff; exact Hx).
  simpl in Hin.
  destruct Hin as [<-|[<-|[<-|[<-|[]]]]];
    apply orb_true_iff in Hg; destruct Hg as [-> | ->];
    rewrite ?orb_true_r, ?orb_true_l; reflexivity.
Qed.

Lemma getPriceImpact_degenerate_witness :
  getPriceImpact DEFAULT_ROUNDING_MODE
    {| pi_amountIn := Types.StringValue (ofZ 5);
       pi_amountOut := Types.StringValue NaN;
       priceIn := Types.NumberValue (ofZ 3);
       priceOut := Types.NumberValue (ofZ 4) |} = Finite false 0 0.
Proof.
  apply getPriceImpact_degenerate.
  exists NaN. split; [simpl; tauto|right; reflexivity].
Defined.

(** C10, as stated, fails: not every explicit zero fee is replaced.  A zero
    passed as a [BigNumber] instance or as a (non-empty) string is truthy,
    [params.fee || DEFAULT_FEE] keeps it, and the swap is computed without
    a fee: for an input of 2 against reserves 1 and 1, at three output
    decimals, the result differs from the one for a fee of 0.003, in either
    rounding mode. *)
Lemma getAmountOut_zero_fee_kept :
  (isZero (toBigNumber (Types.BigNumberValue zero)) = true
   /\ isZero (toBigNumber (Types.StringValue zero)) = true)
  /\ (getAmountOut DEFAULT_ROUNDING_MODE DEFAULT_ROUNDING_MODE
        {| amountIn := Types.StringValue (ofZ 2);
           decimalsIn := 0; decimalsOut := 3;
           reserveIn := Types.NumberValue (ofZ 1);
           reserveOut := Types.NumberValue (ofZ 1);
           fee := Some (Types.BigNumberValue zero) |} = ofZ 667
      /\ getAmountOut DEFAULT_ROUNDING_MODE DEFAULT_ROUNDING_MODE
           {| amountIn := Types.StringValue (ofZ 2);
              decimalsIn := 0; decimalsOut := 3;
              reserveIn := Types.NumberValue (ofZ 1);
              reserveOut := Types.NumberValue (ofZ 1);
              fee := Some (Types.StringValue zero) |} = ofZ 667
      /\ getAmountOut DEFAULT_ROUNDING_MODE DEFAULT_ROUNDING_MODE
           {| amountIn := Types.StringValue (ofZ 2);
              decimalsIn := 0; decimalsOut := 3;
              reserveIn := Types.NumberValue (ofZ 1);
              reserveOut := Types.NumberValue (ofZ 1);
              fee := Some (Types.NumberValue (Finite false 3 (-3))) |}
         = ofZ 666)
  /\ (getAmountOut ROUND_FLOOR ROUND_FLOOR
        {| amountIn := Types.StringValue (ofZ 2);
           decimalsIn := 0; decimalsOut := 3;
           reserveIn := Types.NumberValue (ofZ 1);
           reserveOut := Types.NumberValue (ofZ 1);
           fee := Some (Types.BigNumberValue zero) |} = ofZ 666
      /\ getAmountOut ROUND_FLOOR ROUND_FLOOR
           {| amountIn := Types.StringValue (ofZ 2);
              decimalsIn := 0; decimalsOut := 3;
              reserveIn := Types.NumberValue (ofZ 1);
              reserveOut := Types.NumberValue (ofZ 1);
              fee := Some (Types.StringValue zero) |} = ofZ 666
      /\ getAmountOut ROUND_FLOOR ROUND_FLOOR
           {| amountIn := Types.StringValue (ofZ 2);
              decimalsIn := 0; decimalsOut := 3;
              reserveIn := Types.NumberValue (ofZ 1);
              reserveOut := Types.NumberValue (ofZ 1);
              fee := Some (Types.NumberValue (Finite false 3 (-3))) |}
         = ofZ 665).
Proof. vm_compute. repeat split. Qed.

(** C10, amended: a fee that is falsy, that is the number 0, -0 or NaN or
    the bigint 0, is replaced by [DEFAULT_FEE]: the call returns what the
    same call with a fee of 0.003 returns, and what the call without a fee
    returns.  Every other fee is truthy and is used as the value it
    converts to, a zero passed as a [BigNumber] instance or as a string
    included. *)
Theorem getAmountOut_falsy_fee_is_default
  (rm am : RoundingMode) (v : Types.Number)
  (aIn : Types.Amount) (dIn dOut : Types.Decimals) (rIn rOut : Types.Number) :
  let call (fee : option Types.Number) :=
    getAmountOut rm am
      {| amountIn := aIn; decimalsIn := dIn; decimalsOut := dOut;
         reserveIn := rIn; reserveOut := rOut; Swap.fee := fee |} in
  (Types.truthy v = false ->
   call (Some v) = call (Some (Types.NumberValue (Finite false 3 (-3))))
   /\ call (Some v) = call None)
  /\ (Types.truthy v = true ->
      call (Some v) = call (Some (Types.BigNumberValue (toBigNumber v)))).
Proof.
  intro call. unfold call, getAmountOut.
  cbn [amountIn decimalsIn decimalsOut reserveIn reserveOut fee Types.orElse
       Types.truthy].
  split; intro Hv; rewrite Hv; [split|]; reflexivity.
Qed.

Lemma getAmountOut_falsy_fee_is_default_witness :
  (getAmountOut DEFAULT_ROUNDING_MODE DEFAULT_ROUNDING_MODE
     {| amountIn := Types.StringValue (ofZ 2);
        decimalsIn := 0; decimalsOut := 3;
        reserveIn := Types.NumberValue (ofZ 1);
        reserveOut := Types.NumberValue (ofZ 1);
        fee := Some (Types.NumberValue zero) |} = ofZ 666
   /\ getAmountOut DEFAULT_ROUNDING_MODE DEFAULT_ROUNDING_MODE
        {| amountIn := Types.StringValue (ofZ 2);
           decimalsIn := 0; decimalsOut := 3;
           reserveIn := Types.NumberValue (ofZ 1);
           reserveOut := Types.NumberValue (ofZ 1);
           fee := Some (Types.BigIntValue 0) |} = ofZ 666)
  /\ getAmountOut DEFAULT_ROUNDING_MODE DEFAULT_ROUNDING_MODE
       {| amountIn := Types.StringValue (ofZ 2);
          decimalsIn := 0; decimalsOut := 3;
          reserveIn := Types.NumberValue (ofZ 1);
          reserveOut := Types.NumberValue (ofZ 1);
          fee := Some (Types.StringValue zero) |} = ofZ 667.
Proof.
  split; [split|].
  - pose proof (proj1 (proj1 (getAmountOut_falsy_fee_is_default
                                DEFAULT_ROUNDING_MODE DEFAULT_ROUNDING_MODE
                                (Types.NumberValue zero)
                                (Types.StringValue (ofZ 2)) 0%nat 3%nat
                                (Types.NumberValue (ofZ 1))
                                (Types.NumberValue (ofZ 1))) eq_refl)) as H.
    cbv zeta in H. rewrite H. vm_compute. reflexivity.
  - pose proof (proj1 (proj1 (getAmountOut_falsy_fee_is_default
                                DEFAULT_ROUNDING_MODE DEFAULT_ROUNDING_MODE
                                (Types.BigIntValue 0)
                                (Types.StringValue (ofZ 2)) 0%nat 3%nat
                                (Types.NumberValue (ofZ 1))
                                (Types.NumberValue (ofZ 1))) eq_refl)) as H.
    cbv zeta in H. rewrite H. vm_compute. reflexivity.
  - pose proof (proj2 (getAmountOut_falsy_fee_is_default
                         DEFAULT_ROUNDING_MODE DEFAULT_ROUNDING_MODE
                         (Types.StringValue zero)
                         (Types.StringValue (ofZ 2)) 0%nat 3%nat
                         (Types.NumberValue (ofZ 1))
                         (Types.NumberValue (ofZ 1))) eq_refl) as H.
    cbv zeta in H. rewrite H. vm_compute. reflexivity.
Defined.

(** C2, as stated, fails: with a fee of 2 an input of 20 against reserves 10
    and 5 yields [-100 / -10 = 10], twice the output reserve, in either
    rounding mode; and with reserves 1 and 1, no decimals and fee 0.003, an
    input of [10^30] yields [1 - 1.003e-30], which is rounded to 1, the
    whole output reserve, by the division under the library's default mode,
    and by [applyDecimals] when it rounds to the nearest integer. *)
Lemma getAmountOut_not_below_reserve :
  (positive (ofZ (10 ^ 30)) = true
   /\ positive (ofZ 1) = true
   /\ isLessThan
        (getAmountOut DEFAULT_ROUNDING_MODE DEFAULT_ROUNDING_MODE
           {| amountIn := Types.StringValue (ofZ (10 ^ 30));
              decimalsIn := 0; decimalsOut := 0;
              reserveIn := Types.NumberValue (ofZ 1);
              reserveOut := Types.NumberValue (ofZ 1);
              fee := Some (Types.NumberValue (Finite false 3 (-3))) |})
        (ofZ 1) = false
   /\ isLessThan
        (getAmountOut ROUND_FLOOR ROUND_HALF_UP
           {| amountIn := Types.StringValue (ofZ (10 ^ 30));
              decimalsIn := 0; decimalsOut := 0;
              reserveIn := Types.NumberValue (ofZ 1);
              reserveOut := Types.NumberValue (ofZ 1);
              fee := Some (Types.NumberValue (Finite false 3 (-3))) |})
        (ofZ 1) = false)
  /\ isGreaterThan
       (getAmountOut DEFAULT_ROUNDING_MODE DEFAULT_ROUNDING_MODE
          {| amountIn := Types.StringValue (ofZ 20);
             decimalsIn := 0; decimalsOut := 0;
             reserveIn := Types.NumberValue (ofZ 10);
             reserveOut := Types.NumberValue (ofZ 5);
             fee := Some (Types.NumberValue (ofZ 2)) |})
       (ofZ 5) = true
  /\ isGreaterThan
       (getAmountOut ROUND_FLOOR ROUND_FLOOR
          {| amountIn := Types.StringValue (ofZ 20);
             decimalsIn := 0; decimalsOut := 0;
             reserveIn := Types.NumberValue (ofZ 10);
             reserveOut := Types.NumberValue (ofZ 5);
             fee := Some (Types.NumberValue (ofZ 2)) |})
       (ofZ 5) = true.
Proof. vm_compute. repeat split. Qed.

(** C2, amended: for a positive amount, positive reserves, an output reserve
    with at most twenty decimal places and a fee in [0, 1) (after
    [|| DEFAULT_FEE]), [getAmountOut] is at most the output reserve brought
    to raw units, [applyDecimals reserveOut decimalsOut]; it can reach it. *)
Theorem getAmountOut_at_most_reserve
  (rm am : RoundingMode) (params : GetAmountOutParams) :
  let fee := toBigNumber (Types.orElse params.(fee) DEFAULT_FEE) in
  positive (toBigNumber params.(amountIn)) = true ->
  positive (toBigNumber params.(reserveIn)) = true ->
  positive (toBigNumber params.(reserveOut)) = true ->
  fitsPlaces 20 (toBigNumber params.(reserveOut)) = true ->
  nonnegative fee = true -> isLessThan fee one = true ->
  isLessThanOrEqualTo (getAmountOut rm am params)
    (applyDecimals am (toBigNumber params.(reserveOut)) params.(decimalsOut))
  = true.
Proof.
  intros f HA HrI HrO Hfit Hf Hf1.
  assert (HA' : nonnegative (toBigNumber params.(amountIn)) = true).
  { apply positive_spec in HA as [H1 H2]. apply nonnegative_spec.
    split; [exact H1|now apply Qlt_le_weak]. }
  destruct (getAmountOut_toQ rm am params HA' HrI HrO Hf Hf1) as [Hfin Hval].
  fold f in Hval.
  apply positive_spec in HA as [HAf HA0].
  apply positive_spec in HrI as [HrIf HrI0].
  apply positive_spec in HrO as [HrOf HrO0].
  apply nonnegative_spec in Hf as [Hff Hf0].
  apply (isLessThan_spec f one Hff eq_refl) in Hf1. rewrite toQ_one in Hf1.
  apply isLessThanOrEqualTo_spec;
    [exact Hfin|now apply applyDecimals_finite|].
  rewrite Hval, toQ_applyDecimals by exact HrOf.
  unfold amountOutQ.
  pose proof (pow10_pos (Z.of_nat params.(decimalsIn))) as Hp.
  apply Qround_mono.
  apply Qmult_le_compat_r; [|apply Qlt_le_weak, pow10_pos].
  rewrite <- (Qround_fits rm 20 (toBigNumber params.(reserveOut)) Hfit) at 2.
  apply Qround_mono.
  apply quotient_below_reserve; try assumption.
  apply Qmult_le_0_compat; [|lra].
  apply Qdiv_nonneg; [now apply Qlt_le_weak|exact Hp].
Qed.

Lemma getAmountOut_at_most_reserve_witness :
  isLessThanOrEqualTo
    (getAmountOut DEFAULT_ROUNDING_MODE DEFAULT_ROUNDING_MODE
       {| amountIn := Types.StringValue (ofZ 100);
          decimalsIn := 0; decimalsOut := 0;
          reserveIn := Types.BigIntValue 1000;
          reserveOut := Types.BigIntValue 1000;
          fee := Some (Types.NumberValue (Finite false 3 (-3))) |})
    (applyDecimals DEFAULT_ROUNDING_MODE (ofZ 1000) 0) = true.
Proof.
  apply (getAmountOut_at_most_reserve
           DEFAULT_ROUNDING_MODE DEFAULT_ROUNDING_MODE
           {| amountIn := Types.StringValue (ofZ 100);
              decimalsIn := 0; decimalsOut := 0;
              reserveIn := Types.BigIntValue 1000;
              reserveOut := Types.BigIntValue 1000;
              fee := Some (Types.NumberValue (Finite false 3 (-3))) |});
    reflexivity.
Defined.

(** C3, as stated, fails: with reserves 1000 and 1, no decimals and fee
    0.003, the inputs 1 and 2 both yield 0 once the result is rounded to raw
    units, in either rounding mode; and under the library's default mode,
    with reserves 1 and 1, the inputs [10^30] and [2 * 10^30] both yield 1,
    because both quotients round to 1 at twenty places. *)
Lemma getAmountOut_not_strictly_increasing :
  (isLessThan (ofZ (10 ^ 30)) (ofZ (2 * 10 ^ 30)) = true
   /\ isLessThan
        (getAmountOut DEFAULT_ROUNDING_MODE DEFAULT_ROUNDING_MODE
           {| amountIn := Types.StringValue (ofZ (10 ^ 30));
              decimalsIn := 0; decimalsOut := 0;
              reserveIn := Types.NumberValue (ofZ 1);
              reserveOut := Types.NumberValue (ofZ 1);
              fee := Some (Types.NumberValue (Finite false 3 (-3))) |})
        (getAmountOut DEFAULT_ROUNDING_MODE DEFAULT_ROUNDING_MODE
           {| amountIn := Types.StringValue (ofZ (2 * 10 ^ 30));
              decimalsIn := 0; decimalsOut := 0;
              reserveIn := Types.NumberValue (ofZ 1);
              reserveOut := Types.NumberValue (ofZ 1);
              fee := Some (Types.NumberValue (Finite false 3 (-3))) |})
      = false)
  /\ (isLessThan (ofZ 1) (ofZ 2) = true
      /\ isLessThan
           (getAmountOut DEFAULT_ROUNDING_MODE DEFAULT_ROUNDING_MODE
              {| amountIn := Types.StringValue (ofZ 1);
                 decimalsIn := 0; decimalsOut := 0;
                 reserveIn := Types.NumberValue (ofZ 1000);
                 reserveOut := Types.NumberValue (ofZ 1);
                 fee := Some (Types.NumberValue (Finite false 3 (-3))) |})
           (getAmountOut DEFAULT_ROUNDING_MODE DEFAULT_ROUNDING_MODE
              {| amountIn := Types.StringValue (ofZ 2);
                 decimalsIn := 0; decimalsOut := 0;
                 reserveIn := Types.NumberValue (ofZ 1000);
                 reserveOut := Types.NumberValue (ofZ 1);
                 fee := Some (Types.NumberValue (Finite false 3 (-3))) |})
         = false
      /\ isLessThan
           (getAmountOut ROUND_FLOOR ROUND_FLOOR
              {| amountIn := Types.StringValue (ofZ 1);
                 decimalsIn := 0; decimalsOut := 0;
                 reserveIn := Types.NumberValue (ofZ 1000);
                 reserveOut := Types.NumberValue (ofZ 1);
                 fee := Some (Types.NumberValue (Finite false 3 (-3))) |})
           (getAmountOut ROUND_FLOOR ROUND_FLOOR
              {| amountIn := Types.StringValue (ofZ 2);
                 decimalsIn := 0; decimalsOut := 0;
                 reserveIn := Types.NumberValue (ofZ 1000);
                 reserveOut := Types.NumberValue (ofZ 1);
                 fee := Some (Types.NumberValue (Finite false 3 (-3))) |})
         = false).
Proof. vm_compute. repeat split. Qed.

(** C3, amended: for fixed positive reserves, fixed decimals and a fixed fee
    in [0, 1), [getAmountOut] is non-decreasing in the amount: for
    non-negative amounts [a <= b], the result for [a] is at most the result
    for [b]. *)
Theorem getAmountOut_monotone
  (rm am : RoundingMode)
  (a b : Types.Amount) (dIn dOut : Types.Decimals) (rIn rOut : Types.Number)
  (fee : option Types.Number) :
  let f := toBigNumber (Types.orElse fee DEFAULT_FEE) in
  nonnegative (toBigNumber a) = true ->
  nonnegative (toBigNumber b) = true ->
  isLessThanOrEqualTo (toBigNumber a) (toBigNumber b) = true ->
  positive (toBigNumber rIn) = true ->
  positive (toBigNumber rOut) = true ->
  nonnegative f = true -> isLessThan f one = true ->
  isLessThanOrEqualTo
    (getAmountOut rm am
       {| amountIn := a; decimalsIn := dIn; decimalsOut := dOut;
          reserveIn := rIn; reserveOut := rOut; Swap.fee := fee |})
    (getAmountOut rm am
       {| amountIn := b; decimalsIn := dIn; decimalsOut := dOut;
          reserveIn := rIn; reserveOut := rOut; Swap.fee := fee |})
  = true.
Proof.
  intros f Ha Hb Hab HrI HrO Hf Hf1.
  destruct (getAmountOut_toQ rm am
              {| amountIn := a; decimalsIn := dIn; decimalsOut := dOut;
                 reserveIn := rIn; reserveOut := rOut; Swap.fee := fee |}
              Ha HrI HrO Hf Hf1) as [Hfa Hva].
  destruct (getAmountOut_toQ rm am
              {| amountIn := b; decimalsIn := dIn; decimalsOut := dOut;
                 reserveIn := rIn; reserveOut := rOut; Swap.fee := fee |}
              Hb HrI HrO Hf Hf1) as [Hfb Hvb].
  cbn [amountIn decimalsIn decimalsOut reserveIn reserveOut Swap.fee]
    in Hva, Hvb.
  fold f in Hva, Hvb.
  apply nonnegative_spec in Ha as [Haf Ha0].
  apply nonnegative_spec in Hb as [Hbf Hb0].
  apply (isLessThanOrEqualTo_spec _ _ Haf Hbf) in Hab.
  apply positive_spec in HrI as [HrIf HrI0].
  apply positive_spec in HrO as [HrOf HrO0].
  apply nonnegative_spec in Hf as [Hff Hf0].
  apply (isLessThan_spec f one Hff eq_refl) in Hf1. rewrite toQ_one in Hf1.
  apply isLessThanOrEqualTo_spec; [exact Hfa|exact Hfb|].
  rewrite Hva, Hvb.
  pose proof (pow10_pos (Z.of_nat dIn)) as Hp.
  apply amountOutQ_mono; try assumption.
  - now apply Qdiv_nonneg.
  - unfold Qdiv. apply Qmult_le_compat_r; [exact Hab|].
    now apply Qlt_le_weak, Qinv_lt_0_compat.
Qed.

Lemma getAmountOut_monotone_witness :
  isLessThanOrEqualTo
    (getAmountOut DEFAULT_ROUNDING_MODE DEFAULT_ROUNDING_MODE
       {| amountIn := Types.StringValue (ofZ 100);
          decimalsIn := 0; decimalsOut := 0;
          reserveIn := Types.BigIntValue 1000;
          reserveOut := Types.BigIntValue 1000; fee := None |})
    (getAmountOut DEFAULT_ROUNDING_MODE DEFAULT_ROUNDING_MODE
       {| amountIn := Types.StringValue (ofZ 200);
          decimalsIn := 0; decimalsOut := 0;
          reserveIn := Types.BigIntValue 1000;
          reserveOut := Types.BigIntValue 1000; fee := None |})
  = true.
Proof.
  apply (getAmountOut_monotone DEFAULT_ROUNDING_MODE DEFAULT_ROUNDING_MODE
           (Types.StringValue (ofZ 100)) (Types.StringValue (ofZ 200))
           0%nat 0%nat (Types.BigIntValue 1000) (Types.BigIntValue 1000) None);
    reflexivity.
Defined.

(** C7, as stated, fails in its second half for inputs that are not
    positive.  For [amountIn = -1], [amountOut = 1] and both prices 1 the
    impact is -200, strictly negative, although the value out, 1, is not
    less than the value in, -1; this does not depend on the rounding
    mode. *)
Lemma getPriceImpact_not_strictly_negative :
  (forallb (fun x => negb (isZero x) && negb (isNaN x))
     [ofZ (-1); ofZ 1; ofZ 1; ofZ 1] = true
   /\ isLessThan
        (multipliedBy (ofZ 1) (ofZ 1))
        (multipliedBy (ofZ (-1)) (ofZ 1)) = false)
  /\ (getPriceImpact DEFAULT_ROUNDING_MODE
        {| pi_amountIn := Types.StringValue (ofZ (-1));
           pi_amountOut := Types.StringValue (ofZ 1);
           priceIn := Types.NumberValue (ofZ 1);
           priceOut := Types.NumberValue (ofZ 1) |} = ofZ (-200)
      /\ getPriceImpact ROUND_FLOOR
           {| pi_amountIn := Types.StringValue (ofZ (-1));
              pi_amountOut := Types.StringValue (ofZ 1);
              priceIn := Types.NumberValue (ofZ 1);
              priceOut := Types.NumberValue (ofZ 1) |} = ofZ (-200)
      /\ isLessThan (ofZ (-200)) zero = true).
Proof. vm_compute. repeat split. Qed.

(** C7, amended: for non-zero, numeric inputs [getPriceImpact] returns
    [-(1 - (amountOut * priceOut) / (amountIn * priceIn)) * 100] with the
    quotient rounded to twenty decimal places in the configured mode.  For
    positive inputs, the result is strictly negative only when the value out
    is less than the value in, and it is never positive when the value out
    is less than the value in; and when quotients are rounded down, the mode
    the spec names, it is strictly negative exactly when the value out is
    less than the value in. *)
Theorem getPriceImpact_sign
  (rm : RoundingMode) (params : GetPriceImpactParams) :
  let amountIn := toBigNumber params.(pi_amountIn) in
  let amountOut := toBigNumber params.(pi_amountOut) in
  let priceIn := toBigNumber params.(priceIn) in
  let priceOut := toBigNumber params.(priceOut) in
  let valueOut := multipliedBy amountOut priceOut in
  let valueIn := multipliedBy amountIn priceIn in
  ((forall x, In x [amountIn; amountOut; priceIn; priceOut] ->
              isZero x = false /\ isNaN x = false) ->
   getPriceImpact rm params
   = negated
       (multipliedBy (minus one (dividedBy rm valueOut valueIn)) (ofZ 100)))
  /\ ((forall x, In x [amountIn; amountOut; priceIn; priceOut] ->
                 positive x = true) ->
      (isLessThan (getPriceImpact rm params) zero = true ->
       isLessThan valueOut valueIn = true)
      /\ (isLessThan valueOut valueIn = true ->
          isLessThanOrEqualTo (getPriceImpact rm params) zero = true)
      /\ (isLessThan (getPriceImpact SPEC_ROUNDING_MODE params) zero = true
          <-> isLessThan valueOut valueIn = true)).
Proof.
  intros aIn aOut pIn pOut vO vI.
  assert (Hform :
            forall m,
              (forall x, In x [aIn; aOut; pIn; pOut] ->
                         isZero x = false /\ isNaN x = false) ->
              getPriceImpact m params
              = negated
                  (multipliedBy (minus one (dividedBy m vO vI)) (ofZ 100))).
  { intros m H.
    destruct (H aIn ltac:(simpl; tauto)) as [Z1 N1].
    destruct (H aOut ltac:(simpl; tauto)) as [Z2 N2].
    destruct (H pIn ltac:(simpl; tauto)) as [Z3 N3].
    destruct (H pOut ltac:(simpl; tauto)) as [Z4 N4].
    unfold getPriceImpact. fold aIn aOut pIn pOut.
    rewrite Z1, N1, Z2, N2, Z3, N3, Z4, N4. cbn [orb].
    unfold Price.getByAmount, toString. rewrite Z1, Z2. reflexivity. }
  split; [apply Hform|].
  intro Hpos.
  assert (Hnd : forall x, In x [aIn; aOut; pIn; pOut] ->
                          isZero x = false /\ isNaN x = false)
    by (intros x Hx; apply positive_not_degenerate, Hpos, Hx).
  rewrite !Hform by exact Hnd.
  destruct (proj1 (positive_spec aIn) (Hpos aIn ltac:(simpl; tauto)))
    as [F1 P1].
  destruct (proj1 (positive_spec aOut) (Hpos aOut ltac:(simpl; tauto)))
    as [F2 P2].
  destruct (proj1 (positive_spec pIn) (Hpos pIn ltac:(simpl; tauto)))
    as [F3 P3].
  destruct (proj1 (positive_spec pOut) (Hpos pOut ltac:(simpl; tauto)))
    as [F4 P4].
  assert (FvO : isFinite vO = true) by (now apply multipliedBy_finite).
  assert (FvI : isFinite vI = true) by (now apply multipliedBy_finite).
  assert (HvO : (0 < toQ vO)%Q).
  { unfold vO. rewrite toQ_multipliedBy by assumption.
    now apply Qmult_lt_0_compat. }
  assert (HvI : (0 < toQ vI)%Q).
  { unfold vI. rewrite toQ_multipliedBy by assumption.
    now apply Qmult_lt_0_compat. }
  assert (ZvI : isZero vI = false)
    by (apply isZero_false_toQ; [exact FvI|lra]).
  set (r := fun m =>
              negated (multipliedBy (minus one (dividedBy m vO vI)) (ofZ 100))).
  assert (Fr : forall m, isFinite (r m) = true).
  { intro m. unfold r. rewrite negated_finite.
    apply multipliedBy_finite; [|apply ofZ_finite].
    apply minus_finite; [reflexivity|now apply dividedBy_finite]. }
  assert (Hr : forall m,
             (toQ (r m) == - ((1 - Qround m 20 (toQ vO / toQ vI)) * 100))%Q).
  { intro m. unfold r. rewrite toQ_negated.
    assert (Fq : isFinite (dividedBy m vO vI) = true)
      by (now apply dividedBy_finite).
    assert (Fm : isFinite (minus one (dividedBy m vO vI)) = true)
      by (now apply minus_finite).
    rewrite toQ_multipliedBy by (try apply ofZ_finite; exact Fm).
    rewrite toQ_minus by (try reflexivity; exact Fq).
    rewrite toQ_dividedBy by assumption.
    rewrite toQ_one, toQ_ofZ. reflexivity. }
  fold (r rm). fold (r SPEC_ROUNDING_MODE).
  assert (Hlt : isLessThan vO vI = true <-> (toQ vO / toQ vI < 1)%Q).
  { rewrite (isLessThan_spec vO vI FvO FvI). split; intro H.
    - apply Qlt_shift_div_r; [exact HvI|lra].
    - apply (Qmult_lt_r _ _ (toQ vI) HvI) in H.
      assert (E : (toQ vO / toQ vI * toQ vI == toQ vO)%Q) by (field; lra).
      rewrite E in H. lra. }
  split; [|split].
  - intro H. apply Hlt.
    apply (isLessThan_spec (r rm) zero (Fr rm) eq_refl) in H.
    rewrite toQ_zero, Hr in H.
    apply (Qround_lt_1 rm). lra.
  - intro H. apply Hlt in H.
    apply (isLessThanOrEqualTo_spec (r rm) zero (Fr rm) eq_refl).
    rewrite toQ_zero, Hr.
    pose proof (Qround_le_1 rm _ (Qlt_le_weak _ _ H)). lra.
  - rewrite Hlt.
    rewrite (isLessThan_spec (r SPEC_ROUNDING_MODE) zero
               (Fr SPEC_ROUNDING_MODE) eq_refl).
    rewrite toQ_zero, Hr. change SPEC_ROUNDING_MODE with ROUND_FLOOR.
    cbn [Qround]. split; intro H.
    + apply (Qround_lt_1 ROUND_FLOOR). cbn [Qround]. lra.
    + pose proof (Qdown_lt_1 _ H). lra.
Qed.

Lemma getPriceImpact_sign_witness :
  getPriceImpact SPEC_ROUNDING_MODE
    {| pi_amountIn := Types.StringValue (ofZ 100);
       pi_amountOut := Types.StringValue (ofZ 90);
       priceIn := Types.BigIntValue 1;
       priceOut := Types.BigIntValue 1 |} = Finite true 1 1
  /\ isLessThan
       (getPriceImpact SPEC_ROUNDING_MODE
          {| pi_amountIn := Types.StringValue (ofZ 100);
             pi_amountOut := Types.StringValue (ofZ 90);
             priceIn := Types.BigIntValue 1;
             priceOut := Types.BigIntValue 1 |})
       zero = true.
Proof.
  pose proof (getPriceImpact_sign SPEC_ROUNDING_MODE
                {| pi_amountIn := Types.StringValue (ofZ 100);
                   pi_amountOut := Types.StringValue (ofZ 90);
                   priceIn := Types.BigIntValue 1;
                   priceOut := Types.BigIntValue 1 |}) as [H1 H2].
  cbv zeta in H1, H2.
  assert (Hnd : forall x,
             In x [ofZ 100; ofZ 90; ofZ 1; ofZ 1] ->
             isZero x = false /\ isNaN x = false).
  { intros x [<-|[<-|[<-|[<-|[]]]]]; split; reflexivity. }
  assert (Hpos : forall x,
             In x [ofZ 100; ofZ 90; ofZ 1; ofZ 1] -> positive x = true).
  { intros x [<-|[<-|[<-|[<-|[]]]]]; reflexivity. }
  specialize (H1 Hnd). destruct (H2 Hpos) as (_ & _ & H3).
  assert (Hlt : isLessThan (multipliedBy (ofZ 90) (ofZ 1))
                  (multipliedBy (ofZ 100) (ofZ 1)) = true)
    by (vm_compute; reflexivity).
  apply (proj2 H3) in Hlt.
  split.
  - vm_compute in H1. vm_compute. exact H1.
  - exact Hlt.
Defined.

(** Rounded to the nearest, as under the library's default mode, a quotient
    within half a unit of the twentieth place under 1 becomes 1: for
    [amountIn = 10^21], [amountOut = 10^21 - 1] and both prices 1 the impact
    is then a (negative) zero although the value out is the smaller one;
    rounded down it is [-1e-18]. *)
Remark getPriceImpact_default_mode :
  getPriceImpact DEFAULT_ROUNDING_MODE
    {| pi_amountIn := Types.StringValue (ofZ (10 ^ 21));
       pi_amountOut := Types.StringValue (ofZ (10 ^ 21 - 1));
       priceIn := Types.NumberValue (ofZ 1);
       priceOut := Types.NumberValue (ofZ 1) |} = Finite true 0 0
  /\ getPriceImpact ROUND_FLOOR
       {| pi_amountIn := Types.StringValue (ofZ (10 ^ 21));
          pi_amountOut := Types.StringValue (ofZ (10 ^ 21 - 1));
          priceIn := Types.NumberValue (ofZ 1);
          priceOut := Types.NumberValue (ofZ 1) |} = Finite true 1 (-18).
Proof. vm_compute. split; reflexivity. Qed.

End SwapSpec.

(** ** Further properties of [src/math/swap.ts] *)

Module SwapProperties.

Import BigNumber Semantics BigNumberFacts RoundingFacts Utils Swap.

Lemma isZero_removeDecimals (amount : Types.Amount) (d : Types.Decimals) :
  isZero (removeDecimals amount d) = isZero (toBigNumber amount).
Proof.
  unfold removeDecimals. destruct (toBigNumber amount); try reflexivity.
  apply isZero_make.
Qed.

(** X1: a zero amount is answered by 0 before any arithmetic, whatever the
    decimals, the reserves and the fee are, not-a-number included. *)
Theorem getAmountOut_zero_amount
  (rm am : RoundingMode) (params : GetAmountOutParams) :
  isZero (toBigNumber params.(amountIn)) = true ->
  getAmountOut rm am params = zero.
Proof.
  intro H. unfold getAmountOut.
  rewrite isZero_removeDecimals, H. reflexivity.
Qed.

Lemma getAmountOut_zero_amount_witness :
  getAmountOut DEFAULT_ROUNDING_MODE DEFAULT_ROUNDING_MODE
    {| amountIn := Types.StringValue (Finite true 0 0);
       decimalsIn := 8; decimalsOut := 8;
       reserveIn := Types.StringValue NaN;
       reserveOut := Types.BigNumberValue (Infinity false);
       fee := Some (Types.StringValue NaN) |} = Finite false 0 0.
Proof. apply getAmountOut_zero_amount. reflexivity. Defined.

(** X2: for a non-negative amount, positive reserves and a fee in [0, 1),
    the result is a finite, non-negative whole number of raw units. *)
Theorem getAmountOut_whole
  (rm am : RoundingMode) (params : GetAmountOutParams) :
  let fee := toBigNumber (Types.orElse params.(fee) DEFAULT_FEE) in
  nonnegative (toBigNumber params.(amountIn)) = true ->
  positive (toBigNumber params.(reserveIn)) = true ->
  positive (toBigNumber params.(reserveOut)) = true ->
  nonnegative fee = true -> isLessThan fee one = true ->
  nonnegative (getAmountOut rm am params) = true
  /\ decimalPlaces (getAmountOut rm am params) = Some 0%Z.
Proof.
  intros f HA HrI HrO Hf Hf1.
  destruct (SwapSpec.getAmountOut_toQ rm am params HA HrI HrO Hf Hf1)
    as [Hfin Hval].
  split.
  - apply nonnegative_spec. split; [exact Hfin|].
    rewrite Hval. unfold amountOutQ.
    apply nonnegative_spec in HA as [HAf HA0].
    apply positive_spec in HrI as [HrIf HrI0].
    apply positive_spec in HrO as [HrOf HrO0].
    apply nonnegative_spec in Hf as [Hff Hf0].
    apply (isLessThan_spec _ one Hff eq_refl) in Hf1. rewrite toQ_one in Hf1.
    fold f. pose proof (pow10_pos (Z.of_nat params.(decimalsIn))) as Hp.
    pose proof (pow10_pos (Z.of_nat params.(decimalsOut))) as Hp'.
    assert (Hx : (0 <= toQ (toBigNumber params.(amountIn))
                       / 10 ^ Z.of_nat params.(decimalsIn))%Q)
      by (now apply Qdiv_nonneg).
    apply Qround_nonneg_le. apply Qmult_le_0_compat; [|lra].
    apply Qround_nonneg_le. apply Qdiv_nonneg; [|nra].
    apply Qmult_le_0_compat; [|lra]. apply Qmult_le_0_compat; lra.
  - revert Hfin. unfold getAmountOut. cbv zeta.
    destruct (isZero (removeDecimals _ _)); [reflexivity|].
    unfold applyDecimals. intro Hfin.
    apply decimalPlaces_dp0. exact (dp_finite_inv _ _ _ Hfin).
Qed.

Lemma getAmountOut_whole_witness :
  nonnegative
    (getAmountOut DEFAULT_ROUNDING_MODE DEFAULT_ROUNDING_MODE
       {| amountIn := Types.StringValue (ofZ 100);
          decimalsIn := 0; decimalsOut := 6;
          reserveIn := Types.NumberValue (ofZ 1000);
          reserveOut := Types.NumberValue (ofZ 1000); fee := None |}) = true
  /\ decimalPlaces
       (getAmountOut DEFAULT_ROUNDING_MODE DEFAULT_ROUNDING_MODE
          {| amountIn := Types.StringValue (ofZ 100);
             decimalsIn := 0; decimalsOut := 6;
             reserveIn := Types.NumberValue (ofZ 1000);
             reserveOut := Types.NumberValue (ofZ 1000); fee := None |})
     = Some 0%Z.
Proof.
  apply (getAmountOut_whole DEFAULT_ROUNDING_MODE DEFAULT_ROUNDING_MODE
           {| amountIn := Types.StringValue (ofZ 100);
              decimalsIn := 0; decimalsOut := 6;
              reserveIn := Types.NumberValue (ofZ 1000);
              reserveOut := Types.NumberValue (ofZ 1000); fee := None |});
    reflexivity.
Defined.

Lemma quotient_reserves_mono (w rIn rIn' rOut rOut' : Q) :
  (0 <= w -> 0 < rIn -> rIn <= rIn' -> 0 <= rOut' -> rOut' <= rOut ->
   w * rOut' / (rIn' + w) <= w * rOut / (rIn + w))%Q.
Proof.
  intros Hw HrI HrI' HrO' HrO.
  apply Qle_shift_div_l; [lra|].
  assert (E : (w * rOut' / (rIn' + w) * (rIn + w)
               == w * rOut' * (rIn + w) / (rIn' + w))%Q) by (field; lra).
  rewrite E. apply Qle_shift_div_r; [lra|].
  assert (H1 : (0 <= w * (rOut - rOut') * (rIn' + w))%Q)
    by (repeat apply Qmult_le_0_compat; lra).
  assert (H2 : (0 <= w * rOut' * (rIn' - rIn))%Q)
    by (repeat apply Qmult_le_0_compat; lra).
  nra.
Qed.

(** X3: for a non-negative amount and positive reserves, a higher fee in
    effect never yields more output.  The fee in effect is the fee after
    [|| DEFAULT_FEE], so a fee passed as the number 0 counts as 0.003; both
    fees in effect are taken in [0, 1). *)
Theorem getAmountOut_fee_monotone (rm am : RoundingMode)
  (aIn : Types.Amount) (dIn dOut : Types.Decimals) (rIn rOut : Types.Number)
  (fee1 fee2 : option Types.Number) :
  let f1 := toBigNumber (Types.orElse fee1 DEFAULT_FEE) in
  let f2 := toBigNumber (Types.orElse fee2 DEFAULT_FEE) in
  nonnegative (toBigNumber aIn) = true ->
  positive (toBigNumber rIn) = true ->
  positive (toBigNumber rOut) = true ->
  nonnegative f1 = true -> nonnegative f2 = true ->
  isLessThanOrEqualTo f1 f2 = true -> isLessThan f2 one = true ->
  isLessThanOrEqualTo
    (getAmountOut rm am
       {| amountIn := aIn; decimalsIn := dIn; decimalsOut := dOut;
          reserveIn := rIn; reserveOut := rOut; fee := fee2 |})
    (getAmountOut rm am
       {| amountIn := aIn; decimalsIn := dIn; decimalsOut := dOut;
          reserveIn := rIn; reserveOut := rOut; fee := fee1 |})
  = true.
Proof.
  intros f1 f2 HA HrI HrO Hf1 Hf2 Hle Hlt.
  pose proof Hf1 as Hf1'. pose proof Hf2 as Hf2'.
  apply nonnegative_spec in Hf1' as [F1 P1].
  apply nonnegative_spec in Hf2' as [F2 P2].
  apply (isLessThanOrEqualTo_spec f1 f2 F1 F2) in Hle.
  pose proof Hlt as Hlt'.
  apply (isLessThan_spec f2 one F2 eq_refl) in Hlt'.
  rewrite toQ_one in Hlt'.
  assert (Hlt1 : isLessThan f1 one = true).
  { apply (isLessThan_spec f1 one F1 eq_refl). rewrite toQ_one. lra. }
  destruct (SwapSpec.getAmountOut_toQ rm am
              {| amountIn := aIn; decimalsIn := dIn; decimalsOut := dOut;
                 reserveIn := rIn; reserveOut := rOut; fee := fee1 |}
              HA HrI HrO Hf1 Hlt1) as [Fa Va].
  destruct (SwapSpec.getAmountOut_toQ rm am
              {| amountIn := aIn; decimalsIn := dIn; decimalsOut := dOut;
                 reserveIn := rIn; reserveOut := rOut; fee := fee2 |}
              HA HrI HrO Hf2 Hlt) as [Fb Vb].
  cbn [amountIn decimalsIn decimalsOut reserveIn reserveOut fee] in Va, Vb.
  fold f1 in Va. fold f2 in Vb.
  apply nonnegative_spec in HA as [HAf HA0].
  apply positive_spec in HrI as [HrIf HrI0].
  apply positive_spec in HrO as [HrOf HrO0].
  apply isLessThanOrEqualTo_spec; [exact Fb|exact Fa|].
  rewrite Va, Vb. unfold amountOutQ.
  pose proof (pow10_pos (Z.of_nat dIn)) as Hp.
  assert (Hx : (0 <= toQ (toBigNumber aIn) / 10 ^ Z.of_nat dIn)%Q)
    by (now apply Qdiv_nonneg).
  apply Qround_mono.
  apply Qmult_le_compat_r; [|apply Qlt_le_weak, pow10_pos].
  apply Qround_mono.
  apply quotient_mono; try assumption; nra.
Qed.

Lemma getAmountOut_fee_monotone_witness :
  isLessThanOrEqualTo
    (getAmountOut DEFAULT_ROUNDING_MODE DEFAULT_ROUNDING_MODE
       {| amountIn := Types.StringValue (ofZ 100);
          decimalsIn := 0; decimalsOut := 0;
          reserveIn := Types.NumberValue (ofZ 1000);
          reserveOut := Types.NumberValue (ofZ 1000);
          fee := Some (Types.NumberValue (Finite false 3 (-1))) |})
    (getAmountOut DEFAULT_ROUNDING_MODE DEFAULT_ROUNDING_MODE
       {| amountIn := Types.StringValue (ofZ 100);
          decimalsIn := 0; decimalsOut := 0;
          reserveIn := Types.NumberValue (ofZ 1000);
          reserveOut := Types.NumberValue (ofZ 1000); fee := None |})
  = true.
Proof.
  apply (getAmountOut_fee_monotone DEFAULT_ROUNDING_MODE DEFAULT_ROUNDING_MODE
           (Types.StringValue (ofZ 100)) 0%nat 0%nat
           (Types.NumberValue (ofZ 1000)) (Types.NumberValue (ofZ 1000))
           None (Some (Types.NumberValue (Finite false 3 (-1)))));
    reflexivity.
Defined.

(** X4: for a non-negative amount and a fee in [0, 1), a pool with no more
    input reserve and no less output reserve never yields less output. *)
Theorem getAmountOut_reserves_monotone (rm am : RoundingMode)
  (aIn : Types.Amount) (dIn dOut : Types.Decimals)
  (rIn rIn' rOut rOut' : Types.Number) (fee : option Types.Number) :
  let f := toBigNumber (Types.orElse fee DEFAULT_FEE) in
  nonnegative (toBigNumber aIn) = true ->
  positive (toBigNumber rIn) = true ->
  positive (toBigNumber rIn') = true ->
  positive (toBigNumber rOut) = true ->
  positive (toBigNumber rOut') = true ->
  isLessThanOrEqualTo (toBigNumber rIn) (toBigNumber rIn') = true ->
  isLessThanOrEqualTo (toBigNumber rOut') (toBigNumber rOut) = true ->
  nonnegative f = true -> isLessThan f one = true ->
  isLessThanOrEqualTo
    (getAmountOut rm am
       {| amountIn := aIn; decimalsIn := dIn; decimalsOut := dOut;
          reserveIn := rIn'; reserveOut := rOut'; Swap.fee := fee |})
    (getAmountOut rm am
       {| amountIn := aIn; decimalsIn := dIn; decimalsOut := dOut;
          reserveIn := rIn; reserveOut := rOut; Swap.fee := fee |})
  = true.
Proof.
  intros f HA HrI HrI' HrO HrO' HleI HleO Hf Hf1.
  destruct (SwapSpec.getAmountOut_toQ rm am
              {| amountIn := aIn; decimalsIn := dIn; decimalsOut := dOut;
                 reserveIn := rIn; reserveOut := rOut; Swap.fee := fee |}
              HA HrI HrO Hf Hf1) as [Fa Va].
  destruct (SwapSpec.getAmountOut_toQ rm am
              {| amountIn := aIn; decimalsIn := dIn; decimalsOut := dOut;
                 reserveIn := rIn'; reserveOut := rOut'; Swap.fee := fee |}
              HA HrI' HrO' Hf Hf1) as [Fb Vb].
  cbn [amountIn decimalsIn decimalsOut reserveIn reserveOut Swap.fee]
    in Va, Vb.
  fold f in Va, Vb.
  apply nonnegative_spec in HA as [HAf HA0].
  apply positive_spec in HrI as [HrIf HrI0].
  apply positive_spec in HrI' as [HrIf' HrI0'].
  apply positive_spec in HrO as [HrOf HrO0].
  apply positive_spec in HrO' as [HrOf' HrO0'].
  apply (isLessThanOrEqualTo_spec _ _ HrIf HrIf') in HleI.
  apply (isLessThanOrEqualTo_spec _ _ HrOf' HrOf) in HleO.
  apply nonnegative_spec in Hf as [Hff Hf0].
  apply (isLessThan_spec f one Hff eq_refl) in Hf1. rewrite toQ_one in Hf1.
  apply isLessThanOrEqualTo_spec; [exact Fb|exact Fa|].
  rewrite Va, Vb. unfold amountOutQ.
  pose proof (pow10_pos (Z.of_nat dIn)) as Hp.
  assert (Hx : (0 <= toQ (toBigNumber aIn) / 10 ^ Z.of_nat dIn)%Q)
    by (now apply Qdiv_nonneg).
  apply Qround_mono.
  apply Qmult_le_compat_r; [|apply Qlt_le_weak, pow10_pos].
  apply Qround_mono.
  apply quotient_reserves_mono; try assumption; nra.
Qed.

Lemma getAmountOut_reserves_monotone_witness :
  isLessThanOrEqualTo
    (getAmountOut DEFAULT_ROUNDING_MODE DEFAULT_ROUNDING_MODE
       {| amountIn := Types.StringValue (ofZ 100);
          decimalsIn := 0; decimalsOut := 0;
          reserveIn := Types.NumberValue (ofZ 2000);
          reserveOut := Types.NumberValue (ofZ 500); fee := None |})
    (getAmountOut DEFAULT_ROUNDING_MODE DEFAULT_ROUNDING_MODE
       {| amountIn := Types.StringValue (ofZ 100);
          decimalsIn := 0; decimalsOut := 0;
          reserveIn := Types.NumberValue (ofZ 1000);
          reserveOut := Types.NumberValue (ofZ 1000); fee := None |})
  = true.
Proof.
  apply (getAmountOut_reserves_monotone
           DEFAULT_ROUNDING_MODE DEFAULT_ROUNDING_MODE
           (Types.StringValue (ofZ 100)) 0%nat 0%nat
           (Types.NumberValue (ofZ 1000)) (Types.NumberValue (ofZ 2000))
           (Types.NumberValue (ofZ 1000)) (Types.NumberValue (ofZ 500))
           None);
    reflexivity.
Defined.

(** X5: for a non-negative amount, positive reserves and a fee in effect
    (after [|| DEFAULT_FEE]) in [0, 1), the result stays close to the exact
    constant-product output in raw units,
    [x (1 - fee) reserveOut / (reserveIn + x (1 - fee)) * 10^decimalsOut]
    with [x = amountIn / 10^decimalsIn]: whatever the two roundings are, it
    lies less than [1 + 1e-20 * 10^decimalsOut] under it and at most
    [1/2 + 5e-21 * 10^decimalsOut] above it, and when both round down it is
    never above it. *)
Theorem getAmountOut_accuracy
  (rm am : RoundingMode) (params : GetAmountOutParams) :
  let fee := toBigNumber (Types.orElse params.(fee) DEFAULT_FEE) in
  let x := (toQ (toBigNumber params.(amountIn))
            / 10 ^ Z.of_nat params.(decimalsIn))%Q in
  let exact :=
    (x * (1 - toQ fee) * toQ (toBigNumber params.(reserveOut))
     / (toQ (toBigNumber params.(reserveIn)) + x * (1 - toQ fee))
     * 10 ^ Z.of_nat params.(decimalsOut))%Q in
  let t := (10 ^ Z.of_nat params.(decimalsOut))%Q in
  nonnegative (toBigNumber params.(amountIn)) = true ->
  positive (toBigNumber params.(reserveIn)) = true ->
  positive (toBigNumber params.(reserveOut)) = true ->
  nonnegative fee = true -> isLessThan fee one = true ->
  (exact - (1 + ulp * t) < toQ (getAmountOut rm am params)
   /\ toQ (getAmountOut rm am params)
      <= exact + ((1 # 2) + (1 # 2) * ulp * t)
   /\ toQ (getAmountOut ROUND_FLOOR ROUND_FLOOR params) <= exact)%Q.
Proof.
  intros f x exact t HA HrI HrO Hf Hf1.
  assert (Hval : forall m a,
             (toQ (getAmountOut m a params)
              == Qround a 0
                   (Qround m 20
                      (x * (1 - toQ f) * toQ (toBigNumber params.(reserveOut))
                       / (toQ (toBigNumber params.(reserveIn))
                          + x * (1 - toQ f))) * t))%Q).
  { intros m a.
    destruct (SwapSpec.getAmountOut_toQ m a params HA HrI HrO Hf Hf1)
      as [_ Hval].
    exact Hval. }
  pose proof (pow10_pos (Z.of_nat params.(decimalsOut))) as Hp'. fold t in Hp'.
  set (q := (x * (1 - toQ f) * toQ (toBigNumber params.(reserveOut))
             / (toQ (toBigNumber params.(reserveIn)) + x * (1 - toQ f)))%Q)
    in *.
  assert (Hex : (exact == q * t)%Q) by reflexivity.
  rewrite !Hval, Hex.
  pose proof (Qround_upper rm 20 q) as Hu.
  pose proof (Qround_lower rm 20 q) as Hl.
  pose proof (Qround_upper am 0 (Qround rm 20 q * t)) as Hu0.
  pose proof (Qround_lower am 0 (Qround rm 20 q * t)) as Hl0.
  change ((1 # 2) / 10 ^ 0)%Q with (1 # 2)%Q in Hu0.
  change (1 / 10 ^ 0)%Q with 1%Q in Hl0.
  fold ulp in Hl.
  assert (Eu : ((1 # 2) / 10 ^ 20 == (1 # 2) * ulp)%Q)
    by (unfold ulp; field; pose proof (pow10_pos 20); lra).
  rewrite Eu in Hu.
  set (r := Qround rm 20 q) in *.
  assert (H1 : (r * t <= (q + (1 # 2) * ulp) * t)%Q)
    by (apply Qmult_le_compat_r; lra).
  assert (H2 : ((q - ulp) * t < r * t)%Q)
    by (apply Qmult_lt_compat_r; lra).
  split; [lra|]. split; [lra|].
  cbn [Qround].
  pose proof (Qdown_le 0 (Qdown 20 q * t)) as D0.
  pose proof (Qdown_le 20 q) as D.
  assert (H3 : (Qdown 20 q * t <= q * t)%Q)
    by (apply Qmult_le_compat_r; lra).
  lra.
Qed.

Lemma getAmountOut_accuracy_witness :
  (toQ (getAmountOut ROUND_FLOOR ROUND_FLOOR
          {| amountIn := Types.StringValue (ofZ 100);
             decimalsIn := 0%nat; decimalsOut := 0%nat;
             reserveIn := Types.NumberValue (ofZ 1000);
             reserveOut := Types.NumberValue (ofZ 1000); fee := None |})
   <= 100 * (1 - (3 # 1000)) * 1000 / (1000 + 100 * (1 - (3 # 1000))))%Q.
Proof.
  pose proof (getAmountOut_accuracy ROUND_FLOOR ROUND_FLOOR
                {| amountIn := Types.StringValue (ofZ 100);
                   decimalsIn := 0%nat; decimalsOut := 0%nat;
                   reserveIn := Types.NumberValue (ofZ 1000);
                   reserveOut := Types.NumberValue (ofZ 1000); fee := None |}
                eq_refl eq_refl eq_refl eq_refl eq_refl) as (_ & _ & H).
  vm_compute in H. vm_compute. exact H.
Defined.

(** *** [getPriceImpact] *)

(** Past the guard, on finite inputs, the impact is finite and denotes
    [-(1 - q) * 100] for the quotient [q] of the two values rounded to
    twenty places. *)
Lemma getPriceImpact_value
  (rm : RoundingMode) (params : GetPriceImpactParams) :
  let amountIn := toBigNumber params.(pi_amountIn) in
  let amountOut := toBigNumber params.(pi_amountOut) in
  let priceIn := toBigNumber params.(priceIn) in
  let priceOut := toBigNumber params.(priceOut) in
  (forall x, In x [amountIn; amountOut; priceIn; priceOut] ->
             isFinite x = true /\ isZero x = false) ->
  isFinite (getPriceImpact rm params) = true
  /\ (toQ (getPriceImpact rm params)
      == - ((1 - Qround rm 20 (toQ amountOut * toQ priceOut
                              / (toQ amountIn * toQ priceIn))) * 100))%Q.
Proof.
  intros aIn aOut pIn pOut H.
  destruct (H aIn ltac:(simpl; tauto)) as [F1 Z1].
  destruct (H aOut ltac:(simpl; tauto)) as [F2 Z2].
  destruct (H pIn ltac:(simpl; tauto)) as [F3 Z3].
  destruct (H pOut ltac:(simpl; tauto)) as [F4 Z4].
  unfold getPriceImpact. fold aIn aOut pIn pOut.
  rewrite Z1, Z2, Z3, Z4, !finite_not_NaN by assumption. cbn [orb].
  unfold Price.getByAmount, toString. rewrite Z1, Z2. cbn [toBigNumber].
  set (vO := multipliedBy aOut pOut). set (vI := multipliedBy aIn pIn).
  assert (FvO : isFinite vO = true) by (now apply multipliedBy_finite).
  assert (FvI : isFinite vI = true) by (now apply multipliedBy_finite).
  assert (HvO : (toQ vO == toQ aOut * toQ pOut)%Q)
    by (now apply toQ_multipliedBy).
  assert (HvI : (toQ vI == toQ aIn * toQ pIn)%Q)
    by (now apply toQ_multipliedBy).
  pose proof (nonzero_toQ aIn F1 Z1) as N1.
  pose proof (nonzero_toQ pIn F3 Z3) as N3.
  assert (ZvI : isZero vI = false).
  { apply isZero_false_toQ; [exact FvI|]. rewrite HvI. intro E.
    apply Qmult_integral in E. tauto. }
  assert (Fq : isFinite (dividedBy rm vO vI) = true)
    by (now apply dividedBy_finite).
  assert (Fm : isFinite (minus one (dividedBy rm vO vI)) = true)
    by (now apply minus_finite).
  split.
  - rewrite negated_finite.
    apply multipliedBy_finite; [exact Fm|apply ofZ_finite].
  - rewrite toQ_negated.
    rewrite toQ_multipliedBy by (try apply ofZ_finite; exact Fm).
    rewrite toQ_minus by (try reflexivity; exact Fq).
    rewrite toQ_dividedBy by assumption.
    rewrite toQ_one, toQ_ofZ, HvO, HvI. reflexivity.
Qed.

(** X7: for positive inputs the impact is finite and never below -100. *)
Theorem getPriceImpact_at_least_minus_100
  (rm : RoundingMode) (params : GetPriceImpactParams) :
  (forall x,
      In x [toBigNumber params.(pi_amountIn);
            toBigNumber params.(pi_amountOut);
            toBigNumber params.(priceIn); toBigNumber params.(priceOut)] ->
      positive x = true) ->
  isFinite (getPriceImpact rm params) = true
  /\ isLessThanOrEqualTo (ofZ (-100)) (getPriceImpact rm params) = true.
Proof.
  intro Hpos.
  destruct (getPriceImpact_value rm params
              (fun x Hx => positive_finite_nonzero x (Hpos x Hx)))
    as [Fr Hr].
  split; [exact Fr|].
  apply (isLessThanOrEqualTo_spec _ _ (ofZ_finite _) Fr).
  rewrite toQ_ofZ, Hr.
  destruct (proj1 (positive_spec _) (Hpos _ ltac:(simpl; left; reflexivity)))
    as [_ P1].
  destruct (proj1 (positive_spec _)
              (Hpos _ ltac:(simpl; right; left; reflexivity))) as [_ P2].
  destruct (proj1 (positive_spec _)
              (Hpos _ ltac:(simpl; right; right; left; reflexivity)))
    as [_ P3].
  destruct (proj1 (positive_spec _)
              (Hpos _ ltac:(simpl; right; right; right; left; reflexivity)))
    as [_ P4].
  match goal with
  | |- context [Qround rm 20 ?q] =>
      assert (Hq : (0 <= q)%Q)
        by (apply Qdiv_nonneg; [apply Qmult_le_0_compat; lra
                               |apply Qmult_lt_0_compat; lra]);
      pose proof (Qround_nonneg_le rm 20 q Hq)
  end.
  change (inject_Z (-100)) with (- (100))%Q. lra.
Qed.

Lemma getPriceImpact_at_least_minus_100_witness :
  isLessThanOrEqualTo (ofZ (-100))
    (getPriceImpact DEFAULT_ROUNDING_MODE
       {| pi_amountIn := Types.StringValue (ofZ 100);
          pi_amountOut := Types.StringValue (ofZ 1);
          priceIn := Types.NumberValue (ofZ 1);
          priceOut := Types.NumberValue (ofZ 1) |}) = true.
Proof.
  apply (getPriceImpact_at_least_minus_100 DEFAULT_ROUNDING_MODE
           {| pi_amountIn := Types.StringValue (ofZ 100);
              pi_amountOut := Types.StringValue (ofZ 1);
              priceIn := Types.NumberValue (ofZ 1);
              priceOut := Types.NumberValue (ofZ 1) |}).
  intros x [<-|[<-|[<-|[<-|[]]]]]; reflexivity.
Defined.

(** X8: for positive inputs, receiving no less for no more never lowers
    the impact: with [amountOut <= amountOut'] and [amountIn' <= amountIn]
    at the same prices, the impact of the second trade is at least that of
    the first. *)
Theorem getPriceImpact_monotone (rm : RoundingMode)
  (aIn aIn' aOut aOut' : Types.Amount) (pIn pOut : Types.Number) :
  (forall x,
      In x [toBigNumber aIn; toBigNumber aIn'; toBigNumber aOut;
            toBigNumber aOut'; toBigNumber pIn; toBigNumber pOut] ->
      positive x = true) ->
  isLessThanOrEqualTo (toBigNumber aOut) (toBigNumber aOut') = true ->
  isLessThanOrEqualTo (toBigNumber aIn') (toBigNumber aIn) = true ->
  isLessThanOrEqualTo
    (getPriceImpact rm
       {| pi_amountIn := aIn; pi_amountOut := aOut;
          priceIn := pIn; priceOut := pOut |})
    (getPriceImpact rm
       {| pi_amountIn := aIn'; pi_amountOut := aOut';
          priceIn := pIn; priceOut := pOut |}) = true.
Proof.
  intros Hpos HO HI.
  assert (H1 : forall x,
             In x [toBigNumber aIn; toBigNumber aOut;
                   toBigNumber pIn; toBigNumber pOut] ->
             isFinite x = true /\ isZero x = false).
  { intros x Hx. apply positive_finite_nonzero, Hpos.
    simpl in Hx |- *. tauto. }
  assert (H2 : forall x,
             In x [toBigNumber aIn'; toBigNumber aOut';
                   toBigNumber pIn; toBigNumber pOut] ->
             isFinite x = true /\ isZero x = false).
  { intros x Hx. apply positive_finite_nonzero, Hpos.
    simpl in Hx |- *. tauto. }
  destruct (getPriceImpact_value rm
              {| pi_amountIn := aIn; pi_amountOut := aOut;
                 priceIn := pIn; priceOut := pOut |} H1) as [F1 V1].
  destruct (getPriceImpact_value rm
              {| pi_amountIn := aIn'; pi_amountOut := aOut';
                 priceIn := pIn; priceOut := pOut |} H2) as [F2 V2].
  cbn [pi_amountIn pi_amountOut priceIn priceOut] in V1, V2.
  destruct (proj1 (positive_spec _) (Hpos (toBigNumber aIn)
                                       ltac:(simpl; tauto))) as [Fa Pa].
  destruct (proj1 (positive_spec _) (Hpos (toBigNumber aIn')
                                       ltac:(simpl; tauto))) as [Fa' Pa'].
  destruct (proj1 (positive_spec _) (Hpos (toBigNumber aOut)
                                       ltac:(simpl; tauto))) as [Fo Po].
  destruct (proj1 (positive_spec _) (Hpos (toBigNumber aOut')
                                       ltac:(simpl; tauto))) as [Fo' Po'].
  destruct (proj1 (positive_spec _) (Hpos (toBigNumber pIn)
                                       ltac:(simpl; tauto))) as [Fp Pp].
  destruct (proj1 (positive_spec _) (Hpos (toBigNumber pOut)
                                       ltac:(simpl; tauto))) as [Fq Pq].
  apply (isLessThanOrEqualTo_spec _ _ Fo Fo') in HO.
  apply (isLessThanOrEqualTo_spec _ _ Fa' Fa) in HI.
  apply (isLessThanOrEqualTo_spec _ _ F1 F2). rewrite V1, V2.
  set (a := toQ (toBigNumber aIn)) in *.
  set (a' := toQ (toBigNumber aIn')) in *.
  set (o := toQ (toBigNumber aOut)) in *.
  set (o' := toQ (toBigNumber aOut')) in *.
  set (p := toQ (toBigNumber pIn)) in *.
  set (q := toQ (toBigNumber pOut)) in *.
  assert (Hden : (0 < a * p)%Q) by (now apply Qmult_lt_0_compat).
  assert (Hden' : (0 < a' * p)%Q) by (now apply Qmult_lt_0_compat).
  assert (Hquot : (o * q / (a * p) <= o' * q / (a' * p))%Q).
  { apply Qle_shift_div_l; [exact Hden'|].
    assert (E : (o * q / (a * p) * (a' * p)
                 == o * q * (a' * p) / (a * p))%Q) by (field; lra).
    rewrite E. apply Qle_shift_div_r; [exact Hden|].
    assert (K1 : (0 <= (o' - o) * (q * (a * p)))%Q)
      by (repeat apply Qmult_le_0_compat; lra).
    assert (K2 : (0 <= (a - a') * (o * q * p))%Q)
      by (repeat apply Qmult_le_0_compat; lra).
    nra. }
  apply (Qround_mono rm 20) in Hquot. lra.
Qed.

Lemma getPriceImpact_monotone_witness :
  isLessThanOrEqualTo
    (getPriceImpact DEFAULT_ROUNDING_MODE
       {| pi_amountIn := Types.StringValue (ofZ 100);
          pi_amountOut := Types.StringValue (ofZ 90);
          priceIn := Types.NumberValue (ofZ 2);
          priceOut := Types.NumberValue (ofZ 3) |})
    (getPriceImpact DEFAULT_ROUNDING_MODE
       {| pi_amountIn := Types.StringValue (ofZ 80);
          pi_amountOut := Types.StringValue (ofZ 95);
          priceIn := Types.NumberValue (ofZ 2);
          priceOut := Types.NumberValue (ofZ 3) |}) = true.
Proof.
  apply (getPriceImpact_monotone DEFAULT_ROUNDING_MODE
           (Types.StringValue (ofZ 100)) (Types.StringValue (ofZ 80))
           (Types.StringValue (ofZ 90)) (Types.StringValue (ofZ 95))
           (Types.NumberValue (ofZ 2)) (Types.NumberValue (ofZ 3))).
  - intros x [<-|[<-|[<-|[<-|[<-|[<-|[]]]]]]]; reflexivity.
  - reflexivity.
  - reflexivity.
Defined.

(** X9: unless an input is infinite, the impact is a finite number: zero
    and not-a-number inputs are answered by 0, and past the guard no
    division by zero is left. *)
Theorem getPriceImpact_finite
  (rm : RoundingMode) (params : GetPriceImpactParams) :
  (forall x,
      In x [toBigNumber params.(pi_amountIn);
            toBigNumber params.(pi_amountOut);
            toBigNumber params.(priceIn); toBigNumber params.(priceOut)] ->
      isFinite x = true \/ isNaN x = true) ->
  isFinite (getPriceImpact rm params) = true.
Proof.
  intro H.
  destruct (isZero (toBigNumber params.(pi_amountIn))
            || isNaN (toBigNumber params.(pi_amountIn))
            || isZero (toBigNumber params.(pi_amountOut))
            || isNaN (toBigNumber params.(pi_amountOut))
            || isZero (toBigNumber params.(priceIn))
            || isNaN (toBigNumber params.(priceIn))
            || isZero (toBigNumber params.(priceOut))
            || isNaN (toBigNumber params.(priceOut))) eqn:G.
  - unfold getPriceImpact. rewrite G. reflexivity.
  - repeat (apply orb_false_iff in G; destruct G as [G ?]).
    apply getPriceImpact_value.
    intros x Hx. destruct (H x Hx) as [Hf|Hn].
    + split; [exact Hf|].
      simpl in Hx. destruct Hx as [<-|[<-|[<-|[<-|[]]]]]; assumption.
    + simpl in Hx. destruct Hx as [<-|[<-|[<-|[<-|[]]]]]; congruence.
Qed.

Lemma getPriceImpact_finite_witness :
  isFinite
    (getPriceImpact DEFAULT_ROUNDING_MODE
       {| pi_amountIn := Types.StringValue (ofZ (-7));
          pi_amountOut := Types.StringValue (ofZ 3);
          priceIn := Types.NumberValue (Finite false 1 (-30));
          priceOut := Types.NumberValue (ofZ 5) |}) = true.
Proof.
  apply getPriceImpact_finite.
  intros x [<-|[<-|[<-|[<-|[]]]]]; left; reflexivity.
Defined.

(** X10: past the guard, on finite inputs, a trade whose value out equals
    its value in has an impact of zero. *)
Theorem getPriceImpact_break_even
  (rm : RoundingMode) (params : GetPriceImpactParams) :
  let amountIn := toBigNumber params.(pi_amountIn) in
  let amountOut := toBigNumber params.(pi_amountOut) in
  let priceIn := toBigNumber params.(priceIn) in
  let priceOut := toBigNumber params.(priceOut) in
  (forall x, In x [amountIn; amountOut; priceIn; priceOut] ->
             isFinite x = true /\ isZero x = false) ->
  isEqualTo (multipliedBy amountOut priceOut) (multipliedBy amountIn priceIn)
  = true ->
  isZero (getPriceImpact rm params) = true.
Proof.
  intros aIn aOut pIn pOut H Heq.
  destruct (getPriceImpact_value rm params H) as [Fr Hr].
  fold aIn aOut pIn pOut in Hr.
  destruct (H aIn ltac:(simpl; tauto)) as [F1 Z1].
  destruct (H aOut ltac:(simpl; tauto)) as [F2 Z2].
  destruct (H pIn ltac:(simpl; tauto)) as [F3 Z3].
  destruct (H pOut ltac:(simpl; tauto)) as [F4 Z4].
  apply isEqualTo_spec in Heq; try (now apply multipliedBy_finite).
  rewrite !toQ_multipliedBy in Heq by assumption.
  pose proof (nonzero_toQ aIn F1 Z1) as N1.
  pose proof (nonzero_toQ pIn F3 Z3) as N3.
  assert (Hd : ~ (toQ aIn * toQ pIn == 0)%Q).
  { intro E. apply Qmult_integral in E. tauto. }
  assert (Hq : (toQ aOut * toQ pOut / (toQ aIn * toQ pIn) == 1)%Q).
  { rewrite Heq. field. tauto. }
  apply (isZero_toQ _ Fr). rewrite Hr, Hq, Qround_1. ring.
Qed.

Lemma getPriceImpact_break_even_witness :
  isZero
    (getPriceImpact DEFAULT_ROUNDING_MODE
       {| pi_amountIn := Types.StringValue (ofZ 100);
          pi_amountOut := Types.StringValue (ofZ 50);
          priceIn := Types.NumberValue (ofZ 3);
          priceOut := Types.NumberValue (ofZ 6) |}) = true.
Proof.
  apply (getPriceImpact_break_even DEFAULT_ROUNDING_MODE
           {| pi_amountIn := Types.StringValue (ofZ 100);
              pi_amountOut := Types.StringValue (ofZ 50);
              priceIn := Types.NumberValue (ofZ 3);
              priceOut := Types.NumberValue (ofZ 6) |}).
  - intros x [<-|[<-|[<-|[<-|[]]]]]; split; reflexivity.
  - reflexivity.
Defined.

(** X24: the impact does not depend on the quote currency: past the guard,
    on finite inputs, multiplying both prices by the same finite non-zero
    factor leaves the impact unchanged. *)
Theorem getPriceImpact_quote_invariant (rm : RoundingMode)
  (aIn aOut : Types.Amount) (pIn pOut : Types.Number) (k : BigNumber.t) :
  (forall x,
      In x [toBigNumber aIn; toBigNumber aOut; toBigNumber pIn;
            toBigNumber pOut; k] ->
      isFinite x = true /\ isZero x = false) ->
  isEqualTo
    (getPriceImpact rm
       {| pi_amountIn := aIn; pi_amountOut := aOut;
          priceIn := pIn; priceOut := pOut |})
    (getPriceImpact rm
       {| pi_amountIn := aIn; pi_amountOut := aOut;
          priceIn := Types.BigNumberValue (multipliedBy k (toBigNumber pIn));
          priceOut := Types.BigNumberValue (multipliedBy k (toBigNumber pOut))
       |}) = true.
Proof.
  intro H.
  destruct (H (toBigNumber aIn) ltac:(simpl; tauto)) as [F1 Z1].
  destruct (H (toBigNumber aOut) ltac:(simpl; tauto)) as [F2 Z2].
  destruct (H (toBigNumber pIn) ltac:(simpl; tauto)) as [F3 Z3].
  destruct (H (toBigNumber pOut) ltac:(simpl; tauto)) as [F4 Z4].
  destruct (H k ltac:(simpl; tauto)) as [Fk Zk].
  pose proof (nonzero_toQ _ F1 Z1) as N1.
  pose proof (nonzero_toQ _ F3 Z3) as N3.
  pose proof (nonzero_toQ _ F4 Z4) as N4.
  pose proof (nonzero_toQ _ Fk Zk) as Nk.
  assert (Fkp : forall p, isFinite p = true -> isZero p = false ->
                          isFinite (multipliedBy k p) = true
                          /\ isZero (multipliedBy k p) = false).
  { intros p Fp Zp. split; [now apply multipliedBy_finite|].
    apply isZero_false_toQ; [now apply multipliedBy_finite|].
    rewrite toQ_multipliedBy by assumption. intro E.
    apply Qmult_integral in E. pose proof (nonzero_toQ p Fp Zp). tauto. }
  destruct (getPriceImpact_value rm
              {| pi_amountIn := aIn; pi_amountOut := aOut;
                 priceIn := pIn; priceOut := pOut |}) as [Fa Va].
  { cbn [pi_amountIn pi_amountOut priceIn priceOut].
    intros x Hx. apply H. simpl in Hx |- *. tauto. }
  destruct (getPriceImpact_value rm
              {| pi_amountIn := aIn; pi_amountOut := aOut;
                 priceIn :=
                   Types.BigNumberValue (multipliedBy k (toBigNumber pIn));
                 priceOut :=
                   Types.BigNumberValue (multipliedBy k (toBigNumber pOut))
              |}) as [Fb Vb].
  { cbn [pi_amountIn pi_amountOut priceIn priceOut toBigNumber].
    intros x [<-|[<-|[<-|[<-|[]]]]]; auto. }
  cbn [pi_amountIn pi_amountOut priceIn priceOut toBigNumber] in Va, Vb.
  apply isEqualTo_spec; [exact Fa|exact Fb|].
  rewrite Va, Vb, !toQ_multipliedBy by assumption.
  apply Qopp_comp, Qmult_comp; [|reflexivity].
  apply Qplus_comp; [reflexivity|]. apply Qopp_comp, Qround_comp.
  field. repeat split; assumption.
Qed.

Lemma getPriceImpact_quote_invariant_witness :
  isEqualTo
    (getPriceImpact DEFAULT_ROUNDING_MODE
       {| pi_amountIn := Types.StringValue (ofZ 100);
          pi_amountOut := Types.StringValue (ofZ 90);
          priceIn := Types.NumberValue (ofZ 2);
          priceOut := Types.NumberValue (ofZ 3) |})
    (getPriceImpact DEFAULT_ROUNDING_MODE
       {| pi_amountIn := Types.StringValue (ofZ 100);
          pi_amountOut := Types.StringValue (ofZ 90);
          priceIn := Types.BigNumberValue (ofZ 14);
          priceOut := Types.BigNumberValue (ofZ 21) |}) = true.
Proof.
  pose proof (getPriceImpact_quote_invariant DEFAULT_ROUNDING_MODE
                (Types.StringValue (ofZ 100)) (Types.StringValue (ofZ 90))
                (Types.NumberValue (ofZ 2)) (Types.NumberValue (ofZ 3))
                (ofZ 7)) as H.
  assert (Hnd : forall x,
             In x [ofZ 100; ofZ 90; ofZ 2; ofZ 3; ofZ 7] ->
             isFinite x = true /\ isZero x = false).
  { intros x [<-|[<-|[<-|[<-|[<-|[]]]]]]; split; reflexivity. }
  specialize (H Hnd). vm_compute in H. vm_compute. exact H.
Defined.

End SwapProperties.

(** ** Further properties of [src/math/liquidity.ts] *)

Module LiquidityProperties.

Import BigNumber Semantics BigNumberFacts RoundingFacts Utils Liquidity.

(** *** [getPairDecimals] *)

Lemma getPairDecimals_value (rm : RoundingMode) (d0 d1 : Types.Decimals) :
  (Z.of_nat d0 + Z.of_nat d1 <= 2 ^ 53)%Z ->
  getPairDecimals rm d0 d1 = Some ((Z.of_nat d0 + Z.of_nat d1) / 2)%Z.
Proof.
  intro Hb. unfold getPairDecimals, Types.ofDecimals. cbn [toBigNumber].
  set (s := (Z.of_nat d0 + Z.of_nat d1)%Z) in *.
  set (x := dividedBy rm (plus (ofNat d0) (ofNat d1)) (ofNat 2)).
  assert (Fs : isFinite (plus (ofNat d0) (ofNat d1)) = true)
    by (apply plus_finite; apply ofZ_finite).
  assert (Fx : isFinite x = true)
    by (apply dividedBy_finite; [exact Fs|reflexivity|reflexivity]).
  assert (Hx : (toQ x == inject_Z s / inject_Z 2)%Q).
  { unfold x. rewrite toQ_dividedBy by (try reflexivity; exact Fs).
    rewrite toQ_plus by apply ofZ_finite. unfold ofNat.
    rewrite !toQ_ofZ, <- inject_Z_plus. fold s.
    assert (E : (inject_Z s / inject_Z 2
                 == inject_Z (s * (5 * 10 ^ 19)) / 10 ^ 20)%Q).
    { rewrite inject_Z_mult. unfold Qdiv. rewrite <- Qmult_assoc.
      apply Qmult_comp; reflexivity. }
    rewrite (Qround_comp rm 20 _ _ E), Qround_exact. now rewrite E. }
  assert (Hfl : Qfloor (toQ x) = (s / 2)%Z).
  { rewrite Zdiv_Qdiv. apply Qfloor_comp. exact Hx. }
  rewrite <- Hfl. apply toNumber_floor; [exact Fx|].
  rewrite Hfl.
  assert (0 <= s / 2 <= s)%Z.
  { split; [apply Z.div_pos; lia|apply Z.div_le_upper_bound; lia]. }
  lia.
Qed.

(** X11: for all decimals whose sum a double holds exactly (at most 2^53),
    [getPairDecimals] is the floor of their mean; it does not depend on the
    order of the two tokens and lies between the smaller and the larger of
    the two decimals. *)
Theorem getPairDecimals_mean (rm : RoundingMode) (d0 d1 : Types.Decimals) :
  (Z.of_nat d0 + Z.of_nat d1 <= 2 ^ 53)%Z ->
  getPairDecimals rm d0 d1 = Some ((Z.of_nat d0 + Z.of_nat d1) / 2)%Z
  /\ getPairDecimals rm d0 d1 = getPairDecimals rm d1 d0
  /\ exists z, getPairDecimals rm d0 d1 = Some z
               /\ (Z.of_nat (Nat.min d0 d1) <= z <= Z.of_nat (Nat.max d0 d1))%Z.
Proof.
  intro Hb.
  pose proof (getPairDecimals_value rm d0 d1 Hb) as H.
  pose proof (getPairDecimals_value rm d1 d0 ltac:(lia)) as H'.
  split; [exact H|]. split.
  - rewrite H, H'. f_equal. f_equal. lia.
  - eexists. split; [exact H|].
    split.
    + apply Z.div_le_lower_bound; lia.
    + apply Z.div_le_upper_bound; lia.
Qed.

Lemma getPairDecimals_mean_witness :
  getPairDecimals DEFAULT_ROUNDING_MODE 6 255 = Some 130%Z
  /\ getPairDecimals DEFAULT_ROUNDING_MODE 6 255
     = getPairDecimals DEFAULT_ROUNDING_MODE 255 6.
Proof.
  pose proof (getPairDecimals_mean DEFAULT_ROUNDING_MODE 6 255
                ltac:(vm_compute; discriminate))
    as (H1 & H2 & _).
  split; [|exact H2]. rewrite H1. reflexivity.
Defined.

(** *** [getAddPosition] *)

(** X12: with exactly one reserve zero, the other positive, positive
    desired amounts and a total supply that is not zero, [getAddPosition]
    is not-a-number: the zero reserve is divided by without a guard. *)
Theorem getAddPosition_single_zero_reserve
  (rm : RoundingMode) (params : GetAddPositionParams) :
  positive (toBigNumber params.(token0Amount)) = true ->
  positive (toBigNumber params.(token1Amount)) = true ->
  isZero (toBigNumber params.(totalSupply)) = false ->
  (toBigNumber params.(reserve0) = zero
   /\ positive (toBigNumber params.(reserve1)) = true)
  \/ (positive (toBigNumber params.(reserve0)) = true
      /\ toBigNumber params.(reserve1) = zero) ->
  getAddPosition rm params = NaN.
Proof.
  intros H0 H1 Hts Hres.
  pose proof (positive_removeDecimals _ params.(token0Decimals) H0) as Ha0.
  pose proof (positive_removeDecimals _ params.(token1Decimals) H1) as Ha1.
  unfold getAddPosition.
  set (a0d := removeDecimals params.(token0Amount) params.(token0Decimals))
    in *.
  set (a1d := removeDecimals params.(token1Amount) params.(token1Decimals))
    in *.
  destruct (positive_finite_nonzero a0d Ha0) as [Fa0 Za0].
  destruct (positive_finite_nonzero a1d Ha1) as [Fa1 Za1].
  destruct Hres as [[E0 Hr1]|[Hr0 E1]].
  - (* reserve0 = 0 *)
    rewrite E0.
    destruct (positive_finite_nonzero _ Hr1) as [Fr1 Zr1].
    unfold creditedAmounts. rewrite Zr1. cbn [isZero zero N.eqb andb].
    destruct (positive_shape _ (positive_multipliedBy _ _ Ha0 Hr1))
      as (c & e & Em & Hc).
    rewrite Em.
    assert (Einf : dividedBy rm (Finite false c e) zero = Infinity false).
    { unfold dividedBy, div, zero. cbn [N.eqb].
      destruct (N.eqb_spec c 0); [contradiction|reflexivity]. }
    rewrite Einf.
    assert (Eg : isGreaterThanOrEqualTo a1d (Infinity false) = false)
      by (destruct a1d; try discriminate; reflexivity).
    rewrite Eg.
    destruct (optimal_against_zero rm a1d zero _ Fa1 eq_refl eq_refl Hr1)
      as [Fo Zo].
    unfold mintedPosition. rewrite Hts.
    rewrite (zero_over_zero rm _ zero Fo Zo eq_refl eq_refl).
    rewrite min_NaN_l. reflexivity.
  - (* reserve1 = 0 *)
    rewrite E1.
    destruct (positive_finite_nonzero _ Hr0) as [Fr0 Zr0].
    unfold creditedAmounts. rewrite Zr0. cbn [andb].
    destruct (optimal_against_zero rm a0d zero _ Fa0 eq_refl eq_refl Hr0)
      as [Fo Zo].
    assert (Eg : isGreaterThanOrEqualTo a1d
                   (dividedBy rm (multipliedBy a0d zero)
                      (toBigNumber params.(reserve0))) = true).
    { apply isGreaterThanOrEqualTo_spec; [exact Fa1|exact Fo|].
      apply (isZero_toQ _ Fo) in Zo. rewrite Zo.
      apply positive_spec in Ha1 as [_ P]. now apply Qlt_le_weak. }
    rewrite Eg.
    unfold mintedPosition. rewrite Hts.
    rewrite (zero_over_zero rm _ zero Fo Zo eq_refl eq_refl).
    rewrite min_NaN_r. reflexivity.
Qed.

Lemma getAddPosition_single_zero_reserve_witness :
  getAddPosition DEFAULT_ROUNDING_MODE
    {| token0Amount := Types.StringValue (ofZ 10);
       token1Amount := Types.StringValue (ofZ 20);
       token0Decimals := 0; token1Decimals := 0;
       reserve0 := Types.BigIntValue 0;
       reserve1 := Types.BigIntValue 200;
       totalSupply := Types.BigIntValue 50 |} = NaN.
Proof.
  apply getAddPosition_single_zero_reserve; try reflexivity.
  left. split; reflexivity.
Defined.

(** X13: what exceeds the reserve ratio does not count.  While
    [token1Amount] stays at or above the optimal amount for [token0Amount],
    changing it does not change the position; and while it stays below,
    changing [token0Amount] does not change the position. *)
Theorem getAddPosition_excess_ignored (rm : RoundingMode)
  (t0 t0' t1 t1' : Types.Amount) (d0 d1 : Types.Decimals)
  (r0 r1 ts : Types.Number) :
  let a0d := removeDecimals t0 d0 in
  let a0d' := removeDecimals t0' d0 in
  let a1d := removeDecimals t1 d1 in
  let a1d' := removeDecimals t1' d1 in
  let optimal a :=
    dividedBy rm (multipliedBy a (toBigNumber r1)) (toBigNumber r0) in
  isZero (toBigNumber r0) && isZero (toBigNumber r1) = false ->
  (isGreaterThanOrEqualTo a1d (optimal a0d) = true ->
   isGreaterThanOrEqualTo a1d' (optimal a0d) = true ->
   getAddPosition rm
     {| token0Amount := t0; token1Amount := t1;
        token0Decimals := d0; token1Decimals := d1;
        reserve0 := r0; reserve1 := r1; totalSupply := ts |}
   = getAddPosition rm
       {| token0Amount := t0; token1Amount := t1';
          token0Decimals := d0; token1Decimals := d1;
          reserve0 := r0; reserve1 := r1; totalSupply := ts |})
  /\ (isGreaterThanOrEqualTo a1d (optimal a0d) = false ->
      isGreaterThanOrEqualTo a1d (optimal a0d') = false ->
      getAddPosition rm
        {| token0Amount := t0; token1Amount := t1;
           token0Decimals := d0; token1Decimals := d1;
           reserve0 := r0; reserve1 := r1; totalSupply := ts |}
      = getAddPosition rm
          {| token0Amount := t0'; token1Amount := t1;
             token0Decimals := d0; token1Decimals := d1;
             reserve0 := r0; reserve1 := r1; totalSupply := ts |}).
Proof.
  intros a0d a0d' a1d a1d' optimal Hres.
  unfold getAddPosition, creditedAmounts.
  cbn [token0Amount token1Amount token0Decimals token1Decimals
       reserve0 reserve1 totalSupply].
  rewrite Hres. fold a0d a0d' a1d a1d'.
  split.
  - intros H H'. unfold optimal in H, H'. now rewrite H, H'.
  - intros H H'. unfold optimal in H, H'. now rewrite H, H'.
Qed.

Lemma getAddPosition_excess_ignored_witness :
  getAddPosition DEFAULT_ROUNDING_MODE
    {| token0Amount := Types.StringValue (ofZ 10);
       token1Amount := Types.StringValue (ofZ 20);
       token0Decimals := 0; token1Decimals := 0;
       reserve0 := Types.BigIntValue 100; reserve1 := Types.BigIntValue 200;
       totalSupply := Types.BigIntValue 50 |}
  = getAddPosition DEFAULT_ROUNDING_MODE
      {| token0Amount := Types.StringValue (ofZ 10);
         token1Amount := Types.StringValue (ofZ 999);
         token0Decimals := 0; token1Decimals := 0;
         reserve0 := Types.BigIntValue 100; reserve1 := Types.BigIntValue 200;
         totalSupply := Types.BigIntValue 50 |}.
Proof.
  apply (proj1 (getAddPosition_excess_ignored DEFAULT_ROUNDING_MODE
                  (Types.StringValue (ofZ 10)) (Types.StringValue (ofZ 10))
                  (Types.StringValue (ofZ 20)) (Types.StringValue (ofZ 999))
                  0%nat 0%nat (Types.BigIntValue 100) (Types.BigIntValue 200)
                  (Types.BigIntValue 50) eq_refl));
    reflexivity.
Defined.

(** On positive reserves and non-negative desired amounts the credited
    amounts are finite and non-negative, and the credited [amount1] is at
    most the desired one. *)
Lemma creditedAmounts_wf (rm : RoundingMode) (a0d a1d r0 r1 : BigNumber.t) :
  nonnegative a0d = true -> nonnegative a1d = true ->
  positive r0 = true -> positive r1 = true ->
  nonnegative (fst (creditedAmounts rm a0d a1d r0 r1)) = true
  /\ nonnegative (snd (creditedAmounts rm a0d a1d r0 r1)) = true
  /\ (toQ (snd (creditedAmounts rm a0d a1d r0 r1)) <= toQ a1d)%Q.
Proof.
  intros H0 H1 Hr0 Hr1.
  destruct (positive_finite_nonzero r0 Hr0) as [Fr0 Zr0].
  destruct (positive_finite_nonzero r1 Hr1) as [Fr1 Zr1].
  pose proof H0 as H0'. pose proof H1 as H1'.
  apply nonnegative_spec in H0' as [F0 P0].
  apply nonnegative_spec in H1' as [F1 P1].
  apply positive_spec in Hr0 as [_ Pr0]. apply positive_spec in Hr1 as [_ Pr1].
  unfold creditedAmounts. rewrite Zr0. cbn [andb].
  set (o1 := dividedBy rm (multipliedBy a0d r1) r0).
  assert (Fo1 : isFinite o1 = true)
    by (apply dividedBy_finite; [now apply multipliedBy_finite|assumption..]).
  assert (Po1 : (0 <= toQ o1)%Q).
  { unfold o1. rewrite toQ_dividedBy, toQ_multipliedBy
      by (try apply multipliedBy_finite; assumption).
    apply Qround_nonneg_le, Qdiv_nonneg; [|exact Pr0].
    apply Qmult_le_0_compat; lra. }
  destruct (isGreaterThanOrEqualTo a1d o1) eqn:G; cbn [fst snd].
  - apply (isGreaterThanOrEqualTo_spec a1d o1 F1 Fo1) in G.
    repeat split; [exact H0| |exact G].
    apply nonnegative_spec. now split.
  - set (o0 := dividedBy rm (multipliedBy a1d r0) r1).
    assert (Fo0 : isFinite o0 = true)
      by (apply dividedBy_finite;
          [now apply multipliedBy_finite|assumption..]).
    repeat split; [|exact H1|apply Qle_refl].
    apply nonnegative_spec. split; [exact Fo0|].
    unfold o0. rewrite toQ_dividedBy, toQ_multipliedBy
      by (try apply multipliedBy_finite; assumption).
    apply Qround_nonneg_le, Qdiv_nonneg; [|exact Pr1].
    apply Qmult_le_0_compat; lra.
Qed.

(** The proportional mint for non-negative amounts against positive
    reserves and total supply: finite, non-negative, whole, and at most the
    rounded proportional share of [amount1]. *)
Lemma mintedPosition_wf (rm : RoundingMode) (x y r0 r1 ts : BigNumber.t) :
  nonnegative x = true -> nonnegative y = true ->
  positive r0 = true -> positive r1 = true -> positive ts = true ->
  nonnegative (mintedPosition rm x y r0 r1 ts) = true
  /\ decimalPlaces (mintedPosition rm x y r0 r1 ts) = Some 0%Z
  /\ (toQ (mintedPosition rm x y r0 r1 ts)
      <= Qround rm 0 (Qround rm 20 (toQ y * toQ ts / toQ r1)))%Q.
Proof.
  intros Hx Hy Hr0 Hr1 Hts.
  destruct (positive_finite_nonzero r0 Hr0) as [Fr0 Zr0].
  destruct (positive_finite_nonzero r1 Hr1) as [Fr1 Zr1].
  destruct (positive_finite_nonzero ts Hts) as [Fts Zts].
  apply nonnegative_spec in Hx as [Fx Px].
  apply nonnegative_spec in Hy as [Fy Py].
  apply positive_spec in Hr0 as [_ Pr0]. apply positive_spec in Hr1 as [_ Pr1].
  apply positive_spec in Hts as [_ Pts].
  unfold mintedPosition. rewrite Zts.
  set (one := dividedBy rm (multipliedBy x ts) r0).
  set (two := dividedBy rm (multipliedBy y ts) r1).
  assert (F1 : isFinite one = true)
    by (apply dividedBy_finite; [now apply multipliedBy_finite|assumption..]).
  assert (F2 : isFinite two = true)
    by (apply dividedBy_finite; [now apply multipliedBy_finite|assumption..]).
  assert (V1 : (toQ one == Qround rm 20 (toQ x * toQ ts / toQ r0))%Q).
  { unfold one. rewrite toQ_dividedBy, toQ_multipliedBy
      by (try apply multipliedBy_finite; assumption). reflexivity. }
  assert (V2 : (toQ two == Qround rm 20 (toQ y * toQ ts / toQ r1))%Q).
  { unfold two. rewrite toQ_dividedBy, toQ_multipliedBy
      by (try apply multipliedBy_finite; assumption). reflexivity. }
  assert (P1 : (0 <= toQ one)%Q).
  { rewrite V1. apply Qround_nonneg_le, Qdiv_nonneg; [|exact Pr0].
    apply Qmult_le_0_compat; lra. }
  assert (P2 : (0 <= toQ two)%Q).
  { rewrite V2. apply Qround_nonneg_le, Qdiv_nonneg; [|exact Pr1].
    apply Qmult_le_0_compat; lra. }
  pose proof (min_finite one two F1 F2) as Fm.
  pose proof (toQ_min one two F1 F2) as Vm.
  assert (Pm : (0 <= toQ (BigNumber.min one two))%Q)
    by (destruct Vm as [[E _]|[E _]]; rewrite E; assumption).
  assert (Lm : (toQ (BigNumber.min one two) <= toQ two)%Q)
    by (destruct Vm as [[E L]|[E _]]; rewrite E; [exact L|apply Qle_refl]).
  split; [|split].
  - apply nonnegative_spec. split; [now apply dp_finite|].
    rewrite toQ_dp by exact Fm. now apply Qround_nonneg_le.
  - now apply decimalPlaces_dp0.
  - rewrite toQ_dp by exact Fm. rewrite <- V2. now apply Qround_mono.
Qed.

(** X14: for non-negative desired amounts and positive reserves and total
    supply, the position is a finite, non-negative whole number. *)
Theorem getAddPosition_whole
  (rm : RoundingMode) (params : GetAddPositionParams) :
  nonnegative (toBigNumber params.(token0Amount)) = true ->
  nonnegative (toBigNumber params.(token1Amount)) = true ->
  positive (toBigNumber params.(reserve0)) = true ->
  positive (toBigNumber params.(reserve1)) = true ->
  positive (toBigNumber params.(totalSupply)) = true ->
  nonnegative (getAddPosition rm params) = true
  /\ decimalPlaces (getAddPosition rm params) = Some 0%Z.
Proof.
  intros H0 H1 Hr0 Hr1 Hts.
  pose proof (nonnegative_removeDecimals _ params.(token0Decimals) H0) as A0.
  pose proof (nonnegative_removeDecimals _ params.(token1Decimals) H1) as A1.
  destruct (creditedAmounts_wf rm _ _ _ _ A0 A1 Hr0 Hr1) as (Cx & Cy & _).
  unfold getAddPosition.
  destruct (creditedAmounts rm _ _ _ _) as [x y]. cbn [fst snd] in *.
  destruct (mintedPosition_wf rm x y _ _ _ Cx Cy Hr0 Hr1 Hts) as (M1 & M2 & _).
  now split.
Qed.

Lemma getAddPosition_whole_witness :
  nonnegative
    (getAddPosition DEFAULT_ROUNDING_MODE
       {| token0Amount := Types.StringValue (ofZ 10);
          token1Amount := Types.StringValue (ofZ 7);
          token0Decimals := 0; token1Decimals := 0;
          reserve0 := Types.BigIntValue 100;
          reserve1 := Types.BigIntValue 300;
          totalSupply := Types.BigIntValue 50 |}) = true.
Proof.
  apply getAddPosition_whole; reflexivity.
Defined.

(** X15: under the same conditions the position never exceeds what the
    desired token1 amount alone is worth,
    [token1Desired * totalSupply / reserve1] rounded as the code rounds. *)
Theorem getAddPosition_at_most_token1_share
  (rm : RoundingMode) (params : GetAddPositionParams) :
  let a1d := removeDecimals params.(token1Amount) params.(token1Decimals) in
  let r1 := toBigNumber params.(reserve1) in
  let ts := toBigNumber params.(totalSupply) in
  nonnegative (toBigNumber params.(token0Amount)) = true ->
  nonnegative (toBigNumber params.(token1Amount)) = true ->
  positive (toBigNumber params.(reserve0)) = true ->
  positive r1 = true -> positive ts = true ->
  isLessThanOrEqualTo (getAddPosition rm params)
    (dp rm 0 (dividedBy rm (multipliedBy a1d ts) r1)) = true.
Proof.
  intros a1d r1 ts H0 H1 Hr0 Hr1 Hts.
  pose proof (nonnegative_removeDecimals _ params.(token0Decimals) H0) as A0.
  pose proof (nonnegative_removeDecimals _ params.(token1Decimals) H1) as A1.
  fold a1d in A1.
  destruct (creditedAmounts_wf rm _ _ _ _ A0 A1 Hr0 Hr1) as (Cx & Cy & Cle).
  destruct (positive_finite_nonzero r1 Hr1) as [Fr1 Zr1].
  destruct (positive_finite_nonzero ts Hts) as [Fts Zts].
  pose proof A1 as A1'. apply nonnegative_spec in A1' as [Fa1 Pa1].
  assert (Fq : isFinite (dividedBy rm (multipliedBy a1d ts) r1) = true)
    by (apply dividedBy_finite; [now apply multipliedBy_finite|assumption..]).
  unfold getAddPosition. fold a1d r1 ts.
  destruct (creditedAmounts rm _ a1d _ r1) as [x y]. cbn [fst snd] in *.
  destruct (mintedPosition_wf rm x y _ _ _ Cx Cy Hr0 Hr1 Hts) as (Hnn & _ & M).
  apply nonnegative_spec in Hnn as [Fl _].
  apply isLessThanOrEqualTo_spec; [exact Fl|now apply dp_finite|].
  rewrite toQ_dp, toQ_dividedBy, toQ_multipliedBy
    by (try apply multipliedBy_finite; assumption).
  eapply Qle_trans; [exact M|].
  apply positive_spec in Hr1 as [_ Pr1]. apply positive_spec in Hts as [_ Pts].
  apply Qround_mono, Qround_mono.
  unfold Qdiv. apply Qmult_le_compat_r;
    [|now apply Qlt_le_weak, Qinv_lt_0_compat].
  apply Qmult_le_compat_r; lra.
Qed.

Lemma getAddPosition_at_most_token1_share_witness :
  isLessThanOrEqualTo
    (getAddPosition DEFAULT_ROUNDING_MODE
       {| token0Amount := Types.StringValue (ofZ 10);
          token1Amount := Types.StringValue (ofZ 7);
          token0Decimals := 0; token1Decimals := 0;
          reserve0 := Types.BigIntValue 100;
          reserve1 := Types.BigIntValue 300;
          totalSupply := Types.BigIntValue 50 |})
    (dp DEFAULT_ROUNDING_MODE 0
       (dividedBy DEFAULT_ROUNDING_MODE
          (multipliedBy (ofZ 7) (ofZ 50)) (ofZ 300))) = true.
Proof.
  apply (getAddPosition_at_most_token1_share DEFAULT_ROUNDING_MODE
           {| token0Amount := Types.StringValue (ofZ 10);
              token1Amount := Types.StringValue (ofZ 7);
              token0Decimals := 0; token1Decimals := 0;
              reserve0 := Types.BigIntValue 100;
              reserve1 := Types.BigIntValue 300;
              totalSupply := Types.BigIntValue 50 |});
    reflexivity.
Defined.

Lemma multipliedBy_comm (x y : BigNumber.t) :
  multipliedBy x y = multipliedBy y x.
Proof.
  destruct x as [| |a cx ex], y as [| |b cy ey]; cbn [multipliedBy];
    try reflexivity; rewrite xorb_comm; try reflexivity.
  now rewrite N.mul_comm, Z.add_comm.
Qed.

(** X16: a first deposit (both reserves and the total supply zero) mints
    the same position whichever of the two tokens is called token0. *)
Theorem getAddPosition_first_deposit_symmetric (rm : RoundingMode)
  (t0 t1 : Types.Amount) (d0 d1 : Types.Decimals) (r0 r1 ts : Types.Number) :
  isZero (toBigNumber r0) = true ->
  isZero (toBigNumber r1) = true ->
  isZero (toBigNumber ts) = true ->
  getAddPosition rm
    {| token0Amount := t0; token1Amount := t1;
       token0Decimals := d0; token1Decimals := d1;
       reserve0 := r0; reserve1 := r1; totalSupply := ts |}
  = getAddPosition rm
      {| token0Amount := t1; token1Amount := t0;
         token0Decimals := d1; token1Decimals := d0;
         reserve0 := r1; reserve1 := r0; totalSupply := ts |}.
Proof.
  intros H0 H1 Hts.
  unfold getAddPosition, creditedAmounts, mintedPosition.
  cbn [token0Amount token1Amount token0Decimals token1Decimals
       reserve0 reserve1 totalSupply].
  rewrite H0, H1, Hts. cbn [andb].
  now rewrite multipliedBy_comm.
Qed.

Lemma getAddPosition_first_deposit_symmetric_witness :
  getAddPosition DEFAULT_ROUNDING_MODE
    {| token0Amount := Types.StringValue (ofZ 2000000000);
       token1Amount := Types.StringValue (ofZ 800000000000);
       token0Decimals := 3; token1Decimals := 5;
       reserve0 := Types.BigIntValue 0; reserve1 := Types.BigIntValue 0;
       totalSupply := Types.BigIntValue 0 |}
  = getAddPosition DEFAULT_ROUNDING_MODE
      {| token0Amount := Types.StringValue (ofZ 800000000000);
         token1Amount := Types.StringValue (ofZ 2000000000);
         token0Decimals := 5; token1Decimals := 3;
         reserve0 := Types.BigIntValue 0; reserve1 := Types.BigIntValue 0;
         totalSupply := Types.BigIntValue 0 |}.
Proof.
  apply getAddPosition_first_deposit_symmetric; reflexivity.
Defined.

(** X17: the dust floor of a first deposit.  With non-negative desired
    amounts [a0] and [a1] (after [removeDecimals]), the position is at most
    zero when [a0 * a1 <= 1000000] and at least zero when
    [a0 * a1 >= 1000000]: only deposits above [MINIMUM_LIQUIDITY^2] mint a
    positive position. *)
Theorem getAddPosition_dust_floor
  (rm : RoundingMode) (params : GetAddPositionParams) :
  let a0d := removeDecimals params.(token0Amount) params.(token0Decimals) in
  let a1d := removeDecimals params.(token1Amount) params.(token1Decimals) in
  isZero (toBigNumber params.(reserve0)) = true ->
  isZero (toBigNumber params.(reserve1)) = true ->
  isZero (toBigNumber params.(totalSupply)) = true ->
  nonnegative (toBigNumber params.(token0Amount)) = true ->
  nonnegative (toBigNumber params.(token1Amount)) = true ->
  (isLessThanOrEqualTo (multipliedBy a0d a1d) (ofZ 1000000) = true ->
   isLessThanOrEqualTo (getAddPosition rm params) zero = true)
  /\ (isLessThanOrEqualTo (ofZ 1000000) (multipliedBy a0d a1d) = true ->
      isLessThanOrEqualTo zero (getAddPosition rm params) = true).
Proof.
  intros a0d a1d Hr0 Hr1 Hts H0 H1.
  pose proof (nonnegative_removeDecimals _ params.(token0Decimals) H0) as A0.
  pose proof (nonnegative_removeDecimals _ params.(token1Decimals) H1) as A1.
  fold a0d in A0. fold a1d in A1.
  apply nonnegative_spec in A0 as [F0 P0].
  apply nonnegative_spec in A1 as [F1 P1].
  unfold getAddPosition, creditedAmounts, mintedPosition.
  fold a0d a1d. rewrite Hr0, Hr1, Hts. cbn [andb].
  set (v := multipliedBy a0d a1d).
  assert (Fv : isFinite v = true) by (now apply multipliedBy_finite).
  assert (Pv : (0 <= toQ v)%Q).
  { unfold v. rewrite toQ_multipliedBy by assumption.
    now apply Qmult_le_0_compat. }
  destruct (sqrt_finite rm v Fv Pv) as [Fs Ps].
  destruct (sqrt_bounds rm v 1000 Fv Pv) as [Ble Bge].
  change (inject_Z (Z.of_N (1000 * 1000))) with (inject_Z 1000000) in Ble, Bge.
  change (inject_Z (Z.of_N 1000)) with (inject_Z 1000) in Ble, Bge.
  assert (Fm : isFinite (minus (sqrt rm v) MINIMUM_LIQUIDITY) = true)
    by (now apply minus_finite).
  assert (Vm : (toQ (minus (sqrt rm v) MINIMUM_LIQUIDITY)
                == toQ (sqrt rm v) - inject_Z 1000)%Q).
  { rewrite toQ_minus by (try reflexivity; exact Fs). reflexivity. }
  split; intro H.
  - apply (isLessThanOrEqualTo_spec v _ Fv (ofZ_finite _)) in H.
    rewrite toQ_ofZ in H.
    apply isLessThanOrEqualTo_spec; [now apply dp_finite|reflexivity|].
    rewrite toQ_dp by exact Fm. rewrite toQ_zero, <- (Qround_0 rm 0).
    apply Qround_mono. rewrite Vm. specialize (Ble H). lra.
  - apply (isLessThanOrEqualTo_spec _ v (ofZ_finite _) Fv) in H.
    rewrite toQ_ofZ in H.
    apply isLessThanOrEqualTo_spec; [reflexivity|now apply dp_finite|].
    rewrite toQ_dp by exact Fm. rewrite toQ_zero, <- (Qround_0 rm 0).
    apply Qround_mono. rewrite Vm. specialize (Bge H). lra.
Qed.

Lemma getAddPosition_dust_floor_witness :
  isLessThanOrEqualTo
    (getAddPosition DEFAULT_ROUNDING_MODE
       {| token0Amount := Types.StringValue (ofZ 999);
          token1Amount := Types.StringValue (ofZ 1001);
          token0Decimals := 0; token1Decimals := 0;
          reserve0 := Types.BigIntValue 0; reserve1 := Types.BigIntValue 0;
          totalSupply := Types.BigIntValue 0 |}) zero = true.
Proof.
  apply (proj1 (getAddPosition_dust_floor DEFAULT_ROUNDING_MODE
                  {| token0Amount := Types.StringValue (ofZ 999);
                     token1Amount := Types.StringValue (ofZ 1001);
                     token0Decimals := 0; token1Decimals := 0;
                     reserve0 := Types.BigIntValue 0;
                     reserve1 := Types.BigIntValue 0;
                     totalSupply := Types.BigIntValue 0 |}
                  eq_refl eq_refl eq_refl eq_refl eq_refl)).
  reflexivity.
Defined.

(** *** [getAddPercentage] *)

(** X18: for non-negative desired amounts and positive reserves and total
    supply, the percentage is a finite number between 0 and 1. *)
Theorem getAddPercentage_unit_interval
  (rm : RoundingMode) (params : GetPercentageParams) :
  nonnegative (toBigNumber params.(token0Amount)) = true ->
  nonnegative (toBigNumber params.(token1Amount)) = true ->
  positive (toBigNumber params.(reserve0)) = true ->
  positive (toBigNumber params.(reserve1)) = true ->
  positive (toBigNumber params.(totalSupply)) = true ->
  nonnegative (getAddPercentage rm params) = true
  /\ isLessThanOrEqualTo (getAddPercentage rm params) one = true.
Proof.
  intros H0 H1 Hr0 Hr1 Hts.
  pose proof (nonnegative_removeDecimals _ params.(token0Decimals) H0) as A0.
  pose proof (nonnegative_removeDecimals _ params.(token1Decimals) H1) as A1.
  destruct (creditedAmounts_wf rm _ _ _ _ A0 A1 Hr0 Hr1) as (Cx & Cy & _).
  assert (Hlp : nonnegative (getAddPosition rm params) = true).
  { unfold getAddPosition.
    destruct (creditedAmounts rm _ _ _ _) as [x y]. cbn [fst snd] in *.
    now destruct (mintedPosition_wf rm x y _ _ _ Cx Cy Hr0 Hr1 Hts). }
  destruct (positive_finite_nonzero _ Hts) as [Fts Zts].
  apply positive_spec in Hts as [_ Pts].
  apply nonnegative_spec in Hlp as [Fl Pl].
  unfold getAddPercentage. rewrite Zts. cbv zeta.
  set (lp := getAddPosition rm params) in *.
  set (ts := toBigNumber params.(totalSupply)) in *.
  assert (Fd : isFinite (plus lp ts) = true) by (now apply plus_finite).
  assert (Vd : (toQ (plus lp ts) == toQ lp + toQ ts)%Q)
    by (now apply toQ_plus).
  assert (Zd : isZero (plus lp ts) = false).
  { apply isZero_false_toQ; [exact Fd|]. rewrite Vd. lra. }
  assert (Fq : isFinite (dividedBy rm lp (plus lp ts)) = true)
    by (now apply dividedBy_finite).
  assert (Vq : (toQ (dividedBy rm lp (plus lp ts))
                == Qround rm 20 (toQ lp / (toQ lp + toQ ts)))%Q).
  { rewrite toQ_dividedBy by assumption. now rewrite Vd. }
  assert (Q0 : (0 <= toQ lp / (toQ lp + toQ ts))%Q)
    by (apply Qdiv_nonneg; lra).
  assert (Q1 : (toQ lp / (toQ lp + toQ ts) <= 1)%Q)
    by (apply Qle_shift_div_r; lra).
  split.
  - apply nonnegative_spec. split; [exact Fq|].
    rewrite Vq. now apply Qround_nonneg_le.
  - apply isLessThanOrEqualTo_spec; [exact Fq|reflexivity|].
    rewrite Vq, toQ_one, <- Qround_1. now apply Qround_mono.
Qed.

Lemma getAddPercentage_unit_interval_witness :
  isLessThanOrEqualTo
    (getAddPercentage DEFAULT_ROUNDING_MODE
       {| token0Amount := Types.StringValue (ofZ 10);
          token1Amount := Types.StringValue (ofZ 7);
          token0Decimals := 0; token1Decimals := 0;
          reserve0 := Types.BigIntValue 100;
          reserve1 := Types.BigIntValue 300;
          totalSupply := Types.BigIntValue 50 |}) one = true.
Proof.
  apply getAddPercentage_unit_interval; reflexivity.
Defined.

(** *** [getTokenBalances] *)

(** Either balance is [dp 0 (reserve * (lpBalance / totalSupply))]; on
    finite inputs with a total supply that is not zero it is finite and
    denotes the product of the reserve and the share rounded to twenty
    places, rounded to a whole number. *)
Lemma redeemed_value (rm : RoundingMode) (r lp ts : BigNumber.t) :
  isFinite r = true -> isFinite lp = true ->
  isFinite ts = true -> isZero ts = false ->
  isFinite (dp rm 0 (multipliedBy r (dividedBy rm lp ts))) = true
  /\ (toQ (dp rm 0 (multipliedBy r (dividedBy rm lp ts)))
      == Qround rm 0 (toQ r * Qround rm 20 (toQ lp / toQ ts)))%Q.
Proof.
  intros Fr Fl Fts Zts.
  assert (Fs : isFinite (dividedBy rm lp ts) = true)
    by (now apply dividedBy_finite).
  assert (Fm : isFinite (multipliedBy r (dividedBy rm lp ts)) = true)
    by (now apply multipliedBy_finite).
  split; [now apply dp_finite|].
  rewrite toQ_dp, toQ_multipliedBy, toQ_dividedBy by assumption.
  reflexivity.
Qed.

Lemma redeemed_all (rm : RoundingMode) (r lp ts : BigNumber.t) :
  isFinite r = true -> isFinite lp = true ->
  isFinite ts = true -> isZero ts = false ->
  isEqualTo lp ts = true ->
  isEqualTo (dp rm 0 (multipliedBy r (dividedBy rm lp ts))) (dp rm 0 r) = true.
Proof.
  intros Fr Fl Fts Zts He.
  destruct (redeemed_value rm r lp ts Fr Fl Fts Zts) as [T V].
  pose proof (nonzero_toQ ts Fts Zts) as Nts.
  apply (isEqualTo_spec lp ts Fl Fts) in He.
  assert (E : (toQ lp / toQ ts == 1)%Q) by (rewrite He; field; exact Nts).
  apply isEqualTo_spec; [exact T|now apply dp_finite|].
  rewrite V, E, Qround_1, toQ_dp by assumption.
  apply Qround_comp. ring.
Qed.

Lemma dp_isFinite (rm : RoundingMode) (p : Z) (x : BigNumber.t) :
  isFinite x = false -> isFinite (dp rm p x) = false.
Proof. now destruct x. Qed.

Lemma quotient_by_zero_not_finite (rm : RoundingMode) (lp ts : BigNumber.t) :
  isZero ts = true -> isFinite (dividedBy rm lp ts) = false.
Proof.
  destruct ts as [| |b c e]; try discriminate. simpl isZero. intro Hc.
  destruct lp as [| |a cl el]; try reflexivity.
  unfold dividedBy, div. rewrite Hc. now destruct (cl =? 0)%N.
Qed.

Lemma product_not_finite (r y : BigNumber.t) :
  isFinite y = false -> isFinite (multipliedBy r y) = false.
Proof.
  destruct y as [| |b c e]; try discriminate; intros _.
  - now destruct r.
  - destruct r as [| |a cr er]; try reflexivity.
    cbn [multipliedBy]. now destruct (cr =? 0)%N.
Qed.

(** X19: with a total supply of zero nothing stops the division: whatever
    the balance and the reserves are, neither returned balance is a finite
    number. *)
Theorem getTokenBalances_zero_supply
  (rm : RoundingMode) (params : GetTokenBalancesParams) :
  isZero (toBigNumber params.(pair).(Pair.totalSupply)) = true ->
  isFinite (getTokenBalances rm params).(token0) = false
  /\ isFinite (getTokenBalances rm params).(token1) = false.
Proof.
  intro H. unfold getTokenBalances. cbn [token0 token1].
  split; apply dp_isFinite, product_not_finite,
           quotient_by_zero_not_finite, H.
Qed.

Lemma getTokenBalances_zero_supply_witness :
  isFinite
    (getTokenBalances DEFAULT_ROUNDING_MODE
       {| pair := {| Pair.reserve0 := Types.BigIntValue 100;
                     Pair.reserve1 := Types.BigIntValue 0;
                     Pair.totalSupply := Types.BigIntValue 0 |};
          lpBalance := Types.BigIntValue 5 |}).(token0) = false
  /\ isFinite
       (getTokenBalances DEFAULT_ROUNDING_MODE
          {| pair := {| Pair.reserve0 := Types.BigIntValue 100;
                        Pair.reserve1 := Types.BigIntValue 0;
                        Pair.totalSupply := Types.BigIntValue 0 |};
             lpBalance := Types.BigIntValue 5 |}).(token1) = false.
Proof.
  apply (getTokenBalances_zero_supply DEFAULT_ROUNDING_MODE
           {| pair := {| Pair.reserve0 := Types.BigIntValue 100;
                         Pair.reserve1 := Types.BigIntValue 0;
                         Pair.totalSupply := Types.BigIntValue 0 |};
              lpBalance := Types.BigIntValue 5 |}).
  reflexivity.
Defined.

(** X20: the two ends.  For finite reserves and a finite total supply that
    is not zero, a balance of zero redeems nothing, and a balance equal to
    the total supply redeems each reserve rounded to a whole number. *)
Theorem getTokenBalances_ends
  (rm : RoundingMode) (params : GetTokenBalancesParams) :
  let r0 := toBigNumber params.(pair).(Pair.reserve0) in
  let r1 := toBigNumber params.(pair).(Pair.reserve1) in
  let ts := toBigNumber params.(pair).(Pair.totalSupply) in
  let lp := toBigNumber params.(lpBalance) in
  isFinite r0 = true -> isFinite r1 = true ->
  isFinite ts = true -> isZero ts = false -> isFinite lp = true ->
  (isZero lp = true ->
   isZero (getTokenBalances rm params).(token0) = true
   /\ isZero (getTokenBalances rm params).(token1) = true)
  /\ (isEqualTo lp ts = true ->
      isEqualTo (getTokenBalances rm params).(token0) (dp rm 0 r0) = true
      /\ isEqualTo (getTokenBalances rm params).(token1) (dp rm 0 r1) = true).
Proof.
  intros r0 r1 ts lp F0 F1 Fts Zts Fl.
  destruct (redeemed_value rm r0 lp ts F0 Fl Fts Zts) as [T0 V0].
  destruct (redeemed_value rm r1 lp ts F1 Fl Fts Zts) as [T1 V1].
  unfold getTokenBalances. cbn [token0 token1]. fold r0 r1 ts lp.
  pose proof (nonzero_toQ ts Fts Zts) as Nts.
  split.
  - intro Hz. apply (isZero_toQ lp Fl) in Hz.
    assert (E : (toQ lp / toQ ts == 0)%Q)
      by (rewrite Hz; unfold Qdiv; ring).
    split; apply isZero_toQ; try assumption.
    + rewrite V0, E, Qround_0.
      assert (E0 : (toQ r0 * 0 == 0)%Q) by ring.
      rewrite E0. apply Qround_0.
    + rewrite V1, E, Qround_0.
      assert (E0 : (toQ r1 * 0 == 0)%Q) by ring.
      rewrite E0. apply Qround_0.
  - intro He. apply (isEqualTo_spec lp ts Fl Fts) in He.
    assert (E : (toQ lp / toQ ts == 1)%Q)
      by (rewrite He; field; exact Nts).
    split; apply isEqualTo_spec; try assumption; try (now apply dp_finite).
    + rewrite V0, E, Qround_1, toQ_dp by assumption.
      apply Qround_comp. ring.
    + rewrite V1, E, Qround_1, toQ_dp by assumption.
      apply Qround_comp. ring.
Qed.

Lemma getTokenBalances_ends_witness :
  isEqualTo
    (getTokenBalances DEFAULT_ROUNDING_MODE
       {| pair := {| Pair.reserve0 := Types.BigIntValue 1234;
                     Pair.reserve1 := Types.BigIntValue 99;
                     Pair.totalSupply := Types.BigIntValue 7 |};
          lpBalance := Types.BigIntValue 7 |}).(token0)
    (dp DEFAULT_ROUNDING_MODE 0 (ofZ 1234)) = true.
Proof.
  apply (getTokenBalances_ends DEFAULT_ROUNDING_MODE
           {| pair := {| Pair.reserve0 := Types.BigIntValue 1234;
                         Pair.reserve1 := Types.BigIntValue 99;
                         Pair.totalSupply := Types.BigIntValue 7 |};
              lpBalance := Types.BigIntValue 7 |});
    reflexivity.
Defined.

(** X21: for non-negative reserves and a positive total supply, a larger
    balance never redeems less of either token. *)
Theorem getTokenBalances_monotone (rm : RoundingMode)
  (p : Pair.Model) (lp lp' : Pair.Balance) :
  nonnegative (toBigNumber p.(Pair.reserve0)) = true ->
  nonnegative (toBigNumber p.(Pair.reserve1)) = true ->
  positive (toBigNumber p.(Pair.totalSupply)) = true ->
  isFinite (toBigNumber lp) = true -> isFinite (toBigNumber lp') = true ->
  isLessThanOrEqualTo (toBigNumber lp) (toBigNumber lp') = true ->
  isLessThanOrEqualTo
    (getTokenBalances rm {| pair := p; lpBalance := lp |}).(token0)
    (getTokenBalances rm {| pair := p; lpBalance := lp' |}).(token0) = true
  /\ isLessThanOrEqualTo
       (getTokenBalances rm {| pair := p; lpBalance := lp |}).(token1)
       (getTokenBalances rm {| pair := p; lpBalance := lp' |}).(token1) = true.
Proof.
  intros H0 H1 Hts Fl Fl' Hle.
  apply nonnegative_spec in H0 as [F0 P0].
  apply nonnegative_spec in H1 as [F1 P1].
  destruct (positive_finite_nonzero _ Hts) as [Fts Zts].
  apply positive_spec in Hts as [_ Pts].
  apply (isLessThanOrEqualTo_spec _ _ Fl Fl') in Hle.
  unfold getTokenBalances. cbn [token0 token1 pair lpBalance].
  assert (Hshare : (Qround rm 20 (toQ (toBigNumber lp)
                                 / toQ (toBigNumber p.(Pair.totalSupply)))
                    <= Qround rm 20 (toQ (toBigNumber lp')
                                    / toQ (toBigNumber p.(Pair.totalSupply))))%Q).
  { apply Qround_mono. unfold Qdiv. apply Qmult_le_compat_r; [exact Hle|].
    now apply Qlt_le_weak, Qinv_lt_0_compat. }
  split.
  - destruct (redeemed_value rm _ _ _ F0 Fl Fts Zts) as [T V].
    destruct (redeemed_value rm _ _ _ F0 Fl' Fts Zts) as [T' V'].
    apply isLessThanOrEqualTo_spec; [exact T|exact T'|].
    rewrite V, V'. apply Qround_mono.
    rewrite !(Qmult_comm (toQ (toBigNumber p.(Pair.reserve0)))).
    now apply Qmult_le_compat_r.
  - destruct (redeemed_value rm _ _ _ F1 Fl Fts Zts) as [T V].
    destruct (redeemed_value rm _ _ _ F1 Fl' Fts Zts) as [T' V'].
    apply isLessThanOrEqualTo_spec; [exact T|exact T'|].
    rewrite V, V'. apply Qround_mono.
    rewrite !(Qmult_comm (toQ (toBigNumber p.(Pair.reserve1)))).
    now apply Qmult_le_compat_r.
Qed.

Lemma getTokenBalances_monotone_witness :
  isLessThanOrEqualTo
    (getTokenBalances DEFAULT_ROUNDING_MODE
       {| pair := {| Pair.reserve0 := Types.BigIntValue 1000;
                     Pair.reserve1 := Types.BigIntValue 500;
                     Pair.totalSupply := Types.BigIntValue 70 |};
          lpBalance := Types.BigIntValue 3 |}).(token0)
    (getTokenBalances DEFAULT_ROUNDING_MODE
       {| pair := {| Pair.reserve0 := Types.BigIntValue 1000;
                     Pair.reserve1 := Types.BigIntValue 500;
                     Pair.totalSupply := Types.BigIntValue 70 |};
          lpBalance := Types.BigIntValue 4 |}).(token0) = true.
Proof.
  apply (getTokenBalances_monotone DEFAULT_ROUNDING_MODE
           {| Pair.reserve0 := Types.BigIntValue 1000;
              Pair.reserve1 := Types.BigIntValue 500;
              Pair.totalSupply := Types.BigIntValue 70 |}
           (Types.BigIntValue 3) (Types.BigIntValue 4));
    reflexivity.
Defined.

Lemma redeemed_accuracy (rm : RoundingMode) (r lp ts : BigNumber.t) :
  nonnegative r = true -> nonnegative lp = true -> positive ts = true ->
  let t := dp rm 0 (multipliedBy r (dividedBy rm lp ts)) in
  nonnegative t = true
  /\ decimalPlaces t = Some 0%Z
  /\ (toQ r * toQ lp / toQ ts - (1 + toQ r * ulp) < toQ t
      /\ toQ t <= toQ r * toQ lp / toQ ts
                  + ((1 # 2) + toQ r * ((1 # 2) * ulp)))%Q.
Proof.
  intros Hr Hl Hts t.
  apply nonnegative_spec in Hr as [Fr Pr].
  apply nonnegative_spec in Hl as [Fl Pl].
  destruct (positive_finite_nonzero _ Hts) as [Fts Zts].
  apply positive_spec in Hts as [_ Pts].
  destruct (redeemed_value rm r lp ts Fr Fl Fts Zts) as [Ft Vt].
  fold t in Ft, Vt.
  assert (Hq : (0 <= toQ lp / toQ ts)%Q) by (now apply Qdiv_nonneg).
  pose proof (Qround_nonneg_le rm 20 _ Hq) as Hs0.
  pose proof (Qround_upper rm 20 (toQ lp / toQ ts)) as Hu.
  pose proof (Qround_lower rm 20 (toQ lp / toQ ts)) as Hl.
  fold ulp in Hl.
  assert (Eu : ((1 # 2) / 10 ^ 20 == (1 # 2) * ulp)%Q)
    by (unfold ulp; field; pose proof (pow10_pos 20); lra).
  rewrite Eu in Hu.
  set (s := Qround rm 20 (toQ lp / toQ ts)) in *.
  assert (Hy : (0 <= toQ r * s)%Q) by (now apply Qmult_le_0_compat).
  pose proof (Qround_nonneg_le rm 0 _ Hy) as Ht0.
  pose proof (Qround_upper rm 0 (toQ r * s)) as Hu0.
  pose proof (Qround_lower rm 0 (toQ r * s)) as Hl0.
  change ((1 # 2) / 10 ^ 0)%Q with (1 # 2)%Q in Hu0.
  change (1 / 10 ^ 0)%Q with 1%Q in Hl0.
  assert (E : (toQ r * toQ lp / toQ ts == toQ r * (toQ lp / toQ ts))%Q)
    by (field; lra).
  assert (H1 : (toQ r * s <= toQ r * (toQ lp / toQ ts + (1 # 2) * ulp))%Q).
  { rewrite !(Qmult_comm (toQ r)). apply Qmult_le_compat_r; lra. }
  assert (H2 : (toQ r * (toQ lp / toQ ts - ulp) <= toQ r * s)%Q).
  { rewrite !(Qmult_comm (toQ r)). apply Qmult_le_compat_r; lra. }
  split; [|split].
  - apply nonnegative_spec. split; [exact Ft|]. now rewrite Vt.
  - unfold t. apply decimalPlaces_dp0.
    apply multipliedBy_finite; [exact Fr|now apply dividedBy_finite].
  - rewrite Vt, E. split; lra.
Qed.

(** Rounded down, a balance is never above the exact share. *)
Lemma redeemed_floor (r lp ts : BigNumber.t) :
  nonnegative r = true -> nonnegative lp = true -> positive ts = true ->
  (toQ (dp ROUND_FLOOR 0 (multipliedBy r (dividedBy ROUND_FLOOR lp ts)))
   <= toQ r * toQ lp / toQ ts)%Q.
Proof.
  intros Hr Hl Hts.
  apply nonnegative_spec in Hr as [Fr Pr].
  apply nonnegative_spec in Hl as [Fl Pl].
  destruct (positive_finite_nonzero _ Hts) as [Fts Zts].
  apply positive_spec in Hts as [_ Pts].
  destruct (redeemed_value ROUND_FLOOR r lp ts Fr Fl Fts Zts) as [_ Vt].
  rewrite Vt. cbn [Qround].
  pose proof (Qdown_le 0 (toQ r * Qdown 20 (toQ lp / toQ ts))) as D0.
  pose proof (Qdown_le 20 (toQ lp / toQ ts)) as D.
  assert (H : (toQ r * Qdown 20 (toQ lp / toQ ts)
               <= toQ r * (toQ lp / toQ ts))%Q).
  { rewrite !(Qmult_comm (toQ r)). now apply Qmult_le_compat_r. }
  assert (E : (toQ r * toQ lp / toQ ts == toQ r * (toQ lp / toQ ts))%Q)
    by (field; lra).
  lra.
Qed.

(** X22: for non-negative reserves and balance and a positive total supply,
    each returned balance is a finite, non-negative whole number close to
    the exact share [reserve * lpBalance / totalSupply]: in either mode it
    lies less than [1 + reserve * 1e-20] under it and at most
    [1/2 + reserve * 5e-21] above it, and when the library rounds down it is
    never above it. *)
Theorem getTokenBalances_accuracy
  (rm : RoundingMode) (params : GetTokenBalancesParams) :
  let r0 := toBigNumber params.(pair).(Pair.reserve0) in
  let r1 := toBigNumber params.(pair).(Pair.reserve1) in
  let ts := toBigNumber params.(pair).(Pair.totalSupply) in
  let lp := toBigNumber params.(lpBalance) in
  let t0 := (getTokenBalances rm params).(token0) in
  let t1 := (getTokenBalances rm params).(token1) in
  nonnegative r0 = true -> nonnegative r1 = true ->
  positive ts = true -> nonnegative lp = true ->
  (nonnegative t0 = true /\ decimalPlaces t0 = Some 0%Z
   /\ (toQ r0 * toQ lp / toQ ts - (1 + toQ r0 * ulp) < toQ t0
       /\ toQ t0 <= toQ r0 * toQ lp / toQ ts
                    + ((1 # 2) + toQ r0 * ((1 # 2) * ulp)))%Q)
  /\ (nonnegative t1 = true /\ decimalPlaces t1 = Some 0%Z
      /\ (toQ r1 * toQ lp / toQ ts - (1 + toQ r1 * ulp) < toQ t1
          /\ toQ t1 <= toQ r1 * toQ lp / toQ ts
                       + ((1 # 2) + toQ r1 * ((1 # 2) * ulp)))%Q)
  /\ (toQ (getTokenBalances ROUND_FLOOR params).(token0)
      <= toQ r0 * toQ lp / toQ ts
      /\ toQ (getTokenBalances ROUND_FLOOR params).(token1)
         <= toQ r1 * toQ lp / toQ ts)%Q.
Proof.
  intros r0 r1 ts lp t0 t1 H0 H1 Hts Hl.
  split; [|split; [|split]].
  - exact (redeemed_accuracy rm r0 lp ts H0 Hl Hts).
  - exact (redeemed_accuracy rm r1 lp ts H1 Hl Hts).
  - exact (redeemed_floor r0 lp ts H0 Hl Hts).
  - exact (redeemed_floor r1 lp ts H1 Hl Hts).
Qed.

Lemma getTokenBalances_accuracy_witness :
  nonnegative
    (getTokenBalances ROUND_FLOOR
       {| pair := {| Pair.reserve0 := Types.BigIntValue 9;
                     Pair.reserve1 := Types.BigIntValue 500;
                     Pair.totalSupply := Types.BigIntValue 10 |};
          lpBalance := Types.BigIntValue 1 |}).(token0) = true
  /\ (toQ (getTokenBalances ROUND_FLOOR
             {| pair := {| Pair.reserve0 := Types.BigIntValue 9;
                           Pair.reserve1 := Types.BigIntValue 500;
                           Pair.totalSupply := Types.BigIntValue 10 |};
                lpBalance := Types.BigIntValue 1 |}).(token0)
      <= 9 * 1 / 10)%Q.
Proof.
  pose proof (getTokenBalances_accuracy ROUND_FLOOR
                {| pair := {| Pair.reserve0 := Types.BigIntValue 9;
                              Pair.reserve1 := Types.BigIntValue 500;
                              Pair.totalSupply := Types.BigIntValue 10 |};
                   lpBalance := Types.BigIntValue 1 |}
                eq_refl eq_refl eq_refl eq_refl) as ((H & _) & _ & F & _).
  split; [exact H|].
  vm_compute in F. vm_compute. exact F.
Defined.

(** *** Deposit and redemption together *)

(** X23: the percentage announced for a deposit is the share the depositor
    then holds.  Let [lp = getAddPosition params] be minted into a pool of
    total supply [ts].  Redeeming [lp] against the new total supply
    [lp + ts] multiplies each reserve by [getAddPercentage params] when [ts]
    is not zero; for a first deposit ([ts] zero) with a finite non-zero [lp]
    it returns each finite reserve rounded to a whole number, the 100 % that
    [getAddPercentage] reports. *)
Theorem getTokenBalances_after_deposit (rm : RoundingMode)
  (params : GetPercentageParams) (res0 res1 : Types.Number) :
  let lp := getAddPosition rm params in
  let ts := toBigNumber params.(totalSupply) in
  let redeemed :=
    getTokenBalances rm
      {| pair := {| Pair.reserve0 := res0; Pair.reserve1 := res1;
                    Pair.totalSupply := Types.BigNumberValue (plus lp ts) |};
         lpBalance := Types.BigNumberValue lp |} in
  (isZero ts = false ->
   redeemed.(token0)
   = dp rm 0 (multipliedBy (toBigNumber res0) (getAddPercentage rm params))
   /\ redeemed.(token1)
      = dp rm 0 (multipliedBy (toBigNumber res1) (getAddPercentage rm params)))
  /\ (isFinite ts = true -> isZero ts = true ->
      isFinite lp = true -> isZero lp = false ->
      isFinite (toBigNumber res0) = true ->
      isFinite (toBigNumber res1) = true ->
      getAddPercentage rm params = one
      /\ isEqualTo redeemed.(token0) (dp rm 0 (toBigNumber res0)) = true
      /\ isEqualTo redeemed.(token1) (dp rm 0 (toBigNumber res1)) = true).
Proof.
  intros lp ts redeemed. split.
  - intro Hts. unfold redeemed, getTokenBalances, getAddPercentage.
    cbn [token0 token1 pair lpBalance Pair.reserve0 Pair.reserve1
         Pair.totalSupply toBigNumber].
    fold ts. rewrite Hts. fold lp. split; reflexivity.
  - intros Fts Zts Fl Zl F0 F1.
    split; [unfold getAddPercentage; fold ts; now rewrite Zts|].
    assert (Fd : isFinite (plus lp ts) = true) by (now apply plus_finite).
    assert (Vd : (toQ (plus lp ts) == toQ lp)%Q).
    { rewrite toQ_plus by assumption.
      apply (isZero_toQ ts Fts) in Zts. rewrite Zts. ring. }
    pose proof (nonzero_toQ lp Fl Zl) as Nl.
    assert (Zd : isZero (plus lp ts) = false).
    { apply isZero_false_toQ; [exact Fd|]. now rewrite Vd. }
    assert (He : isEqualTo lp (plus lp ts) = true).
    { apply isEqualTo_spec; try assumption. now rewrite Vd. }
    unfold redeemed, getTokenBalances.
    cbn [token0 token1 pair lpBalance Pair.reserve0 Pair.reserve1
         Pair.totalSupply toBigNumber].
    split; now apply redeemed_all.
Qed.

Lemma getTokenBalances_after_deposit_witness :
  (getTokenBalances DEFAULT_ROUNDING_MODE
     {| pair := {| Pair.reserve0 := Types.BigIntValue 110;
                   Pair.reserve1 := Types.BigIntValue 220;
                   Pair.totalSupply := Types.BigNumberValue (ofZ 55) |};
        lpBalance := Types.BigNumberValue (ofZ 5) |}).(token0) = ofZ 10.
Proof.
  pose proof (proj1 (proj1 (getTokenBalances_after_deposit DEFAULT_ROUNDING_MODE
                              {| token0Amount := Types.StringValue (ofZ 10);
                                 token1Amount := Types.StringValue (ofZ 20);
                                 token0Decimals := 0; token1Decimals := 0;
                                 reserve0 := Types.BigIntValue 100;
                                 reserve1 := Types.BigIntValue 200;
                                 totalSupply := Types.BigIntValue 50 |}
                              (Types.BigIntValue 110) (Types.BigIntValue 220))
                       eq_refl)) as H.
  vm_compute in H. vm_compute. exact H.
Defined.

End LiquidityProperties.
